(** * The parameter manager of policy.py: PolicyWithQs, PolicyWithValue and
      the Gaussian action distribution

    The Python objects are kept in an object store, because policy.py shares
    them: [self.models] holds the very objects that [self.Qs] and
    [self.policy] hold, [trainable_weights] hands out live variables that the
    optimizers update in place, and [get_weights] hands out the [log_alpha]
    variable itself.  Methods are computations in a state-and-exception monad
    over that store.  Scalar arithmetic is an interface ([Float]); no
    algebraic law is assumed of it in the ensemble part, and the distribution
    formulas are studied at its instance on the real numbers. *)

From Stdlib Require Import ZArith QArith Reals Lra Lia.
From stdpp Require Import base list gmap strings pretty.
Close Scope Q_scope.
Close Scope R_scope.
Close Scope Z_scope.

(** ** Python values, exceptions and sequences *)

Inductive exn :=
  | AssertionError
  | AttributeError
  | IndexError
  | TypeError
  | ValueError
  | ZeroDivisionError
  | InvalidArgumentError.

Inductive pyres (A : Type) :=
  | Return (a : A)
  | Raise (e : exn).
Arguments Return {A} a.
Arguments Raise {A} e.

#[global] Instance pyres_ret : MRet pyres := λ A a, Return a.
#[global] Instance pyres_bind : MBind pyres := λ A B k r,
  match r with
  | Return a => k a
  | Raise e => Raise e
  end.

Definition py_assert (b : bool) : pyres unit :=
  if b then Return tt else Raise AssertionError.

(** [range(n)] and [range(a, b)] *)
Definition range (n : Z) : list Z := seqZ 0 n.
Definition range2 (a b : Z) : list Z := seqZ a (b - a).

(** An index of a slice bound is counted from the end when negative and
    clipped to the sequence. *)
Definition slice_bound (len i : Z) : nat :=
  Z.to_nat (Z.max 0 (Z.min len (if (i <? 0)%Z then (i + len)%Z else i))).

(** [l[a:b]] *)
Definition py_slice {A} (l : list A) (a b : Z) : list A :=
  let n := Z.of_nat (length l) in
  take (slice_bound n b - slice_bound n a) (drop (slice_bound n a) l).

(** [l[i]] *)
Definition py_getitem {A} (l : list A) (i : Z) : pyres A :=
  let n := Z.of_nat (length l) in
  let j := if (i <? 0)%Z then (i + n)%Z else i in
  if (j <? 0)%Z then Raise IndexError
  else match l !! Z.to_nat j with
       | Some x => Return x
       | None => Raise IndexError
       end.

(** [a % b] on Python integers: the sign follows the divisor, as [Z.modulo]
    does, and a zero divisor raises. *)
Definition py_mod (a b : Z) : pyres Z :=
  if (b =? 0)%Z then Raise ZeroDivisionError else Return (a mod b)%Z.

(** ** Scalars and tensors *)

(** The float arithmetic the module uses, as interfaces: what the soft
    updates need, and what the distributions need on top of it. *)
Class Arith (F : Type) := {
  fzero : F;                       (* 0.0, the start of a reduce_sum *)
  fone : F;                        (* 1.0 *)
  fadd : F → F → F;
  fsub : F → F → F;
  fmul : F → F → F
}.

Class Float (F : Type) := {
  float_arith :: Arith F;
  fhalf : F;                       (* 0.5 *)
  ftwo : F;                        (* 2.0 *)
  fpi : F;                         (* np.pi *)
  fe : F;                          (* np.e *)
  fdiv : F → F → F;
  fexp : F → F;
  flog : F → F;
  fcast : nat → F;                 (* tf.cast(n, tf.float32) of a dimension *)
  fisnan : F → bool                (* np.isnan *)
}.

(** Element-wise binary operation with the broadcasting of numpy and
    TensorFlow along one axis: the two lengths agree, or one of them is 1;
    anything else raises [err]. *)
Definition broadcast {A B C} (err : exn) (f : A → B → pyres C)
    (xs : list A) (ys : list B) : pyres (list C) :=
  if decide (length xs = length ys) then mapM (λ p, f p.1 p.2) (zip xs ys)
  else match xs, ys with
       | [x], _ => mapM (f x) ys
       | _, [y] => mapM (λ x, f x y) xs
       | _, _ => Raise err
       end.

Section Tensors.
Context {F : Type} `{Arith F}.

(** A parameter array (a numpy array, or the value of a tf.Variable) is
    kept as its elements in row-major order; its shape is its element
    count.  A scalar variable has one element. *)

(** [c * a] for a Python float [c] and an array [a] *)
Definition np_scale (c : F) (a : list F) : list F := fmul c <$> a.

(** [a + b] on arrays *)
Definition np_add (a b : list F) : pyres (list F) :=
  broadcast ValueError (λ x y, Return (fadd x y)) a b.

(** [tau * source + (1.0 - tau) * target], the expression of both soft
    updates *)
Definition polyak (tau : F) (source target : list F) : pyres (list F) :=
  np_add (np_scale tau source) (np_scale (fsub fone tau) target).

(** [[tau * source + (1.0 - tau) * target
      for source, target in zip(source_params, target_params)]] *)
Definition polyak_params (tau : F) (source_params target_params : list (list F))
    : pyres (list (list F)) :=
  mapM (λ p, polyak tau p.1 p.2) (zip source_params target_params).

(** What the soft update gives on one element *)
Definition blend (tau x y : F) : F := fadd (fmul tau x) (fmul (fsub fone tau) y).

(** The shapes of a list of arrays *)
Definition shapes (ws : list (list F)) : list nat := length <$> ws.
End Tensors.

(** ** The object store *)

(** An object is named by its location in the store. *)
Abbreviation loc := nat.

(** A variable handed out by [trainable_weights]: the [k]-th variable of the
    network at [l], or the scalar variable at [l] itself. *)
Inductive varref :=
  | NetVar (l : loc) (k : nat)
  | ScalarVar (l : loc).

(** The optimizer (tf.keras.optimizers.Adam over a PolynomialDecay schedule)
    is a library of its own; it enters as an interface.  [opt_step s v g w]
    is the value the optimizer in state [s] gives variable [v], whose value
    is [w], for gradient [g]; [opt_next] is the optimizer's state after one
    [apply_gradients] call.  A variable keeps its shape. *)
Class Optimizer (F : Type) := {
  opt_state : Type;
  opt_new : list F → option string → opt_state;
  opt_step : opt_state → varref → list F → list F → list F;
  opt_next : opt_state → list (list F * varref) → opt_state;
  opt_step_length : ∀ s v g w, length (opt_step s v g w) = length w
}.

(** Modelled from the spec: MLPNet (module model, which policy.py imports
    and which is not among the sources) is "an opaque function approximator
    with a fixed input/output width and an enumerable ordered list of
    trainable parameters".  [mlp_shapes i l u o] are the shapes of that list
    for input width [i], [l] hidden layers of [u] units and output width
    [o]; [mlp_init] gives the initial value of element [j] of parameter [k]
    of a newly built network, by the network's name (every network draws
    its own initial values); [mlp_call] is the forward pass on a batch. *)
Class MLPNetModel (F : Type) := {
  mlp_shapes : Z → Z → Z → Z → list nat;
  mlp_init : Z → Z → Z → Z → string → nat → nat → F;
  mlp_call : list (list F) → list (list F) → pyres (list (list F))
}.

Section Store.
Context {F : Type} `{Arith F} `{Optimizer F} `{MLPNetModel F}.

Inductive obj :=
  | Network (name : string) (weights : list (list F))
  | TfVariable (name : string) (value : list F)
  | OptimizerObj (name : option string) (st : opt_state).

(** Computations that read and update the store and may raise; the store
    at the time of a raise is kept. *)
Definition M (A : Type) : Type := gmap loc obj → pyres A * gmap loc obj.

#[global] Instance M_ret : MRet M := λ A a h, (Return a, h).
#[global] Instance M_bind : MBind M := λ A B k m h,
  match m h with
  | (Return a, h') => k a h'
  | (Raise e, h') => (Raise e, h')
  end.

Definition raise {A} (e : exn) : M A := λ h, (Raise e, h).
Definition lift {A} (r : pyres A) : M A := λ h, (r, h).

(** [for x in l: body(x)] *)
Fixpoint for_each {A} (l : list A) (body : A → M unit) : M unit :=
  match l with
  | [] => mret tt
  | x :: l' => _ ← body x; for_each l' body
  end.

(** A new object gets a location not in use. *)
Definition alloc (o : obj) : M loc := λ h,
  let l := fresh (dom h) in (Return l, <[l := o]> h).

(** Reading through a reference.  A reference always names a live object
    in Python; the model raises [AttributeError] for a missing one, as it
    does for an object of another class. *)
Definition deref (l : loc) : M obj := λ h,
  match h !! l with
  | Some o => (Return o, h)
  | None => (Raise AttributeError, h)
  end.

Definition store (l : loc) (o : obj) : M unit := λ h, (Return tt, <[l := o]> h).

(** [hasattr(model, 'get_weights')], [hasattr(model, 'set_weights')] and
    [hasattr(model, 'trainable_weights')]: true of a Keras model, false of
    a tf.Variable. *)
Definition is_keras_model (o : obj) : bool :=
  match o with Network _ _ => true | _ => false end.

(** *** The network object *)

(** [MLPNet(input_dim, num_hidden_layers, num_hidden_units, output_dim,
    name=name)] *)
Definition initial_weights (i l u o : Z) (name : string) : list (list F) :=
  imap (λ k n, mlp_init i l u o name k <$> seq 0 n) (mlp_shapes i l u o).

Definition MLPNet (i l u o : Z) (name : string) : M loc :=
  alloc (Network name (initial_weights i l u o name)).

(** [model.get_weights()]: the values, copied *)
Definition net_get_weights (l : loc) : M (list (list F)) :=
  o ← deref l;
  match o with
  | Network _ ws => mret ws
  | _ => raise AttributeError
  end.

(** [model.set_weights(values)]: Keras refuses a list of another length
    and an array of another shape. *)
Definition net_set_weights (l : loc) (values : list (list F)) : M unit :=
  o ← deref l;
  match o with
  | Network name ws =>
      if decide (shapes values = shapes ws) then store l (Network name values)
      else raise ValueError
  | _ => raise AttributeError
  end.

(** [model.trainable_weights]: the variables themselves *)
Definition net_trainable_weights (l : loc) : M (list varref) :=
  o ← deref l;
  match o with
  | Network _ ws => mret (NetVar l <$> seq 0 (length ws))
  | _ => raise AttributeError
  end.

(** [model(x)], the forward pass *)
Definition net_call (l : loc) (x : list (list F)) : M (list (list F)) :=
  ws ← net_get_weights l; lift (mlp_call ws x).

(** *** Variables *)

Definition read_var (v : varref) : M (list F) :=
  match v with
  | NetVar l k =>
      ws ← net_get_weights l;
      match ws !! k with Some w => mret w | None => raise IndexError end
  | ScalarVar l =>
      o ← deref l;
      match o with
      | TfVariable _ x => mret x
      | _ => raise AttributeError
      end
  end.

(** [v.assign(x)]: a variable does not change shape. *)
Definition assign_var (v : varref) (x : list F) : M unit :=
  match v with
  | NetVar l k =>
      o ← deref l;
      match o with
      | Network name ws =>
          match ws !! k with
          | Some w =>
              if decide (length x = length w)
              then store l (Network name (<[k := x]> ws))
              else raise ValueError
          | None => raise IndexError
          end
      | _ => raise AttributeError
      end
  | ScalarVar l =>
      o ← deref l;
      match o with
      | TfVariable name w =>
          if decide (length x = length w) then store l (TfVariable name x)
          else raise ValueError
      | _ => raise AttributeError
      end
  end.

(** *** The optimizer object *)

(** [Adam(PolynomialDecay(schedule...), name=name)] *)
Definition new_optimizer (schedule : list F) (name : option string) : M loc :=
  alloc (OptimizerObj name (opt_new schedule name)).

(** [optimizer.apply_gradients(grads_and_vars)]: every variable of the
    pairs is updated in place from its gradient, then the optimizer
    advances. *)
Definition optimizer_apply_gradients (o : loc) (grads_and_vars : list (list F * varref)) : M unit :=
  ob ← deref o;
  match ob with
  | OptimizerObj name st =>
      _ ← for_each grads_and_vars (λ gv,
            w ← read_var gv.2; assign_var gv.2 (opt_step st gv.2 gv.1 w));
      store o (OptimizerObj name (opt_next st grads_and_vars))
  | _ => raise AttributeError
  end.
End Store.


(** ** TensorFlow operations on batches *)

(** A batch (a tensor of rank 2) is the list of its rows; the last axis runs
    along a row.  In a tensor all rows have one width. *)
Section TensorFlow.
Context {F : Type} `{Float F}.

(** [a - b], [a + b], [a / b] on batches *)
Definition tf_binop (f : F → F → F) (a b : list (list F)) : pyres (list (list F)) :=
  broadcast InvalidArgumentError
    (broadcast InvalidArgumentError (λ x y, Return (f x y))) a b.

(** the same on tensors of rank 1 *)
Definition tf_binop1 (f : F → F → F) (a b : list F) : pyres (list F) :=
  broadcast InvalidArgumentError (λ x y, Return (f x y)) a b.

(** an element-wise function on a batch *)
Definition tf_map (g : F → F) (a : list (list F)) : list (list F) :=
  (λ r : list F, g <$> r) <$> a.

(** an operand that is a Python float or a tensor of rank 0 *)
Definition tf_scalar_l (f : F → F → F) (c : F) (a : list (list F)) : list (list F) :=
  tf_map (f c) a.
Definition tf_scalar_r (f : F → F → F) (a : list (list F)) (c : F) : list (list F) :=
  tf_map (λ x, f x c) a.

Definition tf_square (a : list (list F)) : list (list F) := tf_map (λ x, fmul x x) a.
Definition tf_exp (a : list (list F)) : list (list F) := tf_map fexp a.

(** [tf.reduce_sum(a, axis=-1)] *)
Definition fsum (r : list F) : F := foldr fadd fzero r.
Definition tf_reduce_sum (a : list (list F)) : list F := fsum <$> a.

(** [tf.shape(a)[-1]]; a batch without rows does not show its width, and
    nothing below depends on it then. *)
Definition last_dim (a : list (list F)) : nat :=
  match a with
  | r :: _ => length r
  | [] => 0
  end.

(** [tf.split(a, num_or_size_splits=2, axis=-1)]: the last axis must divide
    evenly. *)
Definition tf_split2 (a : list (list F)) : pyres (list (list F) * list (list F)) :=
  halves ← mapM (λ r : list F,
              if Nat.even (length r)
              then Return (take (length r / 2) r, drop (length r / 2) r)
              else Raise InvalidArgumentError) a;
  mret (fst <$> halves, snd <$> halves).

(** [tf.concat([a, b], axis=-1)]: the batches must have as many rows. *)
Definition tf_concat (a b : list (list F)) : pyres (list (list F)) :=
  if decide (length a = length b) then Return (zip_with app a b)
  else Raise InvalidArgumentError.
End TensorFlow.

(** ** class GuassianDistribution *)

Module GuassianDistribution.
Section Defs.
Context {F : Type} `{Float F}.

Record t := Build { mean : list (list F); logstd : list (list F); std : list (list F) }.

(** [__init__(self, logits)] *)
Definition init (logits : list (list F)) : pyres t :=
  ml ← tf_split2 logits;
  mret {| mean := ml.1; logstd := ml.2; std := tf_exp ml.2 |}.

Definition mode (self : t) : list (list F) := mean self.

(** [sample(self)], given the draw of [tf.random.normal] *)
Definition sample (self : t) (normal : list (list F)) : pyres (list (list F)) :=
  sn ← tf_binop fmul (std self) normal;
  tf_binop fadd (mean self) sn.

(** [neglogp(self, sample)] *)
Definition neglogp (self : t) (sample : list (list F)) : pyres (list F) :=
  d ← tf_binop fsub sample (mean self);
  q ← tf_binop fdiv d (std self);
  let quad := fmul fhalf <$> tf_reduce_sum (tf_square q) in
  let const := fmul (fmul fhalf (flog (fmul ftwo fpi))) (fcast (last_dim sample)) in
  tf_binop1 fadd ((λ x, fadd x const) <$> quad) (tf_reduce_sum (logstd self)).

(** [entropy(self)] *)
Definition entropy (self : t) : list F :=
  tf_reduce_sum
    (tf_scalar_r fadd (logstd self) (fmul fhalf (flog (fmul (fmul ftwo fpi) fe)))).

(** [kl_divergence(self, other_gauss)], KL(this_dist, other_dist); the
    assertion on the class of [other_gauss] is its type here. *)
Definition kl_divergence (self other_gauss : t) : pyres (list F) :=
  dl ← tf_binop fsub (logstd other_gauss) (logstd self);
  dm ← tf_binop fsub (mean self) (mean other_gauss);
  num ← tf_binop fadd (tf_square (std self)) (tf_square dm);
  quo ← tf_binop fdiv num (tf_scalar_l fmul ftwo (tf_square (std other_gauss)));
  s ← tf_binop fadd dl quo;
  mret (tf_reduce_sum (tf_scalar_r fsub s fhalf)).
End Defs.
Arguments t F : clear implicits.
End GuassianDistribution.

(** What a policy asks of its action-distribution class ([act_dist_cls]). *)
Class ActDist (F : Type) := {
  act_dist : Type;
  act_sample : Type;
  act_dist_init : list (list F) → pyres act_dist;
  act_dist_neglogp : act_dist → act_sample → pyres (list F)
}.

#[global] Instance Gaussian_ActDist {F} `{Float F} : ActDist F := {|
  act_dist := GuassianDistribution.t F;
  act_sample := list (list F);
  act_dist_init := GuassianDistribution.init;
  act_dist_neglogp := GuassianDistribution.neglogp
|}.

(** ** Spaces and arguments *)

Inductive space :=
  | Box (shape : list Z)
  | Discrete (n : Z).

Definition is_Box (s : space) : bool :=
  match s with Box _ => true | Discrete _ => false end.

(** [space.shape[0]] *)
Definition shape0 (s : space) : pyres Z :=
  match s with
  | Box shape => py_getitem shape 0
  | Discrete _ => py_getitem [] 0
  end.

(** [args.log_alpha]: the string 'auto', or a number *)
Inductive log_alpha_option (F : Type) :=
  | LogAlphaAuto
  | LogAlphaValue (v : F).
Arguments LogAlphaAuto {F}.
Arguments LogAlphaValue {F} v.

(** The fields of [args] that policy.py reads *)
Record Args (F : Type) := {
  obs_dim : option Z;
  act_dim : option Z;
  Q_num : Z;
  tau : F;
  delay_update : Z;
  policy_lr_schedule : list F;
  value_lr_schedule : list F;
  log_alpha_lr_schedule : list F;
  init_log_alpha : F;
  args_log_alpha : log_alpha_option F
}.
Arguments obs_dim {F} _.
Arguments act_dim {F} _.
Arguments Q_num {F} _.
Arguments tau {F} _.
Arguments delay_update {F} _.
Arguments policy_lr_schedule {F} _.
Arguments value_lr_schedule {F} _.
Arguments log_alpha_lr_schedule {F} _.
Arguments init_log_alpha {F} _.
Arguments args_log_alpha {F} _.

(** ** class PolicyWithValue *)

Module PolicyWithValue.
Section Defs.
Context {F : Type} `{Float F} `{Optimizer F} `{MLPNetModel F}.

Record t := Build {
  args : Args F;
  act_dist_cls : ActDist F;
  policy : loc;
  value : loc;
  models : list loc;
  optimizers : list loc
}.

(** [logits[0][0]] *)
Definition first_entry (logits : list (list F)) : pyres F :=
  match logits with
  | (x :: _) :: _ => Return x
  | _ => Raise InvalidArgumentError
  end.

(** [compute_neglogp(self, obs, action)] *)
Definition compute_neglogp (self : t) (obs : list (list F))
    (action : @act_sample F (act_dist_cls self)) : M (list F) :=
  logits ← net_call (policy self) obs;
  x ← lift (first_entry logits);
  _ ← lift (py_assert (negb (fisnan x)));
  act_dist ← lift (@act_dist_init F (act_dist_cls self) logits);
  lift (act_dist_neglogp act_dist action).

(** [compute_vf(self, obs)] *)
Definition compute_vf (self : t) (obs : list (list F)) : M (list (list F)) :=
  net_call (value self) obs.

(** [get_weights(self)] *)
Definition get_weights (self : t) : M (list (list (list F))) :=
  mapM net_get_weights (models self).

(** the property [trainable_weights] *)
Definition trainable_weights (self : t) : M (list varref) :=
  groups ← mapM net_trainable_weights (models self);
  mret (concat groups).

(** [set_weights(self, weights)] *)
Definition set_weights (self : t) (weights : list (list (list F))) : M unit :=
  for_each (imap (λ i weight, (Z.of_nat i, weight)) weights) (λ iw,
    model ← lift (py_getitem (models self) iw.1);
    net_set_weights model iw.2).

(** The loop of [apply_gradients], with its running [gradi_start] *)
Fixpoint apply_gradients_from (self : t) (grads : list (list F))
    (indices : list Z) (gradi_start : Z) : M unit :=
  match indices with
  | [] => mret tt
  | i :: indices' =>
      model ← lift (py_getitem (models self) i);
      weights ← net_trainable_weights model;
      let gradi_end := (gradi_start + Z.of_nat (length weights))%Z in
      optimizer ← lift (py_getitem (optimizers self) i);
      _ ← optimizer_apply_gradients optimizer
            (zip (py_slice grads gradi_start gradi_end) weights);
      apply_gradients_from self grads indices' gradi_end
  end.

(** [apply_gradients(self, iteration, grads)] *)
Definition apply_gradients (self : t) (iteration : Z) (grads : list (list F)) : M unit :=
  apply_gradients_from self grads (range (Z.of_nat (length (models self)))) 0.
End Defs.
Arguments t F : clear implicits.
End PolicyWithValue.

(** ** class PolicyWithQs *)

Module PolicyWithQs.
Section Defs.
Context {F : Type} `{Arith F} `{Optimizer F} `{MLPNetModel F}.

(** [self.log_alpha]: the variable, or the number of [args] *)
Inductive log_alpha_field :=
  | LogAlphaVar (l : loc)
  | LogAlphaConst (v : F).

Record t := Build {
  args : Args F;
  policy : loc;
  policy_target : loc;
  policy_optimizer : loc;
  Qs : list loc;
  Q_targets : list loc;
  Q_optimizers : list loc;
  log_alpha : log_alpha_field;
  log_alpha_optimizer : option loc;
  models : list loc;
  optimizers : list loc
}.

(** [__init__(self, obs_space, act_space, args)] *)
Definition init (obs_space act_space : space) (args : Args F) : M t :=
  _ ← lift (py_assert (is_Box obs_space));
  _ ← lift (py_assert (is_Box act_space));
  obs_dim ← lift (match obs_dim args with None => shape0 obs_space | Some d => Return d end);
  act_dim ← lift (match act_dim args with None => shape0 act_space | Some d => Return d end);
  policy ← MLPNet obs_dim 2 128 (act_dim * 2) "policy";
  policy_target ← MLPNet obs_dim 2 128 (act_dim * 2) "policy_target";
  policy_optimizer ← new_optimizer (policy_lr_schedule args) (Some "policy_adam_opt");
  Qs ← mapM (λ i, MLPNet (obs_dim + act_dim) 2 128 1 ("Q" +:+ pretty i)) (range (Q_num args));
  Q_targets ← mapM (λ i, MLPNet (obs_dim + act_dim) 2 128 1 ("Q_target" +:+ pretty i))
                 (range (Q_num args));
  _ ← for_each (zip Qs Q_targets) (λ p,
        source_params ← net_get_weights p.1;
        net_set_weights p.2 source_params);
  Q_optimizers ← mapM (λ _, new_optimizer (value_lr_schedule args) None)
                    (range (Z.of_nat (length Qs)));
  match args_log_alpha args with
  | LogAlphaAuto =>
      log_alpha ← alloc (TfVariable "log_alpha" [init_log_alpha args]);
      log_alpha_optimizer ←
        new_optimizer (log_alpha_lr_schedule args) (Some "log_alpha_adam_opt");
      mret {| args := args; policy := policy; policy_target := policy_target;
              policy_optimizer := policy_optimizer;
              Qs := Qs; Q_targets := Q_targets; Q_optimizers := Q_optimizers;
              log_alpha := LogAlphaVar log_alpha;
              log_alpha_optimizer := Some log_alpha_optimizer;
              models := Qs ++ [policy; log_alpha];
              optimizers := Q_optimizers ++ [policy_optimizer; log_alpha_optimizer] |}
  | LogAlphaValue v =>
      mret {| args := args; policy := policy; policy_target := policy_target;
              policy_optimizer := policy_optimizer;
              Qs := Qs; Q_targets := Q_targets; Q_optimizers := Q_optimizers;
              log_alpha := LogAlphaConst v;
              log_alpha_optimizer := None;
              models := Qs ++ [policy];
              optimizers := Q_optimizers ++ [policy_optimizer] |}
  end.

(** One entry of the list [get_weights] returns: the arrays of a network,
    or an object that has no [get_weights], as it is. *)
Inductive weights_entry :=
  | Arrays (values : list (list F))
  | Object (l : loc).

(** [get_weights(self)] *)
Definition get_weights (self : t) : M (list weights_entry) :=
  mapM (λ model,
          o ← deref model;
          if is_keras_model o then values ← net_get_weights model; mret (Arrays values)
          else mret (Object model))
       (models self).

(** [trainable_weights] of one member of [self.models], as the property and
    the second loop of [apply_gradients] take it *)
Definition model_trainable_weights (model : loc) : M (list varref) :=
  o ← deref model;
  if is_keras_model o then net_trainable_weights model
  else mret [ScalarVar model].

(** the property [trainable_weights] *)
Definition trainable_weights (self : t) : M (list varref) :=
  groups ← mapM model_trainable_weights (models self);
  mret (concat groups).

(** [model.set_weights(weight)] and [model.assign(weight)] on an entry *)
Definition set_entry (model : loc) (weight : weights_entry) : M unit :=
  o ← deref model;
  if is_keras_model o then
    match weight with
    | Arrays values => net_set_weights model values
    | Object _ => raise TypeError
    end
  else
    match weight with
    | Arrays _ => raise ValueError
    | Object l => x ← read_var (ScalarVar l); assign_var (ScalarVar model) x
    end.

(** [set_weights(self, weights)] *)
Definition set_weights (self : t) (weights : list weights_entry) : M unit :=
  for_each (imap (λ i weight, (Z.of_nat i, weight)) weights) (λ iw,
    model ← lift (py_getitem (models self) iw.1);
    set_entry model iw.2).

(** [update_Q_targets(self)] *)
Definition update_Q_targets (self : t) : M unit :=
  let tau := tau (args self) in
  for_each (zip (Qs self) (Q_targets self)) (λ p,
    source_params ← net_get_weights p.1;
    target_params ← net_get_weights p.2;
    new ← lift (polyak_params tau source_params target_params);
    net_set_weights p.2 new).

(** [update_policy_target(self)] *)
Definition update_policy_target (self : t) : M unit :=
  let tau := tau (args self) in
  source_params ← net_get_weights (policy self);
  target_params ← net_get_weights (policy_target self);
  new ← lift (polyak_params tau source_params target_params);
  net_set_weights (policy self) new.

(** The first loop of [apply_gradients], over [range(self.args.Q_num)] *)
Definition apply_Q_gradients (self : t) (grads : list (list F)) : M unit :=
  for_each (range (Q_num (args self))) (λ i,
    model ← lift (py_getitem (models self) i);
    weights ← net_trainable_weights model;
    let len_weights := Z.of_nat (length weights) in
    optimizer ← lift (py_getitem (optimizers self) i);
    optimizer_apply_gradients optimizer
      (zip (py_slice grads (i * len_weights) ((i + 1) * len_weights)) weights)).

(** The second loop, over [range(self.args.Q_num, len(self.models))], with
    its running [gradi_start] *)
Fixpoint apply_rest_gradients (self : t) (grads : list (list F))
    (indices : list Z) (gradi_start : Z) : M unit :=
  match indices with
  | [] => mret tt
  | i :: indices' =>
      model ← lift (py_getitem (models self) i);
      weights ← model_trainable_weights model;
      let gradi_end := (gradi_start + Z.of_nat (length weights))%Z in
      optimizer ← lift (py_getitem (optimizers self) i);
      _ ← optimizer_apply_gradients optimizer
            (zip (py_slice grads gradi_start gradi_end) weights);
      apply_rest_gradients self grads indices' gradi_end
  end.

(** [apply_gradients(self, iteration, grads)] *)
Definition apply_gradients (self : t) (iteration : Z) (grads : list (list F)) : M unit :=
  _ ← apply_Q_gradients self grads;
  r ← lift (py_mod iteration (delay_update (args self)));
  if (r =? 0)%Z then
    model0 ← lift (py_getitem (models self) 0);
    weights0 ← net_trainable_weights model0;
    let gradi_start := (Z.of_nat (length weights0) * Q_num (args self))%Z in
    _ ← apply_rest_gradients self grads
          (range2 (Q_num (args self)) (Z.of_nat (length (models self)))) gradi_start;
    _ ← update_policy_target self;
    update_Q_targets self
  else mret tt.

(** [get_log_alpha(self)] *)
Definition get_log_alpha (self : t) : log_alpha_field := log_alpha self.

(** [compute_Qs(self, obs, act)] *)
Definition compute_Qs (self : t) (obs act : list (list F)) : M (list (list (list F))) :=
  Q_inputs ← lift (tf_concat obs act);
  mapM (λ Q, net_call Q Q_inputs) (Qs self).

(** [compute_Q_targets(self, obs, act)] *)
Definition compute_Q_targets (self : t) (obs act : list (list F))
    : M (list (list (list F))) :=
  Q_inputs ← lift (tf_concat obs act);
  mapM (λ Q_target, net_call Q_target Q_inputs) (Q_targets self).
End Defs.
Arguments t F : clear implicits.
Arguments log_alpha_field F : clear implicits.
Arguments weights_entry F : clear implicits.

Section Forward.
Context {F : Type} `{Float F} `{Optimizer F} `{MLPNetModel F}.

(** [compute_logits(self, obs)] *)
Definition compute_logits (self : t F) (obs : list (list F)) : M (list (list F)) :=
  net_call (policy self) obs.

(** [compute_neglogp(self, obs, act)] *)
Definition compute_neglogp (self : t F) (obs act : list (list F)) : M (list F) :=
  logits ← net_call (policy self) obs;
  act_dist ← lift (GuassianDistribution.init logits);
  lift (GuassianDistribution.neglogp act_dist act).

(** [compute_action(self, obs)], given the draw of the sampler *)
Definition compute_action (self : t F) (obs normal : list (list F))
    : M (list (list F) * list F) :=
  logits ← net_call (policy self) obs;
  act_dist ← lift (GuassianDistribution.init logits);
  action ← lift (GuassianDistribution.sample act_dist normal);
  neglogp ← lift (GuassianDistribution.neglogp act_dist action);
  mret (action, neglogp).
End Forward.
End PolicyWithQs.

(** ** What a store holds for an ensemble *)

Section Views.
Context {F : Type} `{Arith F} `{Optimizer F} `{MLPNetModel F}.

(** The parameter values of the network at [l] *)
Definition weights_at (h : gmap loc obj) (l : loc) : option (list (list F)) :=
  match h !! l with
  | Some (Network _ ws) => Some ws
  | _ => None
  end.

(** The value of the scalar variable at [l] *)
Definition value_at (h : gmap loc obj) (l : loc) : option (list F) :=
  match h !! l with
  | Some (TfVariable _ x) => Some x
  | _ => None
  end.

(** What never changes of an object: its class, its name and the shapes of
    its parameters. *)
Inductive signature :=
  | SigNetwork (name : string) (shape : list nat)
  | SigVariable (name : string) (shape : nat)
  | SigOptimizer (name : option string).

#[global] Instance signature_eq_dec : EqDecision signature.
Proof. solve_decision. Defined.

Definition obj_signature (o : obj) : signature :=
  match o with
  | Network name ws => SigNetwork name (shapes ws)
  | TfVariable name x => SigVariable name (length x)
  | OptimizerObj name _ => SigOptimizer name
  end.

Definition signature_at (h : gmap loc obj) (l : loc) : option signature :=
  obj_signature <$> h !! l.

Definition same_signatures (h h' : gmap loc obj) : Prop :=
  ∀ l, signature_at h' l = signature_at h l.

Definition shapes_at (h : gmap loc obj) (l : loc) : option (list nat) :=
  match signature_at h l with
  | Some (SigNetwork _ shape) => Some shape
  | _ => None
  end.

(** [len(model.trainable_weights)] for the network at [l] *)
Definition count_at (h : gmap loc obj) (l : loc) : nat :=
  length (default [] (shapes_at h l)).

Definition is_optimizer_at (h : gmap loc obj) (l : loc) : bool :=
  match signature_at h l with
  | Some (SigOptimizer _) => true
  | _ => false
  end.

Definition is_variable_at (h : gmap loc obj) (l : loc) : bool :=
  match signature_at h l with
  | Some (SigVariable _ _) => true
  | _ => false
  end.

(** The [log_alpha] variable of an ensemble, when it has one *)
Definition alpha_locs (self : PolicyWithQs.t F) : list loc :=
  match PolicyWithQs.log_alpha self with
  | PolicyWithQs.LogAlphaVar l => [l]
  | PolicyWithQs.LogAlphaConst _ => []
  end.

(** The state [__init__] sets up and every method keeps: the groups are
    separate objects, [models] and [optimizers] list the optimized groups
    and their optimizers in the order Qs, policy, log_alpha, every target
    has the shapes of its source, and all Q groups have one parameter
    count. *)
Definition wf (self : PolicyWithQs.t F) (h : gmap loc obj) : Prop :=
  Q_num (PolicyWithQs.args self) = Z.of_nat (length (PolicyWithQs.Qs self)) ∧
  length (PolicyWithQs.Q_optimizers self) = length (PolicyWithQs.Qs self) ∧
  PolicyWithQs.models self =
    PolicyWithQs.Qs self ++ PolicyWithQs.policy self :: alpha_locs self ∧
  PolicyWithQs.optimizers self =
    PolicyWithQs.Q_optimizers self ++ PolicyWithQs.policy_optimizer self ::
      option_list (PolicyWithQs.log_alpha_optimizer self) ∧
  length (option_list (PolicyWithQs.log_alpha_optimizer self)) = length (alpha_locs self) ∧
  NoDup (PolicyWithQs.policy self :: PolicyWithQs.policy_target self ::
         PolicyWithQs.Qs self ++ PolicyWithQs.Q_targets self) ∧
  NoDup (PolicyWithQs.optimizers self) ∧
  Forall (λ o, is_optimizer_at h o = true) (PolicyWithQs.optimizers self) ∧
  Forall (λ l, is_variable_at h l = true) (alpha_locs self) ∧
  is_Some (shapes_at h (PolicyWithQs.policy self)) ∧
  shapes_at h (PolicyWithQs.policy_target self) = shapes_at h (PolicyWithQs.policy self) ∧
  Forall2 (λ q qt, is_Some (shapes_at h q) ∧ shapes_at h qt = shapes_at h q)
    (PolicyWithQs.Qs self) (PolicyWithQs.Q_targets self) ∧
  Forall (λ q, count_at h q =
               count_at h (default (PolicyWithQs.policy self) (head (PolicyWithQs.Qs self))))
    (PolicyWithQs.Qs self).

#[global] Instance wf_dec self h : Decision (wf self h).
Proof. unfold wf. apply _. Defined.

(** What [apply_gradients] of an optimizer in state [st] leaves in the
    variables [ws] of the network at [l], numbered from [k], for the
    gradients [gs]: [zip] pairs them from the front and stops at the shorter
    of the two. *)
Fixpoint apply_pairs (st : opt_state) (l : loc) (k : nat)
    (gs : list (list F)) (ws : list (list F)) : list (list F) :=
  match gs, ws with
  | g :: gs', w :: ws' => opt_step st (NetVar l k) g w :: apply_pairs st l (S k) gs' ws'
  | _, _ => ws
  end.

(** The object at [model] after the optimizer at [o] has applied the
    gradients [gs] to its variables *)
Definition optimized (h : gmap loc obj) (o model : loc) (gs : list (list F)) : option obj :=
  match h !! o, h !! model with
  | Some (OptimizerObj _ st), Some (Network name ws) =>
      Some (Network name (apply_pairs st model 0 gs ws))
  | Some (OptimizerObj _ st), Some (TfVariable name x) =>
      Some (TfVariable name
              match gs with
              | g :: _ => opt_step st (ScalarVar model) g x
              | [] => x
              end)
  | _, _ => None
  end.

(** [grads[i*len_weights:(i+1)*len_weights]], the slice the first loop of
    [apply_gradients] takes for a group of [len_weights] variables *)
Definition Q_slice (grads : list (list F)) (len_weights : nat) (i : nat) : list (list F) :=
  py_slice grads (Z.of_nat i * Z.of_nat len_weights) ((Z.of_nat i + 1) * Z.of_nat len_weights).

(** [len(self.models[0].trainable_weights) * self.args.Q_num], where the
    second loop of [apply_gradients] starts to slice *)
Definition gradi_start (self : PolicyWithQs.t F) (h : gmap loc obj) : Z :=
  (Z.of_nat (count_at h (default (PolicyWithQs.policy self) (head (PolicyWithQs.Qs self))))
   * Q_num (PolicyWithQs.args self))%Z.

(** The soft update of a whole parameter list, element by element *)
Definition blend_params (tau : F) (source target : list (list F)) : list (list F) :=
  zip_with (zip_with (blend tau)) source target.
End Views.

(** ** The real numbers as scalars *)

#[global] Instance R_Arith : Arith R := {|
  fzero := 0%R; fone := 1%R; fadd := Rplus; fsub := Rminus; fmul := Rmult
|}.

#[global] Instance R_Float : Float R := {|
  float_arith := R_Arith;
  fhalf := (1 / 2)%R;
  ftwo := 2%R;
  fpi := PI;
  fe := exp 1;
  fdiv := Rdiv;
  fexp := exp;
  flog := ln;
  fcast := INR;
  fisnan := λ _, false
|}.

(** The density at [x] of the normal distribution with independent
    components of means [mean] and standard deviations [std] *)
Fixpoint normal_density (mean std x : list R) : R :=
  match mean, std, x with
  | m :: mean', s :: std', y :: x' =>
      (/ (sqrt (2 * PI) * s) * exp (- ((y - m) ^ 2 / (2 * s ^ 2)))
       * normal_density mean' std' x')%R
  | _, _, _ => 1%R
  end.

(** 0.5 * sum(((x - mean) / std)^2) + 0.5 * D * ln(2 pi) + sum(log_std),
    with std = exp(log_std) and D the number of components *)
Definition gaussian_neglogp (mean logstd x : list R) : R :=
  (1 / 2 * fsum (zip_with (λ y ms, ((y - ms.1) / exp ms.2) ^ 2) x (zip mean logstd))
   + 1 / 2 * INR (length mean) * ln (2 * PI)
   + fsum logstd)%R.

(** One component of the divergence KL(N(m1, exp s1) || N(m2, exp s2)) *)
Definition gaussian_kl_term (m1 s1 m2 s2 : R) : R :=
  (s2 - s1 + (exp s1 * exp s1 + (m1 - m2) * (m1 - m2)) / (2 * (exp s2 * exp s2)) - 1 / 2)%R.

(** Two batches have one shape. *)
Definition same_shape {A B} (a : list (list A)) (b : list (list B)) : Prop :=
  Forall2 (λ r r', length r = length r') a b.

(** ** What get_weights hands out *)

Section Snapshots.
Context {F : Type} `{Arith F} `{Optimizer F} `{MLPNetModel F}.

(** The entry of [get_weights] for the model at [l]: the arrays of a
    network, and any other object as it is *)
Definition entry_at (h : gmap loc obj) (l : loc) : PolicyWithQs.weights_entry F :=
  match h !! l with
  | Some (Network _ ws) => PolicyWithQs.Arrays ws
  | _ => PolicyWithQs.Object l
  end.

Definition snapshot (self : PolicyWithQs.t F) (h : gmap loc obj)
    : list (PolicyWithQs.weights_entry F) :=
  entry_at h <$> PolicyWithQs.models self.

(** The variables of the model at [l], as [trainable_weights] lists them *)
Definition variables_at (h : gmap loc obj) (l : loc) : list varref :=
  match h !! l with
  | Some (Network _ ws) => NetVar l <$> seq 0 (length ws)
  | _ => [ScalarVar l]
  end.
End Snapshots.

(** ** A small ensemble to run the methods on *)

Module Example.

(** Rational scalars *)
#[global] Instance Q_Arith : Arith Q :=
  {| fzero := 0%Q; fone := 1%Q; fadd := Qplus; fsub := Qminus; fmul := Qmult |}.

(** Plain gradient descent at a constant rate, on the variables that come
    with a gradient *)
Fixpoint descend (rate : Q) (g w : list Q) {struct w} : list Q :=
  match w, g with
  | x :: w', y :: g' => (x - rate * y)%Q :: descend rate g' w'
  | _, _ => w
  end.

Fixpoint descend_length (rate : Q) (g w : list Q) {struct w} :
    length (descend rate g w) = length w :=
  match w as w0, g as g0 return length (descend rate g0 w0) = length w0 with
  | [], _ => eq_refl
  | _ :: _, [] => eq_refl
  | _ :: w', _ :: g' => f_equal S (descend_length rate g' w')
  end.

#[global] Instance Q_descent : Optimizer Q := {|
  opt_state := Q * nat;
  opt_new := λ schedule _, (default 0%Q (head schedule), 0);
  opt_step := λ st _ g w, descend st.1 g w;
  opt_next := λ st _, (st.1, S st.2);
  opt_step_length := λ st _ g w, descend_length st.1 g w
|}.

(** A network of one dense layer, a kernel and a bias, that starts from
    values that differ from name to name *)
Fixpoint name_code (name : string) : nat :=
  match name with
  | EmptyString => 0
  | String c name' => Ascii.nat_of_ascii c + name_code name'
  end.

#[global] Instance Q_MLP : MLPNetModel Q := {|
  mlp_shapes := λ i l u o, [Z.to_nat i * Z.to_nat o; Z.to_nat o];
  mlp_init := λ i l u o name k j, inject_Z (Z.of_nat (name_code name + 2 * k + j));
  mlp_call := λ ws x, Return x
|}.

Definition args0 : Args Q := {|
  obs_dim := None;
  act_dim := None;
  Q_num := 2;
  tau := (1 # 2)%Q;
  delay_update := 2;
  policy_lr_schedule := [(1 # 10)%Q; 100%Q; (1 # 100)%Q];
  value_lr_schedule := [(1 # 10)%Q; 100%Q; (1 # 100)%Q];
  log_alpha_lr_schedule := [(1 # 10)%Q; 100%Q; 0%Q];
  init_log_alpha := 0%Q;
  args_log_alpha := LogAlphaAuto
|}.

(** [PolicyWithQs(Box(1), Box(1), args0)] in an empty store *)
Definition built : pyres (PolicyWithQs.t Q) * gmap loc obj :=
  PolicyWithQs.init (Box [1%Z]) (Box [1%Z]) args0 ∅.

Definition self0 : PolicyWithQs.t Q := {|
  PolicyWithQs.args := args0;
  PolicyWithQs.policy := 0;
  PolicyWithQs.policy_target := 1;
  PolicyWithQs.policy_optimizer := 2;
  PolicyWithQs.Qs := [3; 4];
  PolicyWithQs.Q_targets := [5; 6];
  PolicyWithQs.Q_optimizers := [7; 8];
  PolicyWithQs.log_alpha := PolicyWithQs.LogAlphaVar 9;
  PolicyWithQs.log_alpha_optimizer := Some 10;
  PolicyWithQs.models := [3; 4; 0; 9];
  PolicyWithQs.optimizers := [7; 8; 2; 10]
|}.

Definition store0 : gmap loc obj := built.2.

(** Seven gradients, one for each trainable variable, and sequences that
    are too short and too long *)
Definition grads7 : list (list Q) :=
  [[10%Q; 10%Q]; [10%Q]; [20%Q; 20%Q]; [20%Q]; [30%Q; 30%Q]; [30%Q; 30%Q]; [40%Q]].
Definition grads3 : list (list Q) := take 3 grads7.
Definition grads9 : list (list Q) := grads7 ++ [[50%Q]; [60%Q]].

(** The store after some training, and the same store with other targets *)
Definition store1 : gmap loc obj := (PolicyWithQs.apply_gradients self0 2 grads7 store0).2.
Definition store2 : gmap loc obj := (PolicyWithQs.apply_gradients self0 3 grads7 store1).2.

(** The same ensemble with [delay_update] zero *)
Definition self_no_delay : PolicyWithQs.t Q := {|
  PolicyWithQs.args := {|
    obs_dim := None;
    act_dim := None;
    Q_num := 2;
    tau := (1 # 2)%Q;
    delay_update := 0;
    policy_lr_schedule := policy_lr_schedule args0;
    value_lr_schedule := value_lr_schedule args0;
    log_alpha_lr_schedule := log_alpha_lr_schedule args0;
    init_log_alpha := 0%Q;
    args_log_alpha := LogAlphaAuto
  |};
  PolicyWithQs.policy := 0;
  PolicyWithQs.policy_target := 1;
  PolicyWithQs.policy_optimizer := 2;
  PolicyWithQs.Qs := [3; 4];
  PolicyWithQs.Q_targets := [5; 6];
  PolicyWithQs.Q_optimizers := [7; 8];
  PolicyWithQs.log_alpha := PolicyWithQs.LogAlphaVar 9;
  PolicyWithQs.log_alpha_optimizer := Some 10;
  PolicyWithQs.models := [3; 4; 0; 9];
  PolicyWithQs.optimizers := [7; 8; 2; 10]
|}.

(** Real scalars, with the same descent and a network that hands its input
    on *)
Fixpoint R_descend (rate : R) (g w : list R) {struct w} : list R :=
  match w, g with
  | x :: w', y :: g' => (x - rate * y)%R :: R_descend rate g' w'
  | _, _ => w
  end.

Fixpoint R_descend_length (rate : R) (g w : list R) {struct w} :
    length (R_descend rate g w) = length w :=
  match w as w0, g as g0 return length (R_descend rate g0 w0) = length w0 with
  | [], _ => eq_refl
  | _ :: _, [] => eq_refl
  | _ :: w', _ :: g' => f_equal S (R_descend_length rate g' w')
  end.

#[global] Instance R_descent : Optimizer R := {|
  opt_state := R * nat;
  opt_new := λ schedule _, (default 0%R (head schedule), 0);
  opt_step := λ st _ g w, R_descend st.1 g w;
  opt_next := λ st _, (st.1, S st.2);
  opt_step_length := λ st _ g w, R_descend_length st.1 g w
|}.

#[global] Instance R_MLP : MLPNetModel R := {|
  mlp_shapes := λ i l u o, [Z.to_nat i * Z.to_nat o; Z.to_nat o];
  mlp_init := λ i l u o name k j, INR (name_code name + 2 * k + j);
  mlp_call := λ ws x, Return x
|}.

Definition args_R : Args R := {|
  obs_dim := None;
  act_dim := None;
  Q_num := 0;
  tau := (1 / 2)%R;
  delay_update := 1;
  policy_lr_schedule := [1%R];
  value_lr_schedule := [1%R];
  log_alpha_lr_schedule := [1%R];
  init_log_alpha := 0%R;
  args_log_alpha := LogAlphaValue 0%R
|}.

(** A policy with its target and optimizer, and a value network with its
    optimizer *)
Definition store_R : gmap loc obj :=
  <[4 := OptimizerObj None (1%R, 0)]>
    (<[3 := Network "value" [[1%R; 1%R]; [0%R]]]>
       (<[2 := OptimizerObj (Some "policy_adam_opt") (1%R, 0)]>
          (<[1 := Network "policy_target" [[3%R; 4%R]; [0%R]]]>
             (<[0 := Network "policy" [[1%R; 2%R]; [0%R]]]> ∅)))).

Definition policy_R : PolicyWithQs.t R := {|
  PolicyWithQs.args := args_R;
  PolicyWithQs.policy := 0;
  PolicyWithQs.policy_target := 1;
  PolicyWithQs.policy_optimizer := 2;
  PolicyWithQs.Qs := [];
  PolicyWithQs.Q_targets := [];
  PolicyWithQs.Q_optimizers := [];
  PolicyWithQs.log_alpha := PolicyWithQs.LogAlphaConst 0%R;
  PolicyWithQs.log_alpha_optimizer := None;
  PolicyWithQs.models := [0];
  PolicyWithQs.optimizers := [2]
|}.

Definition value_R : PolicyWithValue.t R := {|
  PolicyWithValue.args := args_R;
  PolicyWithValue.act_dist_cls := Gaussian_ActDist;
  PolicyWithValue.policy := 0;
  PolicyWithValue.value := 3;
  PolicyWithValue.models := [0; 3];
  PolicyWithValue.optimizers := [2; 4]
|}.
End Example.

(** * Proofs *)

(** ** Running computations *)

Section Running.
Context {F : Type} `{Arith F} `{Optimizer F} `{MLPNetModel F}.

Lemma run_bind {A B} (m : M A) (k : A → M B) h a h1 :
  m h = (Return a, h1) → (m ≫= k) h = k a h1.
Proof. intros Hm. unfold mbind, M_bind. by rewrite Hm. Qed.

Lemma run_bind_raise {A B} (m : M A) (k : A → M B) h e h1 :
  m h = (Raise e, h1) → (m ≫= k) h = (Raise e, h1).
Proof. intros Hm. unfold mbind, M_bind. by rewrite Hm. Qed.

Lemma run_deref h l o : h !! l = Some o → deref l h = (Return o, h).
Proof. intros Hl. unfold deref. by rewrite Hl. Qed.

Lemma run_net_get_weights h l name ws :
  h !! l = Some (Network name ws) → net_get_weights l h = (Return ws, h).
Proof.
  intros Hl. unfold net_get_weights.
  by rewrite (run_bind _ _ _ _ _ (run_deref _ _ _ Hl)).
Qed.

Lemma run_net_trainable_weights h l name ws :
  h !! l = Some (Network name ws) →
  net_trainable_weights l h = (Return (NetVar l <$> seq 0 (length ws)), h).
Proof.
  intros Hl. unfold net_trainable_weights.
  by rewrite (run_bind _ _ _ _ _ (run_deref _ _ _ Hl)).
Qed.

Lemma run_net_set_weights h l name ws values :
  h !! l = Some (Network name ws) → shapes values = shapes ws →
  net_set_weights l values h = (Return tt, <[l := Network name values]> h).
Proof.
  intros Hl Hs. unfold net_set_weights.
  rewrite (run_bind _ _ _ _ _ (run_deref _ _ _ Hl)).
  by rewrite decide_True.
Qed.

(** A loop that cannot raise runs to its end, and keeps an invariant that
    counts the rounds done. *)
Lemma run_for_each {A} (I : nat → gmap loc obj → Prop) (l : list A) (body : A → M unit) h :
  I 0 h →
  (∀ k x h1, l !! k = Some x → I k h1 → ∃ h2, body x h1 = (Return tt, h2) ∧ I (S k) h2) →
  ∃ h', for_each l body h = (Return tt, h') ∧ I (length l) h'.
Proof.
  revert I h. induction l as [|x l IH]; intros I h Hinit Hstep.
  - by exists h.
  - destruct (Hstep 0 x h eq_refl Hinit) as (h2 & Hx & Hnext).
    destruct (IH (λ k, I (S k)) h2 Hnext) as (h' & Hrun & Hend).
    { intros k y h1 Hk. apply (Hstep (S k) y h1 Hk). }
    exists h'. split; [|done].
    simpl. by rewrite (run_bind _ _ _ _ _ Hx).
Qed.
End Running.

(** ** One optimizer call *)

Section OptimizerRuns.
Context {F : Type} `{Arith F} `{Optimizer F} `{MLPNetModel F}.

Lemma run_assign_loop (st : opt_state) q name gs : ∀ ws pre h,
  h !! q = Some (Network name (pre ++ ws)) →
  for_each (zip gs (NetVar q <$> seq (length pre) (length ws)))
    (λ gv, w ← read_var gv.2; assign_var gv.2 (opt_step st gv.2 gv.1 w)) h
  = (Return tt, <[q := Network name (pre ++ apply_pairs st q (length pre) gs ws)]> h).
Proof.
  induction gs as [|g gs IH]; intros ws pre h Hq.
  { simpl. by rewrite insert_id. }
  destruct ws as [|w ws].
  { simpl. by rewrite insert_id. }
  cbn [length seq fmap list_fmap zip zip_with for_each apply_pairs].
  set (new := opt_step st (NetVar q (length pre)) g w).
  assert (Hw : (pre ++ w :: ws) !! length pre = Some w) by apply list_lookup_middle, eq_refl.
  assert (Hread : read_var (NetVar q (length pre)) h = (Return w, h)).
  { unfold read_var. rewrite (run_bind _ _ _ _ _ (run_net_get_weights _ _ _ _ Hq)).
    by rewrite Hw. }
  assert (Hassign : assign_var (NetVar q (length pre)) new h
                    = (Return tt, <[q := Network name ((pre ++ [new]) ++ ws)]> h)).
  { unfold assign_var. rewrite (run_bind _ _ _ _ _ (run_deref _ _ _ Hq)).
    rewrite Hw. rewrite decide_True by apply opt_step_length.
    unfold store. do 3 f_equal.
    rewrite <- (Nat.add_0_r (length pre)) at 1.
    by rewrite insert_app_r, <- app_assoc. }
  erewrite run_bind; last first.
  { cbn [snd fst]. erewrite run_bind by exact Hread. exact Hassign. }
  specialize (IH ws (pre ++ [new]) (<[q := Network name ((pre ++ [new]) ++ ws)]> h)).
  rewrite length_app, Nat.add_1_r in IH.
  rewrite IH by apply lookup_insert_eq.
  by rewrite insert_insert_eq, <- app_assoc.
Qed.

Lemma run_optimizer_network h o q nm st name ws gs :
  h !! o = Some (OptimizerObj nm st) →
  h !! q = Some (Network name ws) →
  optimizer_apply_gradients o (zip gs (NetVar q <$> seq 0 (length ws))) h
  = (Return tt,
     <[o := OptimizerObj nm (opt_next st (zip gs (NetVar q <$> seq 0 (length ws))))]>
       (<[q := Network name (apply_pairs st q 0 gs ws)]> h)).
Proof.
  intros Ho Hq. unfold optimizer_apply_gradients.
  rewrite (run_bind _ _ _ _ _ (run_deref _ _ _ Ho)).
  by rewrite (run_bind _ _ _ _ _ (run_assign_loop st q name gs ws [] h Hq)).
Qed.

Lemma run_read_scalar h l name x :
  h !! l = Some (TfVariable name x) → read_var (ScalarVar l) h = (Return x, h).
Proof.
  intros Hl. unfold read_var. by rewrite (run_bind _ _ _ _ _ (run_deref _ _ _ Hl)).
Qed.

Lemma run_assign_scalar h l name x y :
  h !! l = Some (TfVariable name x) → length y = length x →
  assign_var (ScalarVar l) y h = (Return tt, <[l := TfVariable name y]> h).
Proof.
  intros Hl Hlen. unfold assign_var.
  rewrite (run_bind _ _ _ _ _ (run_deref _ _ _ Hl)). by rewrite decide_True.
Qed.

Lemma run_optimizer_variable h o l nm st name x gs :
  h !! o = Some (OptimizerObj nm st) →
  h !! l = Some (TfVariable name x) →
  optimizer_apply_gradients o (zip gs [ScalarVar l]) h
  = (Return tt,
     <[o := OptimizerObj nm (opt_next st (zip gs [ScalarVar l]))]>
       (<[l := TfVariable name
                 match gs with g :: _ => opt_step st (ScalarVar l) g x | [] => x end]> h)).
Proof.
  intros Ho Hl. unfold optimizer_apply_gradients.
  rewrite (run_bind _ _ _ _ _ (run_deref _ _ _ Ho)).
  destruct gs as [|g gs].
  { simpl. by rewrite (insert_id _ _ _ Hl). }
  assert (Hzip : zip (g :: gs) [ScalarVar l] = [(g, ScalarVar l)]) by by destruct gs.
  rewrite Hzip. cbn [for_each].
  erewrite run_bind; [reflexivity|].
  erewrite run_bind; [reflexivity|].
  cbn [fst snd].
  erewrite run_bind by (eapply run_read_scalar, Hl).
  eapply run_assign_scalar; [exact Hl|apply opt_step_length].
Qed.
End OptimizerRuns.

(** ** Python sequences *)

Lemma py_getitem_nat {A} (l : list A) k x :
  l !! k = Some x → py_getitem l (Z.of_nat k) = Return x.
Proof.
  intros Hk. unfold py_getitem.
  destruct (Z.ltb_spec (Z.of_nat k) 0) as [?|_]; [lia|].
  destruct (Z.ltb_spec (Z.of_nat k) 0) as [?|_]; [lia|].
  by rewrite Nat2Z.id, Hk.
Qed.

Lemma slice_bound_nat len i : slice_bound (Z.of_nat len) (Z.of_nat i) = i `min` len.
Proof.
  unfold slice_bound.
  destruct (Z.ltb_spec (Z.of_nat i) 0) as [?|_]; lia.
Qed.

(** A slice between two indices that are not negative *)
Lemma py_slice_nat {A} (l : list A) a b :
  py_slice l (Z.of_nat a) (Z.of_nat b) = take (b - a) (drop a l).
Proof.
  unfold py_slice. rewrite !slice_bound_nat.
  destruct (decide (a ≤ length l)) as [Ha|Ha].
  - rewrite (Nat.min_l a) by done.
    destruct (decide (b ≤ length l)) as [Hb|Hb].
    + by rewrite (Nat.min_l b).
    + rewrite (Nat.min_r b) by lia.
      rewrite !take_ge; [done|rewrite length_drop; lia..].
  - rewrite (Nat.min_r a) by lia.
    rewrite !drop_ge by lia. by rewrite !take_nil.
Qed.

Lemma lookup_range n k x : range n !! k = Some x ↔ x = Z.of_nat k ∧ (Z.of_nat k < n)%Z.
Proof. unfold range. rewrite lookup_seqZ. intuition lia. Qed.

Section Signatures.
Context {F : Type} `{Arith F} `{Optimizer F} `{MLPNetModel F}.

Lemma shapes_at_Some h l s :
  shapes_at h l = Some s → ∃ name ws, h !! l = Some (Network name ws) ∧ shapes ws = s.
Proof.
  unfold shapes_at, signature_at. destruct (h !! l) as [[name ws| |]|]; simpl; try done.
  intros [= <-]. eauto.
Qed.

Lemma shapes_at_network h l name ws :
  h !! l = Some (Network name ws) → shapes_at h l = Some (shapes ws).
Proof. intros Hl. unfold shapes_at, signature_at. by rewrite Hl. Qed.

Lemma count_at_network h l name ws :
  h !! l = Some (Network name ws) → count_at h l = length ws.
Proof.
  intros Hl. unfold count_at. rewrite (shapes_at_network _ _ _ _ Hl). simpl.
  unfold shapes. by rewrite length_fmap.
Qed.

Lemma is_optimizer_at_true h o :
  is_optimizer_at h o = true → ∃ nm st, h !! o = Some (OptimizerObj nm st).
Proof.
  unfold is_optimizer_at, signature_at. destruct (h !! o) as [[| |nm st]|]; simpl; try done.
  eauto.
Qed.

Lemma is_variable_at_true h l :
  is_variable_at h l = true → ∃ name x, h !! l = Some (TfVariable name x).
Proof.
  unfold is_variable_at, signature_at. destruct (h !! l) as [[|name x|]|]; simpl; try done.
  eauto.
Qed.

Lemma weights_at_Some h l ws :
  weights_at h l = Some ws ↔ ∃ name, h !! l = Some (Network name ws).
Proof.
  unfold weights_at. destruct (h !! l) as [[name ws'| |]|]; split; try done.
  - intros [= <-]. eauto.
  - by intros [? [= _ <-]].
  - by intros [? ?].
  - by intros [? ?].
  - by intros [? ?].
Qed.

Lemma same_signatures_refl h : same_signatures h h.
Proof. done. Qed.

Lemma same_signatures_trans h1 h2 h3 :
  same_signatures h1 h2 → same_signatures h2 h3 → same_signatures h1 h3.
Proof. intros H12 H23 l. by rewrite H23. Qed.

Lemma same_signatures_insert h l o o' :
  h !! l = Some o → obj_signature o' = obj_signature o →
  same_signatures h (<[l := o']> h).
Proof.
  intros Hl Hsig l'. unfold signature_at.
  destruct (decide (l = l')) as [<-|Hne].
  - by rewrite lookup_insert_eq, Hl; simpl; rewrite Hsig.
  - by rewrite lookup_insert_ne.
Qed.

Lemma same_signatures_shapes h h' l :
  same_signatures h h' → shapes_at h' l = shapes_at h l.
Proof. intros Hs. unfold shapes_at. by rewrite Hs. Qed.

Lemma same_signatures_count h h' l :
  same_signatures h h' → count_at h' l = count_at h l.
Proof. intros Hs. unfold count_at. by rewrite (same_signatures_shapes _ _ _ Hs). Qed.

(** Well-formedness looks at signatures only. *)
Lemma wf_same_signatures self h h' : same_signatures h h' → wf self h → wf self h'.
Proof.
  intros Hs (HQn & Hol & Hmodels & Hopts & Hal & Hnd & Hndo & Hoks & Hvars & Hp & Hpt & HQ & Hcount).
  unfold wf. repeat split; try done.
  - eapply Forall_impl; [exact Hoks|]. intros o. unfold is_optimizer_at. by rewrite Hs.
  - eapply Forall_impl; [exact Hvars|]. intros o. unfold is_variable_at. by rewrite Hs.
  - by rewrite (same_signatures_shapes _ _ _ Hs).
  - by rewrite !(same_signatures_shapes _ _ _ Hs).
  - eapply Forall2_impl; [exact HQ|]. intros q qt. by rewrite !(same_signatures_shapes _ _ _ Hs).
  - eapply Forall_impl; [exact Hcount|]. intros q. by rewrite !(same_signatures_count _ _ _ Hs).
Qed.

Lemma apply_pairs_shapes st l gs : ∀ k ws, shapes (apply_pairs st l k gs ws) = shapes ws.
Proof.
  induction gs as [|g gs IH]; intros k [|w ws]; try done.
  simpl. unfold shapes in *. simpl. by rewrite opt_step_length, IH.
Qed.

Lemma optimized_signature h o m gs ob ob' :
  h !! m = Some ob → optimized h o m gs = Some ob' → obj_signature ob' = obj_signature ob.
Proof.
  intros Hm. unfold optimized. rewrite Hm.
  destruct (h !! o) as [[| |nm st]|]; try done.
  destruct ob as [name ws|name x|]; try done; intros [= <-]; simpl.
  - by rewrite apply_pairs_shapes.
  - destruct gs; [done|]. by rewrite opt_step_length.
Qed.
End Signatures.

(** ** The first loop of apply_gradients *)

Section Dispatch.
Context {F : Type} `{Arith F} `{Optimizer F} `{MLPNetModel F}.

(** One round of either loop of [apply_gradients]: the optimizer [o] applied
    to the variables of the model [m]. *)
Lemma run_model_trainable_weights h m ob :
  h !! m = Some ob → (∀ nm st, ob ≠ OptimizerObj nm st) →
  ∃ weights, PolicyWithQs.model_trainable_weights m h = (Return weights, h) ∧
    (∀ name ws, ob = Network name ws →
       net_trainable_weights m h = (Return weights, h) ∧ length weights = length ws) ∧
    ∀ o nm st gs, h !! o = Some (OptimizerObj nm st) →
      ∃ ob', optimized h o m gs = Some ob' ∧
        optimizer_apply_gradients o (zip gs weights) h
        = (Return tt, <[o := OptimizerObj nm (opt_next st (zip gs weights))]> (<[m := ob']> h)).
Proof.
  intros Hm Hkind. unfold PolicyWithQs.model_trainable_weights.
  rewrite (run_bind _ _ _ _ _ (run_deref _ _ _ Hm)).
  destruct ob as [name ws|name x|nm st]; simpl.
  - exists (NetVar m <$> seq 0 (length ws)). split; [by eapply run_net_trainable_weights|].
    split.
    + intros ? ? [= <- <-]. split; [by eapply run_net_trainable_weights|].
      by rewrite length_fmap, length_seq.
    + intros o nm st gs Ho. eexists. split.
      * unfold optimized. by rewrite Ho, Hm.
      * by eapply run_optimizer_network.
  - exists [ScalarVar m]. split; [done|]. split; [done|].
    intros o nm st gs Ho. eexists. split.
    + unfold optimized. by rewrite Ho, Hm.
    + by eapply run_optimizer_variable.
  - by destruct (Hkind nm st).
Qed.

(** What one such round leaves in the store *)
Lemma dispatch_effect h o m nm st st' ob ob' gs :
  h !! o = Some (OptimizerObj nm st) → h !! m = Some ob →
  optimized h o m gs = Some ob' →
  let h' := <[o := OptimizerObj nm st']> (<[m := ob']> h) in
  same_signatures h h' ∧ h' !! m = Some ob' ∧ (∀ l, l ≠ o → l ≠ m → h' !! l = h !! l) ∧
  ∃ st'', h' !! o = Some (OptimizerObj nm st'').
Proof.
  intros Ho Hm Hopt h'.
  assert (Hne : o ≠ m).
  { intros ->. rewrite Ho in Hm. injection Hm as <-.
    unfold optimized in Hopt. by rewrite Ho in Hopt. }
  repeat split.
  - eapply same_signatures_trans.
    + eapply same_signatures_insert; [exact Hm|]. by eapply optimized_signature.
    + eapply same_signatures_insert; [by rewrite lookup_insert_ne|done].
  - unfold h'. by rewrite lookup_insert_ne, lookup_insert_eq.
  - intros l Hlo Hlm. unfold h'. by rewrite !lookup_insert_ne.
  - exists st'. unfold h'. by rewrite lookup_insert_eq.
Qed.

Lemma wf_Q_lookup self h i q :
  wf self h → PolicyWithQs.Qs self !! i = Some q →
  ∃ name ws o nm st,
    h !! q = Some (Network name ws) ∧ PolicyWithQs.models self !! i = Some q ∧
    PolicyWithQs.Q_optimizers self !! i = Some o ∧
    PolicyWithQs.optimizers self !! i = Some o ∧ h !! o = Some (OptimizerObj nm st).
Proof.
  intros (HQn & Hol & Hmodels & Hopts & Hal & Hnd & Hndo & Hoks & Hvars & Hp & Hpt & HQ & Hcount) Hq.
  destruct (Forall2_lookup_l _ _ _ _ _ HQ Hq) as (qt & _ & [s Hs] & _).
  destruct (shapes_at_Some _ _ _ Hs) as (name & ws & Hhq & _).
  destruct (lookup_lt_is_Some_2 (PolicyWithQs.Q_optimizers self) i) as [o Ho].
  { rewrite Hol. by eapply lookup_lt_Some. }
  assert (Hoi : PolicyWithQs.optimizers self !! i = Some o).
  { rewrite Hopts. by apply lookup_app_l_Some. }
  destruct (is_optimizer_at_true h o) as (nm & st & Hho).
  { by eapply (Forall_lookup_1 _ _ _ _ Hoks). }
  exists name, ws, o, nm, st. repeat split; try done.
  rewrite Hmodels. by apply lookup_app_l_Some.
Qed.

Lemma wf_NoDup_Qs self h : wf self h → NoDup (PolicyWithQs.Qs self).
Proof.
  intros (_ & _ & _ & _ & _ & Hnd & _).
  apply NoDup_cons_1_2, NoDup_cons_1_2 in Hnd. by apply NoDup_app in Hnd as [? _].
Qed.

Lemma wf_NoDup_Q_optimizers self h : wf self h → NoDup (PolicyWithQs.Q_optimizers self).
Proof.
  intros (_ & _ & _ & Hopts & _ & _ & Hndo & _).
  rewrite Hopts in Hndo. by apply NoDup_app in Hndo as [? _].
Qed.

Lemma Q_not_optimizer self h q o :
  wf self h → q ∈ PolicyWithQs.Qs self → o ∈ PolicyWithQs.Q_optimizers self → q ≠ o.
Proof.
  intros Hwf [i Hq]%list_elem_of_lookup [j Ho]%list_elem_of_lookup ->.
  destruct (wf_Q_lookup _ _ _ _ Hwf Hq) as (name & ws & _ & _ & _ & Hhq & _).
  destruct (lookup_lt_is_Some_2 (PolicyWithQs.Qs self) j) as [q' Hq'].
  { destruct Hwf as (_ & Hol & _). rewrite <- Hol. by eapply lookup_lt_Some. }
  destruct (wf_Q_lookup _ _ _ _ Hwf Hq') as (? & ? & o' & nm & st & _ & _ & Ho' & _ & Hho).
  congruence.
Qed.

Lemma run_apply_Q_gradients self grads h :
  wf self h →
  ∃ h1, PolicyWithQs.apply_Q_gradients self grads h = (Return tt, h1) ∧
    same_signatures h h1 ∧
    (∀ l, l ∉ PolicyWithQs.Qs self → l ∉ PolicyWithQs.Q_optimizers self → h1 !! l = h !! l) ∧
    (∀ i q o, PolicyWithQs.Qs self !! i = Some q →
       PolicyWithQs.Q_optimizers self !! i = Some o →
       h1 !! q = optimized h o q (Q_slice grads (count_at h q) i)).
Proof.
  intros Hwf.
  pose (I := λ (k : nat) (h1 : gmap loc obj),
    same_signatures h h1 ∧
    (∀ l, l ∉ take k (PolicyWithQs.Qs self) → l ∉ take k (PolicyWithQs.Q_optimizers self) →
       h1 !! l = h !! l) ∧
    (∀ i q o, i < k → PolicyWithQs.Qs self !! i = Some q →
       PolicyWithQs.Q_optimizers self !! i = Some o →
       h1 !! q = optimized h o q (Q_slice grads (count_at h q) i))).
  assert (Hlen : length (range (Q_num (PolicyWithQs.args self))) = length (PolicyWithQs.Qs self)).
  { destruct Hwf as (-> & _). unfold range. rewrite length_seqZ. lia. }
  destruct (run_for_each I (range (Q_num (PolicyWithQs.args self)))
              (λ i, model ← lift (py_getitem (PolicyWithQs.models self) i);
                    weights ← net_trainable_weights model;
                    optimizer ← lift (py_getitem (PolicyWithQs.optimizers self) i);
                    optimizer_apply_gradients optimizer
                      (zip (py_slice grads (i * Z.of_nat (length weights))
                              ((i + 1) * Z.of_nat (length weights))) weights)) h)
    as (h1 & Hrun & Hs & Hframe & Hvals).
  - split; [done|]. split; [done|]. intros; lia.
  - intros k x h1 [-> Hk]%lookup_range (Hs & Hframe & Hvals).
    destruct (lookup_lt_is_Some_2 (PolicyWithQs.Qs self) k) as [q Hq].
    { destruct Hwf as (HQn & _). lia. }
    destruct (wf_Q_lookup _ _ _ _ Hwf Hq) as (name & ws & o & nm & st & Hhq & Hmq & Hqo & Ho & Hho).
    assert (Hq_in : q ∈ PolicyWithQs.Qs self) by by eapply list_elem_of_lookup_2.
    assert (Ho_in : o ∈ PolicyWithQs.Q_optimizers self) by by eapply list_elem_of_lookup_2.
    assert (Hq1 : h1 !! q = Some (Network name ws)).
    { rewrite Hframe; [done| |].
      - intros (j & Hj & Hjk)%elem_of_take.
        pose proof (NoDup_lookup _ _ _ _ (wf_NoDup_Qs _ _ Hwf) Hj Hq). lia.
      - intros Hin%elem_of_take. destruct Hin as (j & Hj & _).
        eapply (Q_not_optimizer self h q q); [done..| |done].
        by eapply list_elem_of_lookup_2. }
    assert (Ho1 : h1 !! o = Some (OptimizerObj nm st)).
    { rewrite Hframe; [done| |].
      - intros (j & Hj & _)%elem_of_take.
        eapply (Q_not_optimizer self h o o); [done| |done..].
        by eapply list_elem_of_lookup_2.
      - intros (j & Hj & Hjk)%elem_of_take.
        pose proof (NoDup_lookup _ _ _ _ (wf_NoDup_Q_optimizers _ _ Hwf) Hj Hqo). lia. }
    destruct (run_model_trainable_weights h1 q _ Hq1) as (weights & _ & Hnet & Happly); [done|].
    destruct (Hnet _ _ eq_refl) as [Htw Hlw].
    destruct (Happly o nm st (Q_slice grads (length ws) k) Ho1) as (ob' & Hob' & Hrunopt).
    eexists. split.
    { erewrite run_bind by (unfold lift; by rewrite (py_getitem_nat _ _ _ Hmq)).
      erewrite run_bind by exact Htw.
      erewrite run_bind by (unfold lift; by rewrite (py_getitem_nat _ _ _ Ho)).
      rewrite Hlw. exact Hrunopt. }
    destruct (dispatch_effect h1 o q nm st
                (opt_next st (zip (Q_slice grads (length ws) k) weights)) _ ob' _ Ho1 Hq1 Hob')
      as (Hs' & Hq' & Hframe' & _).
    assert (Hsame : optimized h1 o q (Q_slice grads (length ws) k)
                    = optimized h o q (Q_slice grads (count_at h q) k)).
    { unfold optimized. rewrite Ho1, Hq1, Hho, Hhq. by rewrite (count_at_network _ _ _ _ Hhq). }
    repeat split.
    + by eapply same_signatures_trans.
    + intros l Hl Hlo.
      rewrite (take_S_r _ _ _ Hq) in Hl. rewrite (take_S_r _ _ _ Hqo) in Hlo.
      rewrite Hframe'; [apply Hframe| |]; set_solver.
    + intros i q' o' Hi Hq'i Ho'i.
      destruct (decide (i = k)) as [->|Hne].
      * assert (q' = q) as -> by congruence. assert (o' = o) as -> by congruence.
        by rewrite Hq', <- Hob', Hsame.
      * rewrite Hframe'.
        -- apply Hvals; [lia|done..].
        -- intros ->. eapply (Q_not_optimizer self h o o); [done| |done..].
           by eapply list_elem_of_lookup_2.
        -- intros ->. pose proof (NoDup_lookup _ _ _ _ (wf_NoDup_Qs _ _ Hwf) Hq'i Hq). lia.
  - exists h1. split; [exact Hrun|]. split; [done|]. split.
    + intros l Hl Hlo. apply Hframe.
      * rewrite Hlen, take_ge by lia. done.
      * rewrite Hlen. destruct Hwf as (_ & <- & _). by rewrite take_ge by lia.
    + intros i q o Hq Ho. apply Hvals; [|done..].
      rewrite Hlen. by eapply lookup_lt_Some.
Qed.
End Dispatch.

(** ** Soft updates *)

Lemma mapM_Return {A B} (f : A → pyres B) (g : A → B) (l : list A) :
  (∀ x, x ∈ l → f x = Return (g x)) → mapM f l = Return (g <$> l).
Proof.
  induction l as [|x l IH]; intros Hf; [done|].
  simpl. rewrite Hf by left. simpl. rewrite IH; [done|].
  intros y Hy. apply Hf. by right.
Qed.

Lemma broadcast_same_length {A B C} err (g : A → B → C) (xs : list A) (ys : list B) :
  length xs = length ys →
  broadcast err (λ x y, Return (g x y)) xs ys = Return (zip_with g xs ys).
Proof.
  intros Hlen. unfold broadcast. rewrite decide_True by done.
  rewrite (mapM_Return _ (λ p, g p.1 p.2)) by done.
  f_equal. clear Hlen. revert ys.
  induction xs as [|x xs IH]; intros [|y ys]; simpl; try done. by rewrite IH.
Qed.

Section SoftUpdate.
Context {F : Type} `{Arith F}.

Lemma polyak_blend (tau : F) (s t : list F) :
  length s = length t → polyak tau s t = Return (zip_with (blend tau) s t).
Proof.
  intros Hlen. unfold polyak, np_add, np_scale.
  rewrite broadcast_same_length by by rewrite !length_fmap.
  f_equal. by rewrite zip_with_fmap_l, zip_with_fmap_r.
Qed.

Lemma polyak_params_blend (tau : F) : ∀ ss ts : list (list F),
  shapes ss = shapes ts → polyak_params tau ss ts = Return (blend_params tau ss ts).
Proof.
  unfold polyak_params, blend_params, shapes.
  induction ss as [|s ss IH]; intros [|t ts] Hs; try done.
  injection Hs as Hlen Hs. cbn [zip zip_with mapM fst snd].
  rewrite polyak_blend by done. simpl. by rewrite (IH ts Hs).
Qed.

Lemma blend_params_shapes (tau : F) : ∀ ss ts : list (list F),
  shapes ss = shapes ts → shapes (blend_params tau ss ts) = shapes ts.
Proof.
  unfold blend_params, shapes.
  induction ss as [|s ss IH]; intros [|t ts] Hs; try done.
  injection Hs as Hlen Hs. cbn [zip_with fmap list_fmap].
  f_equal; [rewrite length_zip_with; lia|]. exact (IH ts Hs).
Qed.

(** The soft update acts on every element of every parameter. *)
Lemma blend_params_lookup (tau : F) (ss ts : list (list F)) k j s t x y :
  ss !! k = Some s → ts !! k = Some t → s !! j = Some x → t !! j = Some y →
  ∃ r, blend_params tau ss ts !! k = Some r ∧
       r !! j = Some (fadd (fmul tau x) (fmul (fsub fone tau) y)).
Proof.
  intros Hs Ht Hx Hy. exists (zip_with (blend tau) s t). split.
  - unfold blend_params. rewrite lookup_zip_with, Hs. simpl. by rewrite Ht.
  - rewrite lookup_zip_with, Hx. simpl. by rewrite Hy.
Qed.
End SoftUpdate.

Section SoftUpdateRuns.
Context {F : Type} `{Arith F} `{Optimizer F} `{MLPNetModel F}.

(** The body of both soft updates: the parameters of [dst] become the blend
    of those of [src] with those of [tgt]. *)
Lemma run_soft_update (tau : F) h src tgt dst sname ss tname ts dname ds :
  h !! src = Some (Network sname ss) → h !! tgt = Some (Network tname ts) →
  h !! dst = Some (Network dname ds) →
  shapes ss = shapes ts → shapes ds = shapes ts →
  (source_params ← net_get_weights src;
   target_params ← net_get_weights tgt;
   new ← lift (polyak_params tau source_params target_params);
   net_set_weights dst new) h
  = (Return tt, <[dst := Network dname (blend_params tau ss ts)]> h).
Proof.
  intros Hsrc Htgt Hdst Hst Hdt.
  erewrite run_bind by by eapply run_net_get_weights.
  erewrite run_bind by by eapply run_net_get_weights.
  erewrite run_bind by (unfold lift; by rewrite polyak_params_blend).
  eapply run_net_set_weights; [done|].
  rewrite blend_params_shapes by done. done.
Qed.

Lemma wf_policy_lookup self h :
  wf self h →
  ∃ pname ps tname ts,
    h !! PolicyWithQs.policy self = Some (Network pname ps) ∧
    h !! PolicyWithQs.policy_target self = Some (Network tname ts) ∧
    shapes ps = shapes ts ∧ PolicyWithQs.policy self ≠ PolicyWithQs.policy_target self.
Proof.
  intros (HQn & Hol & Hmodels & Hopts & Hal & Hnd & Hndo & Hoks & Hvars & [s Hp] & Hpt & HQ & Hcount).
  rewrite Hp in Hpt.
  destruct (shapes_at_Some _ _ _ Hp) as (pname & ps & Hhp & Hps).
  destruct (shapes_at_Some _ _ _ Hpt) as (tname & ts & Hht & Hts).
  exists pname, ps, tname, ts. repeat split; try done; [congruence|].
  apply NoDup_cons_1_1 in Hnd. set_solver.
Qed.

Lemma run_update_policy_target self h :
  wf self h →
  ∃ pname ps ts,
    h !! PolicyWithQs.policy self = Some (Network pname ps) ∧
    weights_at h (PolicyWithQs.policy_target self) = Some ts ∧
    PolicyWithQs.update_policy_target self h
    = (Return tt,
       <[PolicyWithQs.policy self :=
           Network pname (blend_params (tau (PolicyWithQs.args self)) ps ts)]> h) ∧
    same_signatures h
      (<[PolicyWithQs.policy self :=
           Network pname (blend_params (tau (PolicyWithQs.args self)) ps ts)]> h).
Proof.
  intros Hwf. destruct (wf_policy_lookup _ _ Hwf) as (pname & ps & tname & ts & Hp & Ht & Hs & Hne).
  exists pname, ps, ts. split; [done|]. split; [unfold weights_at; by rewrite Ht|]. split.
  - unfold PolicyWithQs.update_policy_target. by eapply run_soft_update.
  - eapply same_signatures_insert; [done|]. simpl. f_equal.
    rewrite blend_params_shapes by done. done.
Qed.
End SoftUpdateRuns.

Section TargetLoop.
Context {F : Type} `{Arith F} `{Optimizer F} `{MLPNetModel F}.

Lemma wf_pair_lookup self h i q qt :
  wf self h → PolicyWithQs.Qs self !! i = Some q → PolicyWithQs.Q_targets self !! i = Some qt →
  ∃ qname qs tname ts,
    h !! q = Some (Network qname qs) ∧ h !! qt = Some (Network tname ts) ∧
    shapes qs = shapes ts.
Proof.
  intros (HQn & Hol & Hmodels & Hopts & Hal & Hnd & Hndo & Hoks & Hvars & Hp & Hpt & HQ & Hcount) Hq Hqt.
  destruct (Forall2_lookup_lr _ _ _ _ _ _ HQ Hq Hqt) as [[s Hs] Hst].
  rewrite Hs in Hst.
  destruct (shapes_at_Some _ _ _ Hs) as (qname & qs & Hhq & Hqs).
  destruct (shapes_at_Some _ _ _ Hst) as (tname & ts & Hht & Hts).
  exists qname, qs, tname, ts. repeat split; try done. congruence.
Qed.

Lemma wf_NoDup_Q_targets self h : wf self h → NoDup (PolicyWithQs.Q_targets self).
Proof.
  intros (_ & _ & _ & _ & _ & Hnd & _).
  apply NoDup_cons_1_2, NoDup_cons_1_2 in Hnd. by apply NoDup_app in Hnd as (_ & _ & ?).
Qed.

Lemma wf_Q_not_target self h q :
  wf self h → q ∈ PolicyWithQs.Qs self → q ∉ PolicyWithQs.Q_targets self.
Proof.
  intros (_ & _ & _ & _ & _ & Hnd & _).
  apply NoDup_cons_1_2, NoDup_cons_1_2 in Hnd. apply NoDup_app in Hnd as (_ & Hdisj & _).
  apply Hdisj.
Qed.

Lemma wf_targets_length self h :
  wf self h → length (PolicyWithQs.Q_targets self) = length (PolicyWithQs.Qs self).
Proof.
  intros (_ & _ & _ & _ & _ & _ & _ & _ & _ & _ & _ & HQ & _).
  symmetry. by eapply Forall2_length.
Qed.

Lemma run_update_Q_targets self h :
  wf self h →
  ∃ h', PolicyWithQs.update_Q_targets self h = (Return tt, h') ∧
    same_signatures h h' ∧
    (∀ l, l ∉ PolicyWithQs.Q_targets self → h' !! l = h !! l) ∧
    (∀ i q qt qs ts, PolicyWithQs.Qs self !! i = Some q →
       PolicyWithQs.Q_targets self !! i = Some qt →
       weights_at h q = Some qs → weights_at h qt = Some ts →
       weights_at h' qt = Some (blend_params (tau (PolicyWithQs.args self)) qs ts)).
Proof.
  intros Hwf.
  pose (I := λ (k : nat) (h1 : gmap loc obj),
    same_signatures h h1 ∧
    (∀ l, l ∉ take k (PolicyWithQs.Q_targets self) → h1 !! l = h !! l) ∧
    (∀ i q qt qs ts, i < k → PolicyWithQs.Qs self !! i = Some q →
       PolicyWithQs.Q_targets self !! i = Some qt →
       weights_at h q = Some qs → weights_at h qt = Some ts →
       weights_at h1 qt = Some (blend_params (tau (PolicyWithQs.args self)) qs ts))).
  unfold PolicyWithQs.update_Q_targets.
  match goal with |- ∃ h', for_each ?l ?body h = _ ∧ _ =>
    destruct (run_for_each I l body h) as (h1 & Hrun & Hs & Hframe & Hvals) end.
  - split; [done|]. split; [done|]. intros; lia.
  - intros k [q qt] h1 Hk (Hs & Hframe & Hvals).
    apply lookup_zip_with_Some in Hk as (q' & qt' & [= <- <-] & Hq & Hqt).
    destruct (wf_pair_lookup _ _ _ _ _ Hwf Hq Hqt) as (qname & qs & tname & ts & Hhq & Hht & Hst).
    assert (Hq1 : h1 !! q = Some (Network qname qs)).
    { rewrite Hframe; [done|]. intros Hin%elem_of_take. destruct Hin as (j & Hj & _).
      eapply (wf_Q_not_target self h q); [done|by eapply list_elem_of_lookup_2|].
      by eapply list_elem_of_lookup_2. }
    assert (Ht1 : h1 !! qt = Some (Network tname ts)).
    { rewrite Hframe; [done|]. intros (j & Hj & Hjk)%elem_of_take.
      pose proof (NoDup_lookup _ _ _ _ (wf_NoDup_Q_targets _ _ Hwf) Hj Hqt). lia. }
    eexists. split.
    { cbn [fst snd]. exact (run_soft_update _ h1 q qt qt _ _ _ _ _ _ Hq1 Ht1 Ht1 Hst eq_refl). }
    split; [|split].
    + eapply same_signatures_trans; [done|].
      eapply same_signatures_insert; [done|]. simpl. f_equal.
      by rewrite blend_params_shapes.
    + intros l Hl. rewrite (take_S_r _ _ _ Hqt) in Hl.
      rewrite lookup_insert_ne by set_solver. apply Hframe. set_solver.
    + intros i q' qt' qs' ts' Hi Hq' Hqt' Hqs' Hts'.
      destruct (decide (i = k)) as [->|Hne].
      * assert (q' = q) as -> by congruence. assert (qt' = qt) as -> by congruence.
        unfold weights_at in *. rewrite Hhq in Hqs'. rewrite Hht in Hts'.
        injection Hqs' as <-. injection Hts' as <-. by rewrite lookup_insert_eq.
      * assert (Hne' : qt ≠ qt').
        { intros ->. pose proof (NoDup_lookup _ _ _ _ (wf_NoDup_Q_targets _ _ Hwf) Hqt' Hqt). lia. }
        unfold weights_at at 1. rewrite lookup_insert_ne by done.
        apply (Hvals i q' qt' qs' ts'); [lia|done..].
  - assert (Hlen : length (zip (PolicyWithQs.Qs self) (PolicyWithQs.Q_targets self))
                   = length (PolicyWithQs.Q_targets self)).
    { rewrite length_zip_with, (wf_targets_length _ _ Hwf). lia. }
    exists h1. split; [exact Hrun|]. split; [done|]. split.
    + intros l Hl. apply Hframe. by rewrite Hlen, take_ge by lia.
    + intros i q qt qs ts Hq Hqt. apply (Hvals i); [|done..].
      rewrite Hlen. by eapply lookup_lt_Some.
Qed.
End TargetLoop.

(** ** The second loop of apply_gradients *)

Lemma range2_one n : range2 (Z.of_nat n) (Z.of_nat (n + 1)) = [Z.of_nat n].
Proof.
  unfold range2. replace (Z.of_nat (n + 1) - Z.of_nat n)%Z with 1%Z by lia.
  unfold seqZ. simpl. done.
Qed.

Lemma range2_two n :
  range2 (Z.of_nat n) (Z.of_nat (n + 2)) = [Z.of_nat n; Z.of_nat (S n)].
Proof.
  unfold range2. replace (Z.of_nat (n + 2) - Z.of_nat n)%Z with 2%Z by lia.
  unfold seqZ. simpl. do 2 f_equal. lia.
Qed.

Section RestLoop.
Context {F : Type} `{Arith F} `{Optimizer F} `{MLPNetModel F}.

Lemma wf_policy_optimizer self h :
  wf self h →
  ∃ nm st, h !! PolicyWithQs.policy_optimizer self = Some (OptimizerObj nm st) ∧
    PolicyWithQs.models self !! length (PolicyWithQs.Qs self) = Some (PolicyWithQs.policy self) ∧
    PolicyWithQs.optimizers self !! length (PolicyWithQs.Qs self)
      = Some (PolicyWithQs.policy_optimizer self).
Proof.
  intros (HQn & Hol & Hmodels & Hopts & Hal & Hnd & Hndo & Hoks & Hvars & Hp & Hpt & HQ & Hcount).
  assert (Hin : PolicyWithQs.policy_optimizer self ∈ PolicyWithQs.optimizers self).
  { rewrite Hopts. set_solver. }
  rewrite Forall_forall in Hoks.
  destruct (is_optimizer_at_true h _ (Hoks _ Hin)) as (nm & st & Ho).
  exists nm, st. split; [done|]. split.
  - rewrite Hmodels. by rewrite list_lookup_middle.
  - rewrite Hopts. by rewrite list_lookup_middle.
Qed.

(** With a trainable [log_alpha] the ensemble has one more model and one
    more optimizer. *)
Lemma wf_alpha_cases self h :
  wf self h →
  (alpha_locs self = [] ∧ PolicyWithQs.log_alpha_optimizer self = None) ∨
  (∃ la lo name x nm st,
     alpha_locs self = [la] ∧ PolicyWithQs.log_alpha_optimizer self = Some lo ∧
     h !! la = Some (TfVariable name x) ∧ h !! lo = Some (OptimizerObj nm st) ∧
     lo ≠ PolicyWithQs.policy_optimizer self ∧
     PolicyWithQs.models self !! S (length (PolicyWithQs.Qs self)) = Some la ∧
     PolicyWithQs.optimizers self !! S (length (PolicyWithQs.Qs self)) = Some lo).
Proof.
  intros (HQn & Hol & Hmodels & Hopts & Hal & Hnd & Hndo & Hoks & Hvars & Hp & Hpt & HQ & Hcount).
  destruct (alpha_locs self) as [|la [|? ?]] eqn:Hla;
    destruct (PolicyWithQs.log_alpha_optimizer self) as [lo|] eqn:Hlo; try done.
  - by left.
  - right.
    destruct (is_variable_at_true _ _ (Forall_lookup_1 _ _ 0 la Hvars eq_refl))
      as (name & x & Hhla).
    assert (Hin : lo ∈ PolicyWithQs.optimizers self) by (rewrite Hopts; set_solver).
    rewrite Forall_forall in Hoks.
    destruct (is_optimizer_at_true h _ (Hoks _ Hin)) as (nm & st & Hho).
    exists la, lo, name, x, nm, st. repeat split; try done.
    + intros ->. rewrite Hopts in Hndo. simpl in Hndo.
      apply NoDup_app in Hndo as (_ & _ & Hndo). apply NoDup_cons_1_1 in Hndo. set_solver.
    + rewrite Hmodels.
      replace (S (length (PolicyWithQs.Qs self))) with (length (PolicyWithQs.Qs self) + 1) by lia.
      by rewrite lookup_app_r, Nat.add_comm, Nat.add_sub by lia.
    + rewrite Hopts, <- Hol.
      replace (S (length (PolicyWithQs.Q_optimizers self)))
        with (length (PolicyWithQs.Q_optimizers self) + 1) by lia.
      by rewrite lookup_app_r, Nat.add_comm, Nat.add_sub by lia.
Qed.

Lemma wf_models_length self h :
  wf self h →
  length (PolicyWithQs.models self) = length (PolicyWithQs.Qs self) + 1 + length (alpha_locs self).
Proof. intros (_ & _ & -> & _). rewrite length_app. simpl. lia. Qed.

Lemma run_apply_rest_gradients self grads h (start : Z) :
  wf self h →
  ∃ h2,
    PolicyWithQs.apply_rest_gradients self grads
      (range2 (Q_num (PolicyWithQs.args self)) (Z.of_nat (length (PolicyWithQs.models self))))
      start h = (Return tt, h2) ∧
    same_signatures h h2 ∧
    (∀ l, l ≠ PolicyWithQs.policy self → l ∉ alpha_locs self →
          l ∉ PolicyWithQs.optimizers self → h2 !! l = h !! l) ∧
    h2 !! PolicyWithQs.policy self
      = optimized h (PolicyWithQs.policy_optimizer self) (PolicyWithQs.policy self)
          (py_slice grads start (start + Z.of_nat (count_at h (PolicyWithQs.policy self)))) ∧
    (∀ la lo, alpha_locs self = [la] → PolicyWithQs.log_alpha_optimizer self = Some lo →
       h2 !! la = optimized h lo la
          (py_slice grads (start + Z.of_nat (count_at h (PolicyWithQs.policy self)))
             (start + Z.of_nat (count_at h (PolicyWithQs.policy self)) + 1))).
Proof.
  intros Hwf.
  destruct (wf_policy_lookup _ _ Hwf) as (pname & ps & tname & ts & Hp & Ht & Hps & Hne).
  destruct (wf_policy_optimizer _ _ Hwf) as (pnm & pst & Hpo & Hmp & Hop).
  pose proof (wf_models_length _ _ Hwf) as Hlen.
  assert (HQn : Q_num (PolicyWithQs.args self) = Z.of_nat (length (PolicyWithQs.Qs self)))
    by by destruct Hwf as (? & _).
  assert (Hopts : PolicyWithQs.optimizers self =
    PolicyWithQs.Q_optimizers self ++ PolicyWithQs.policy_optimizer self ::
      option_list (PolicyWithQs.log_alpha_optimizer self)) by by destruct Hwf as (_ & _ & _ & ? & _).
  (* the policy round *)
  destruct (run_model_trainable_weights h _ _ Hp) as (weights & Hmtw & Hnet & Happly); [done|].
  destruct (Hnet _ _ eq_refl) as [_ Hlw].
  set (gs := py_slice grads start (start + Z.of_nat (count_at h (PolicyWithQs.policy self)))).
  destruct (Happly _ pnm pst gs Hpo) as (ob' & Hob' & Hrunopt).
  destruct (dispatch_effect h _ _ pnm pst (opt_next pst (zip gs weights)) _ ob' _ Hpo Hp Hob')
    as (Hs' & Hp' & Hframe' & pst' & Hpo').
  set (h1 := <[PolicyWithQs.policy_optimizer self := OptimizerObj pnm (opt_next pst (zip gs weights))]>
               (<[PolicyWithQs.policy self := ob']> h)) in *.
  assert (Hround : ∀ rest,
    PolicyWithQs.apply_rest_gradients self grads (Z.of_nat (length (PolicyWithQs.Qs self)) :: rest) start h
    = PolicyWithQs.apply_rest_gradients self grads rest (start + Z.of_nat (length weights)) h1).
  { intros rest. cbn [PolicyWithQs.apply_rest_gradients].
    erewrite run_bind by (unfold lift; by rewrite (py_getitem_nat _ _ _ Hmp)).
    erewrite run_bind by exact Hmtw.
    erewrite run_bind by (unfold lift; by rewrite (py_getitem_nat _ _ _ Hop)).
    erewrite run_bind; [reflexivity|].
    rewrite Hlw, <- (count_at_network _ _ _ _ Hp). exact Hrunopt. }
  rewrite HQn, Hlen.
  destruct (wf_alpha_cases _ _ Hwf) as [[Hla Hlo]|(la & lo & name & x & nm & st & Hla & Hlo & Hhla & Hhlo & Hlone & Hmla & Hola)].
  - rewrite Hla. simpl length. rewrite Nat.add_0_r, range2_one, Hround.
    exists h1. split; [done|]. split; [done|]. split; [|split].
    + intros l Hl _ Hlo'. apply Hframe'; [|done].
      intros ->. apply Hlo'. rewrite Hopts. set_solver.
    + by rewrite Hp', Hob'.
    + by intros.
  - rewrite Hla. simpl length. replace (length (PolicyWithQs.Qs self) + 1 + 1)
      with (length (PolicyWithQs.Qs self) + 2) by lia.
    rewrite range2_two, Hround.
    (* the log_alpha round *)
    assert (Hla1 : h1 !! la = Some (TfVariable name x)).
    { rewrite Hframe'; [done| |]; intros ->; congruence. }
    assert (Hlo1 : h1 !! lo = Some (OptimizerObj nm st)).
    { rewrite Hframe'; [done|done|]. intros ->; congruence. }
    destruct (run_model_trainable_weights h1 _ _ Hla1) as (weights2 & Hmtw2 & _ & Happly2); [done|].
    assert (Hw2 : weights2 = [ScalarVar la]).
    { unfold PolicyWithQs.model_trainable_weights in Hmtw2.
      rewrite (run_bind _ _ _ _ _ (run_deref _ _ _ Hla1)) in Hmtw2.
      cbv [is_keras_model mret M_ret] in Hmtw2. congruence. }
    set (gs2 := py_slice grads (start + Z.of_nat (count_at h (PolicyWithQs.policy self)))
                  (start + Z.of_nat (count_at h (PolicyWithQs.policy self)) + 1)).
    destruct (Happly2 _ nm st gs2 Hlo1) as (ob2 & Hob2 & Hrunopt2).
    destruct (dispatch_effect h1 _ _ nm st (opt_next st (zip gs2 weights2)) _ ob2 _ Hlo1 Hla1 Hob2)
      as (Hs2 & Hla2 & Hframe2 & _).
    eexists. split.
    { cbn [PolicyWithQs.apply_rest_gradients].
      erewrite run_bind by (unfold lift; by rewrite (py_getitem_nat _ _ _ Hmla)).
      erewrite run_bind by exact Hmtw2.
      erewrite run_bind by (unfold lift; by rewrite (py_getitem_nat _ _ _ Hola)).
      erewrite run_bind; [reflexivity|].
      rewrite Hlw, <- (count_at_network _ _ _ _ Hp), Hw2. simpl length.
      rewrite Hw2 in Hrunopt2. exact Hrunopt2. }
    split; [by eapply same_signatures_trans|]. split; [|split].
    + intros l Hl Hlla Hlo'.
      rewrite Hframe2; [apply Hframe'; [|done]| |].
      * intros ->. apply Hlo'. rewrite Hopts. set_solver.
      * intros ->. apply Hlo'. rewrite Hopts, Hlo. set_solver.
      * set_solver.
    + rewrite Hframe2; [by rewrite Hp', Hob'| |]; intros Heq; rewrite <- Heq in *; congruence.
    + intros la' lo' [= <-] Hlo''. rewrite Hlo in Hlo''. injection Hlo'' as <-.
      rewrite Hla2, <- Hob2. unfold optimized. by rewrite Hlo1, Hla1, Hhlo, Hhla.
Qed.
End RestLoop.

(** ** apply_gradients as a whole *)

Section ApplyGradients.
Context {F : Type} `{Arith F} `{Optimizer F} `{MLPNetModel F}.

(** A network is neither an optimizer nor the [log_alpha] variable. *)
Lemma wf_network_kind self h l :
  wf self h → is_Some (shapes_at h l) →
  (l ∉ PolicyWithQs.optimizers self) ∧ (l ∉ alpha_locs self).
Proof.
  intros (HQn & Hol & Hmodels & Hopts & Hal & Hnd & Hndo & Hoks & Hvars & Hp & Hpt & HQ & Hcount) [s Hs].
  destruct (shapes_at_Some _ _ _ Hs) as (name & ws & Hl & _).
  rewrite Forall_forall in Hoks. rewrite Forall_forall in Hvars. split; intros Hin.
  - destruct (is_optimizer_at_true _ _ (Hoks _ Hin)) as (? & ? & ?). congruence.
  - destruct (is_variable_at_true _ _ (Hvars _ Hin)) as (? & ? & ?). congruence.
Qed.

Lemma wf_Q_network self h q :
  wf self h → q ∈ PolicyWithQs.Qs self → is_Some (shapes_at h q) ∧ q ≠ PolicyWithQs.policy self
    ∧ q ≠ PolicyWithQs.policy_target self.
Proof.
  intros Hwf [i Hq]%list_elem_of_lookup.
  destruct (wf_Q_lookup _ _ _ _ Hwf Hq) as (name & ws & _ & _ & _ & Hhq & _).
  split; [rewrite (shapes_at_network _ _ _ _ Hhq); eauto|].
  destruct Hwf as (_ & _ & _ & _ & _ & Hnd & _).
  apply NoDup_cons in Hnd as [Hp Hnd]. apply NoDup_cons in Hnd as [Hpt _].
  apply list_elem_of_lookup_2 in Hq. set_solver.
Qed.

Lemma wf_Q_target_network self h qt :
  wf self h → qt ∈ PolicyWithQs.Q_targets self →
  is_Some (shapes_at h qt) ∧ qt ≠ PolicyWithQs.policy self ∧ qt ≠ PolicyWithQs.policy_target self
    ∧ qt ∉ PolicyWithQs.Qs self.
Proof.
  intros Hwf Hin. pose proof Hin as [i Hqt]%list_elem_of_lookup.
  destruct (lookup_lt_is_Some_2 (PolicyWithQs.Qs self) i) as [q Hq].
  { rewrite <- (wf_targets_length _ _ Hwf). by eapply lookup_lt_Some. }
  destruct (wf_pair_lookup _ _ _ _ _ Hwf Hq Hqt) as (? & ? & tname & ts & _ & Hht & _).
  split; [rewrite (shapes_at_network _ _ _ _ Hht); eauto|].
  split; [|split].
  - destruct Hwf as (_ & _ & _ & _ & _ & Hnd & _). apply NoDup_cons_1_1 in Hnd. set_solver.
  - destruct Hwf as (_ & _ & _ & _ & _ & Hnd & _).
    apply NoDup_cons_1_2, NoDup_cons_1_1 in Hnd. set_solver.
  - intros Hq'. by eapply wf_Q_not_target.
Qed.

Lemma wf_model0 self h :
  wf self h →
  ∃ name ws,
    PolicyWithQs.models self !! 0
      = Some (default (PolicyWithQs.policy self) (head (PolicyWithQs.Qs self))) ∧
    h !! default (PolicyWithQs.policy self) (head (PolicyWithQs.Qs self))
      = Some (Network name ws).
Proof.
  intros Hwf. destruct (PolicyWithQs.Qs self) as [|q Qs'] eqn:HQs; simpl.
  - destruct (wf_policy_lookup _ _ Hwf) as (pname & ps & _ & _ & Hp & _).
    exists pname, ps. split; [|done].
    destruct Hwf as (_ & _ & -> & _). by rewrite HQs.
  - destruct (wf_Q_lookup self h 0 q Hwf) as (name & ws & _ & _ & _ & Hhq & Hm & _).
    { by rewrite HQs. }
    by exists name, ws.
Qed.

(** On an iteration that is not a multiple of [delay_update] only the first
    loop runs. *)
Lemma run_apply_gradients_delayed self iteration grads h :
  wf self h →
  delay_update (PolicyWithQs.args self) ≠ 0%Z →
  (iteration mod (delay_update (PolicyWithQs.args self)))%Z ≠ 0%Z →
  PolicyWithQs.apply_gradients self iteration grads h
  = PolicyWithQs.apply_Q_gradients self grads h.
Proof.
  intros Hwf Hd Hmod.
  destruct (run_apply_Q_gradients self grads h Hwf) as (h1 & Hrun & _).
  unfold PolicyWithQs.apply_gradients.
  rewrite (run_bind _ _ _ _ _ Hrun), Hrun.
  unfold lift, py_mod. destruct (Z.eqb_spec (delay_update (PolicyWithQs.args self)) 0); [done|].
  unfold mbind, M_bind. by destruct (Z.eqb_spec (iteration mod (delay_update (PolicyWithQs.args self))) 0).
Qed.

(** On a multiple of [delay_update] the second loop and both soft updates
    follow the first loop. *)
Lemma run_apply_gradients_update self iteration grads h :
  wf self h →
  delay_update (PolicyWithQs.args self) ≠ 0%Z →
  (iteration mod (delay_update (PolicyWithQs.args self)))%Z = 0%Z →
  ∃ h1 h2 hf,
    PolicyWithQs.apply_Q_gradients self grads h = (Return tt, h1) ∧
    PolicyWithQs.apply_rest_gradients self grads
      (range2 (Q_num (PolicyWithQs.args self)) (Z.of_nat (length (PolicyWithQs.models self))))
      (gradi_start self h) h1 = (Return tt, h2) ∧
    PolicyWithQs.apply_gradients self iteration grads h = (Return tt, hf) ∧
    same_signatures h hf ∧
    (∀ q, q ∈ PolicyWithQs.Qs self → hf !! q = h1 !! q) ∧
    (∀ i q qt qs ts,
       PolicyWithQs.Qs self !! i = Some q → PolicyWithQs.Q_targets self !! i = Some qt →
       weights_at h1 q = Some qs → weights_at h qt = Some ts →
       weights_at hf qt = Some (blend_params (tau (PolicyWithQs.args self)) qs ts)) ∧
    h2 !! PolicyWithQs.policy self
      = optimized h (PolicyWithQs.policy_optimizer self) (PolicyWithQs.policy self)
          (py_slice grads (gradi_start self h)
             (gradi_start self h + Z.of_nat (count_at h (PolicyWithQs.policy self)))) ∧
    (∀ ps ts, weights_at h2 (PolicyWithQs.policy self) = Some ps →
       weights_at h (PolicyWithQs.policy_target self) = Some ts →
       weights_at hf (PolicyWithQs.policy self)
         = Some (blend_params (tau (PolicyWithQs.args self)) ps ts)) ∧
    hf !! PolicyWithQs.policy_target self = h !! PolicyWithQs.policy_target self.
Proof.
  intros Hwf Hd Hmod.
  destruct (run_apply_Q_gradients self grads h Hwf) as (h1 & Hrun1 & Hs1 & Hframe1 & Hvals1).
  pose proof (wf_same_signatures _ _ _ Hs1 Hwf) as Hwf1.
  destruct (run_apply_rest_gradients self grads h1 (gradi_start self h) Hwf1)
    as (h2 & Hrun2 & Hs2 & Hframe2 & Hpol2 & _).
  pose proof (wf_same_signatures _ _ _ Hs2 Hwf1) as Hwf2.
  destruct (run_update_policy_target self h2 Hwf2) as (pname & ps2 & ts2 & Hp2 & Hpt2 & Hrun3 & Hs3).
  set (h3 := <[PolicyWithQs.policy self :=
                 Network pname (blend_params (tau (PolicyWithQs.args self)) ps2 ts2)]> h2) in *.
  pose proof (wf_same_signatures _ _ _ Hs3 Hwf2) as Hwf3.
  destruct (run_update_Q_targets self h3 Hwf3) as (hf & Hrun4 & Hs4 & Hframe4 & Hvals4).
  destruct (wf_model0 _ _ Hwf1) as (name0 & ws0 & Hm0 & Hh0).
  destruct (wf_policy_lookup _ _ Hwf) as (pname0 & ps0 & tname0 & ts0 & Hp0 & Hpt0 & Hps0 & Hne).
  (* the targets are not touched before the last step, the Q groups not after the first *)
  assert (Hpolicy_frame1 : ∀ l, is_Some (shapes_at h l) → l ∉ PolicyWithQs.Qs self →
            h1 !! l = h !! l).
  { intros l Hl HlQ. apply Hframe1; [done|]. intros Hin.
    destruct (wf_network_kind _ _ _ Hwf Hl) as [Hno _]. apply Hno.
    destruct Hwf as (_ & _ & _ & -> & _). set_solver. }
  assert (Hnet_frame2 : ∀ l, is_Some (shapes_at h l) → l ≠ PolicyWithQs.policy self →
            h2 !! l = h1 !! l).
  { intros l Hl Hlp.
    rewrite <- (same_signatures_shapes _ _ l Hs1) in Hl.
    destruct (wf_network_kind _ _ _ Hwf1 Hl) as [Hno Hna]. by apply Hframe2. }
  assert (Hframe3 : ∀ l, l ≠ PolicyWithQs.policy self → h3 !! l = h2 !! l).
  { intros l Hl. unfold h3. by rewrite lookup_insert_ne. }
  exists h1, h2, hf. split; [done|]. split; [done|]. split.
  { unfold PolicyWithQs.apply_gradients.
    rewrite (run_bind _ _ _ _ _ Hrun1).
    erewrite run_bind; last first.
    { unfold lift, py_mod. destruct (Z.eqb_spec (delay_update (PolicyWithQs.args self)) 0); done. }
    rewrite Hmod. simpl.
    erewrite run_bind by (unfold lift; by rewrite (py_getitem_nat _ 0 _ Hm0 : py_getitem _ 0%Z = _)).
    erewrite run_bind by by eapply run_net_trainable_weights.
    rewrite length_fmap, length_seq, <- (count_at_network _ _ _ _ Hh0).
    rewrite (same_signatures_count _ _ _ Hs1).
    change (Z.of_nat (count_at h _) * _)%Z with (gradi_start self h).
    rewrite (run_bind _ _ _ _ _ Hrun2). rewrite (run_bind _ _ _ _ _ Hrun3). exact Hrun4. }
  split.
  { eapply same_signatures_trans; [|exact Hs4].
    eapply same_signatures_trans; [|exact Hs3].
    eapply same_signatures_trans; [exact Hs1|exact Hs2]. }
  split.
  { intros q Hq. destruct (wf_Q_network _ _ _ Hwf Hq) as (Hnet & Hqp & Hqpt).
    rewrite Hframe4 by by eapply wf_Q_not_target.
    rewrite Hframe3 by done. by apply Hnet_frame2. }
  split.
  { intros i q qt qs ts Hq Hqt Hqs Hts.
    pose proof (list_elem_of_lookup_2 _ _ _ Hq) as Hq_in.
    pose proof (list_elem_of_lookup_2 _ _ _ Hqt) as Hqt_in.
    destruct (wf_Q_network _ _ _ Hwf Hq_in) as (Hnet & Hqp & Hqpt).
    destruct (wf_Q_target_network _ _ _ Hwf Hqt_in) as (Hnett & Htp & Htpt & HtQ).
    apply (Hvals4 i q qt); [done|done| |].
    - unfold weights_at. rewrite Hframe3, Hnet_frame2 by done. exact Hqs.
    - unfold weights_at. rewrite Hframe3, Hnet_frame2, Hpolicy_frame1 by done. exact Hts. }
  split.
  { rewrite Hpol2. unfold optimized.
    rewrite (same_signatures_count _ _ _ Hs1).
    assert (Hpo1 : h1 !! PolicyWithQs.policy_optimizer self
                   = h !! PolicyWithQs.policy_optimizer self).
    { destruct (wf_policy_optimizer _ _ Hwf) as (nm & st & Hpo & _ & Hin).
      apply Hframe1.
      - intros Hq. destruct (wf_Q_network _ _ _ Hwf Hq) as (Hnet & _).
        destruct (wf_network_kind _ _ _ Hwf Hnet) as [Hno _]. apply Hno.
        by eapply list_elem_of_lookup_2.
      - intros Hq. destruct Hwf as (_ & _ & _ & Hopts & _ & _ & Hndo & _).
        rewrite Hopts in Hndo. apply NoDup_app in Hndo as (_ & Hdisj & _).
        apply (Hdisj _ Hq). set_solver. }
    assert (Hp1 : h1 !! PolicyWithQs.policy self = h !! PolicyWithQs.policy self).
    { apply Hpolicy_frame1.
      - rewrite (shapes_at_network _ _ _ _ Hp0). eauto.
      - destruct Hwf as (_ & _ & _ & _ & _ & Hnd & _). apply NoDup_cons_1_1 in Hnd. set_solver. }
    by rewrite Hpo1, Hp1. }
  split.
  { intros ps ts Hps Hts.
    assert (Hpt1 : h2 !! PolicyWithQs.policy_target self = h !! PolicyWithQs.policy_target self).
    { rewrite Hnet_frame2, Hpolicy_frame1; try done.
      - rewrite (shapes_at_network _ _ _ _ Hpt0). eauto.
      - destruct Hwf as (_ & _ & _ & _ & _ & Hnd & _).
        apply NoDup_cons_1_2, NoDup_cons_1_1 in Hnd. set_solver.
      - rewrite (shapes_at_network _ _ _ _ Hpt0). eauto. }
    unfold weights_at in Hps, Hts, Hpt2. rewrite Hp2 in Hps. injection Hps as <-.
    rewrite Hpt1 in Hpt2. rewrite Hpt2 in Hts. injection Hts as <-.
    unfold weights_at. rewrite Hframe4.
    - unfold h3. by rewrite lookup_insert_eq.
    - intros Hin. destruct (wf_Q_target_network _ _ _ Hwf Hin) as (_ & Hbad & _). done. }
  rewrite Hframe4, Hframe3, Hnet_frame2, Hpolicy_frame1; try done.
  - rewrite (shapes_at_network _ _ _ _ Hpt0). eauto.
  - destruct Hwf as (_ & _ & _ & _ & _ & Hnd & _).
    apply NoDup_cons_1_2, NoDup_cons_1_1 in Hnd. set_solver.
  - rewrite (shapes_at_network _ _ _ _ Hpt0). eauto.
  - intros Hin. destruct (wf_Q_target_network _ _ _ Hwf Hin) as (_ & _ & Hbad & _). done.
Qed.
End ApplyGradients.

(** ** The claims about the soft updates and apply_gradients *)

Section EnsembleClaims.
Context {F : Type} `{Arith F} `{Optimizer F} `{MLPNetModel F}.

Lemma apply_pairs_beyond st l gs : ∀ k ws j w,
  length gs ≤ j → ws !! j = Some w → apply_pairs st l k gs ws !! j = Some w.
Proof.
  induction gs as [|g gs IH]; intros k [|w0 ws] j w Hj Hw; try done.
  destruct j as [|j]; simpl in *; [lia|]. apply IH; [lia|done].
Qed.

(** C1. In every well-formed state [update_policy_target] returns, and it
    has written onto the policy group itself, element by element,
    tau * policy + (1 - tau) * policy_target; the policy_target group, and
    every other object, is as before. *)
Theorem update_policy_target_writes_policy self h ps ts :
  wf self h →
  weights_at h (PolicyWithQs.policy self) = Some ps →
  weights_at h (PolicyWithQs.policy_target self) = Some ts →
  ∃ h', PolicyWithQs.update_policy_target self h = (Return tt, h') ∧
    weights_at h' (PolicyWithQs.policy self)
      = Some (blend_params (tau (PolicyWithQs.args self)) ps ts) ∧
    (∀ k j s t x y, ps !! k = Some s → ts !! k = Some t → s !! j = Some x → t !! j = Some y →
       ∃ r, blend_params (tau (PolicyWithQs.args self)) ps ts !! k = Some r ∧
            r !! j = Some (fadd (fmul (tau (PolicyWithQs.args self)) x)
                                (fmul (fsub fone (tau (PolicyWithQs.args self))) y))) ∧
    shapes (blend_params (tau (PolicyWithQs.args self)) ps ts) = shapes ps ∧
    weights_at h' (PolicyWithQs.policy_target self) = Some ts ∧
    ∀ l, l ≠ PolicyWithQs.policy self → h' !! l = h !! l.
Proof.
  intros Hwf Hps Hts.
  destruct (run_update_policy_target self h Hwf) as (pname & ps' & ts' & Hp & Hpt & Hrun & Hs).
  destruct (wf_policy_lookup _ _ Hwf) as (pname' & ps'' & tname' & ts'' & Hp' & Ht' & Hshape & Hne).
  assert (ps' = ps) as ->. { unfold weights_at in Hps. rewrite Hp in Hps. congruence. }
  assert (ts' = ts) as -> by congruence.
  assert (ps'' = ps) as -> by congruence.
  assert (ts'' = ts) as ->. { unfold weights_at in Hts. rewrite Ht' in Hts. congruence. }
  eexists. split; [exact Hrun|]. split; [|split; [|split; [|split]]].
  - unfold weights_at. by rewrite lookup_insert_eq.
  - intros k j s t x y. apply blend_params_lookup.
  - rewrite blend_params_shapes by done. done.
  - unfold weights_at. rewrite lookup_insert_ne by done. exact Hts.
  - intros l Hl. by rewrite lookup_insert_ne.
Qed.



End EnsembleClaims.

(** ** The slices of the gradient sequence *)

Lemma concat_chunks {A} (l : list A) (L n : nat) :
  concat ((λ i, take L (drop (i * L) l)) <$> seq 0 n) = take (n * L) l.
Proof.
  induction n as [|n IH]; [done|].
  rewrite seq_S, fmap_app, concat_app, IH. simpl. rewrite app_nil_r.
  by rewrite (Nat.add_comm L), take_take_drop.
Qed.

Section Slices.
Context {F : Type}.

Lemma Q_slice_chunk (grads : list (list F)) L i :
  Q_slice grads L i = take L (drop (i * L) grads).
Proof.
  unfold Q_slice.
  replace (Z.of_nat i * Z.of_nat L)%Z with (Z.of_nat (i * L)) by lia.
  replace ((Z.of_nat i + 1) * Z.of_nat L)%Z with (Z.of_nat (i * L + L)) by lia.
  rewrite py_slice_nat. f_equal. lia.
Qed.
End Slices.

Section SliceClaim.
Context {F : Type} `{Arith F} `{Optimizer F} `{MLPNetModel F}.

End SliceClaim.

(** ** The example ensemble *)

Import Example.

Lemma example_built : built = (Return self0, store0).
Proof. vm_compute. reflexivity. Qed.

Lemma example_wf : wf self0 store0.
Proof. apply (bool_decide_unpack _); vm_compute; exact I. Qed.

Lemma update_policy_target_writes_policy_witness :
  ∃ h', PolicyWithQs.update_policy_target self0 store0 = (Return tt, h') ∧
    weights_at h' 0 = Some (blend_params (1 # 2)%Q
                              [[656%Q; 657%Q]; [658%Q; 659%Q]]
                              [[1398%Q; 1399%Q]; [1400%Q; 1401%Q]]) ∧
    weights_at h' 1 = Some [[1398%Q; 1399%Q]; [1400%Q; 1401%Q]].
Proof.
  destruct (update_policy_target_writes_policy self0 store0
              [[656%Q; 657%Q]; [658%Q; 659%Q]] [[1398%Q; 1399%Q]; [1400%Q; 1401%Q]])
    as (h' & Hrun & Hp & _ & _ & Ht & _).
  - apply (bool_decide_unpack _); vm_compute; exact I.
  - vm_compute. reflexivity.
  - vm_compute. reflexivity.
  - exists h'. split; [exact Hrun|]. split; [exact Hp|exact Ht].
Defined.


(** ** Construction *)

(** Objects allocated one after the other are pairwise distinct, and
    distinct from what the store held before. *)
Lemma allocation_order (D D1 D2 D3 D4 D5 D6 : gset loc) (p pt po : loc)
    (Qs Qts Qos : list loc) :
  p ∉ D → D1 = {[p]} ∪ D → pt ∉ D1 → D2 = {[pt]} ∪ D1 → po ∉ D2 → D3 = {[po]} ∪ D2 →
  (∀ l, l ∈ Qs → l ∉ D3) → D4 = D3 ∪ list_to_set Qs →
  (∀ l, l ∈ Qts → l ∉ D4) → D5 = D4 ∪ list_to_set Qts → D6 = D5 →
  (∀ l, l ∈ Qos → l ∉ D6) →
  (p ≠ pt ∧ p ≠ po ∧ pt ≠ po) ∧
  (∀ l, l ∈ D → l ≠ p ∧ l ≠ pt ∧ l ≠ po) ∧
  (∀ l, l ∈ Qs → l ≠ p ∧ l ≠ pt ∧ l ≠ po ∧ l ∉ D) ∧
  (∀ l, l ∈ Qts → l ≠ p ∧ l ≠ pt ∧ l ≠ po ∧ (l ∉ D) ∧ l ∉ Qs) ∧
  (∀ l, l ∈ Qos → l ≠ p ∧ l ≠ pt ∧ l ≠ po ∧ (l ∉ D) ∧ (l ∉ Qs) ∧ l ∉ Qts).
Proof.
  intros Hf1 -> Hf2 -> Hf3 -> Hn4 -> Hn5 -> -> Hn7.
  split; [set_solver|]. split; [set_solver|].
  split; [intros l Hl; specialize (Hn4 l Hl); set_solver|].
  split; [intros l Hl; specialize (Hn5 l Hl); set_solver|].
  intros l Hl; specialize (Hn7 l Hl); set_solver.
Qed.

Section Construction.
Context {F : Type} `{Arith F} `{Optimizer F} `{MLPNetModel F}.

Lemma run_alloc (o : obj) h :
  alloc o h = (Return (fresh (dom h)), <[fresh (dom h) := o]> h) ∧ fresh (dom h) ∉ dom h.
Proof. split; [done|apply is_fresh]. Qed.

(** A run of allocations gives as many new, distinct objects, in order. *)
Lemma run_mapM_alloc {A} (f : A → obj) (xs : list A) : ∀ h,
  ∃ ls h', mapM (λ x, alloc (f x)) xs h = (Return ls, h') ∧
    length ls = length xs ∧ NoDup ls ∧ (∀ l, l ∈ ls → l ∉ dom h) ∧
    dom h' = dom h ∪ list_to_set ls ∧
    (∀ l, l ∉ ls → h' !! l = h !! l) ∧
    (∀ i x l, xs !! i = Some x → ls !! i = Some l → h' !! l = Some (f x)).
Proof.
  induction xs as [|x xs IH]; intros h.
  - exists [], h. split; [done|]. split; [done|]. split; [apply NoDup_nil_2|].
    split; [set_solver|]. split; [set_solver|]. by split.
  - destruct (run_alloc (f x) h) as [Hx Hfresh].
    set (l0 := fresh (dom h)) in *. set (h1 := <[l0 := f x]> h) in *.
    destruct (IH h1) as (ls & h' & Hrun & Hlen & Hnd & Hnew & Hdom & Hframe & Hvals).
    assert (Hl0 : l0 ∉ ls).
    { intros Hin. apply (Hnew _ Hin). unfold h1. rewrite dom_insert_L. set_solver. }
    exists (l0 :: ls), h'. split; [|split; [|split; [|split; [|split; [|split]]]]].
    + cbn [mapM]. rewrite (run_bind _ _ _ _ _ Hx). fold h1.
      by rewrite (run_bind _ _ _ _ _ Hrun).
    + simpl. by rewrite Hlen.
    + by constructor.
    + intros l [->|Hin]%elem_of_cons; [done|].
      intros Hd. apply (Hnew _ Hin). unfold h1. rewrite dom_insert_L. set_solver.
    + rewrite Hdom. unfold h1. rewrite dom_insert_L. set_solver.
    + intros l Hl. rewrite Hframe by set_solver. unfold h1.
      rewrite lookup_insert_ne; [done|set_solver].
    + intros [|i] y l Hy Hl; simpl in *.
      * injection Hy as <-. injection Hl as <-.
        rewrite Hframe by done. unfold h1. by rewrite lookup_insert_eq.
      * by eapply Hvals.
Qed.

(** A loop over [zip srcs dsts] that rewrites each [dst] from its [src] *)
Lemma run_for_each_pairs (body : loc * loc → M unit) (upd : obj → obj → obj)
    (srcs dsts : list loc) h :
  NoDup dsts → (∀ q, q ∈ srcs → q ∉ dsts) →
  (∀ i q qt h1, srcs !! i = Some q → dsts !! i = Some qt →
     h1 !! q = h !! q → h1 !! qt = h !! qt →
     ∃ oq ot, h !! q = Some oq ∧ h !! qt = Some ot ∧
       body (q, qt) h1 = (Return tt, <[qt := upd oq ot]> h1)) →
  ∃ h', for_each (zip srcs dsts) body h = (Return tt, h') ∧
    (∀ l, l ∉ dsts → h' !! l = h !! l) ∧
    (∀ l, is_Some (h' !! l) ↔ is_Some (h !! l)) ∧
    (∀ i q qt, srcs !! i = Some q → dsts !! i = Some qt →
       ∃ oq ot, h !! q = Some oq ∧ h !! qt = Some ot ∧ h' !! qt = Some (upd oq ot)).
Proof.
  intros Hnd Hdisj Hbody.
  pose (I := λ (k : nat) (h1 : gmap loc obj),
    (∀ l, l ∉ take k dsts → h1 !! l = h !! l) ∧
    (∀ l, is_Some (h1 !! l) ↔ is_Some (h !! l)) ∧
    (∀ i q qt, i < k → srcs !! i = Some q → dsts !! i = Some qt →
       ∃ oq ot, h !! q = Some oq ∧ h !! qt = Some ot ∧ h1 !! qt = Some (upd oq ot))).
  destruct (run_for_each I (zip srcs dsts) body h) as (h' & Hrun & Hframe & Hsome & Hvals).
  - split; [done|]. split; [done|]. intros; lia.
  - intros k [q qt] h1 Hk (Hframe & Hsome & Hvals).
    apply lookup_zip_with_Some in Hk as (q' & qt' & [= <- <-] & Hq & Hqt).
    assert (Hq1 : h1 !! q = h !! q).
    { apply Hframe. intros Hin%elem_of_take. destruct Hin as (j & Hj & _).
      eapply Hdisj; by eapply list_elem_of_lookup_2. }
    assert (Ht1 : h1 !! qt = h !! qt).
    { apply Hframe. intros (j & Hj & Hjk)%elem_of_take.
      pose proof (NoDup_lookup _ _ _ _ Hnd Hj Hqt). lia. }
    destruct (Hbody k q qt h1 Hq Hqt Hq1 Ht1)
      as (oq & ot & Hoq & Hot & Hrun).
    eexists. split; [exact Hrun|]. split; [|split].
    + intros l Hl. rewrite (take_S_r _ _ _ Hqt) in Hl.
      rewrite lookup_insert_ne by set_solver. apply Hframe. set_solver.
    + intros l. destruct (decide (l = qt)) as [->|Hne].
      * rewrite lookup_insert_eq, Hot. split; eauto.
      * rewrite lookup_insert_ne by done. apply Hsome.
    + intros i q' qt' Hi Hq' Hqt'.
      destruct (decide (i = k)) as [->|Hne].
      * assert (q' = q) as -> by congruence. assert (qt' = qt) as -> by congruence.
        exists oq, ot. by rewrite lookup_insert_eq.
      * destruct (Hvals i q' qt') as (oq' & ot' & ? & ? & ?); [lia|done..|].
        exists oq', ot'. rewrite lookup_insert_ne; [done|].
        intros ->. pose proof (NoDup_lookup _ _ _ _ Hnd Hqt' Hqt). lia.
  - exists h'. split; [done|]. split; [|split; [done|]].
    + intros l Hl. apply Hframe. intros Hin. apply Hl. by eapply subseteq_take.
    + intros i q qt Hq Hqt. apply (Hvals i); [|done..].
      rewrite length_zip_with. apply lookup_lt_Some in Hq, Hqt. lia.
Qed.

Lemma initial_weights_shapes i l u o name :
  shapes (initial_weights i l u o name) = mlp_shapes i l u o.
Proof.
  unfold initial_weights, shapes. apply list_eq. intros k.
  rewrite list_lookup_fmap, list_lookup_imap.
  destruct (mlp_shapes i l u o !! k) as [n|]; [|done].
  simpl. by rewrite length_fmap, length_seq.
Qed.

Lemma length_range n : length (range n) = Z.to_nat n.
Proof. unfold range. by rewrite length_seqZ. Qed.

(** What [__init__] builds, up to the choice of [log_alpha]: the two policy
    networks, each with its own initial values, the Q networks, and the
    Q_target networks with the values of their Q networks. *)
Lemma run_init_networks (args : Args F) (od ad : Z) h :
  (0 ≤ Q_num args)%Z →
  ∃ p pt po Qs Qts Qos h7,
    (∀ (B : Type) (k : loc → loc → loc → list loc → list loc → list loc → M B),
    (policy ← MLPNet od 2 128 (ad * 2) "policy";
     policy_target ← MLPNet od 2 128 (ad * 2) "policy_target";
     policy_optimizer ← new_optimizer (policy_lr_schedule args) (Some "policy_adam_opt");
     Qs ← mapM (λ i, MLPNet (od + ad) 2 128 1 ("Q" +:+ pretty i)) (range (Q_num args));
     Q_targets ← mapM (λ i, MLPNet (od + ad) 2 128 1 ("Q_target" +:+ pretty i))
                    (range (Q_num args));
     _ ← for_each (zip Qs Q_targets) (λ p,
           source_params ← net_get_weights p.1;
           net_set_weights p.2 source_params);
     Q_optimizers ← mapM (λ _, new_optimizer (value_lr_schedule args) None)
                       (range (Z.of_nat (length Qs)));
     k policy policy_target policy_optimizer Qs Q_targets Q_optimizers) h
    = k p pt po Qs Qts Qos h7) ∧
    Q_num args = Z.of_nat (length Qs) ∧ length Qts = length Qs ∧ length Qos = length Qs ∧
    NoDup (p :: pt :: Qs ++ Qts) ∧ NoDup (Qos ++ [po]) ∧
    (∀ l, l ∈ dom h → h7 !! l = h !! l ∧ l ∉ p :: pt :: po :: Qs ++ Qts ++ Qos) ∧
    (∀ l, l ∈ p :: pt :: po :: Qs ++ Qts ++ Qos → l ∈ dom h7) ∧
    h7 !! p = Some (Network "policy" (initial_weights od 2 128 (ad * 2) "policy")) ∧
    h7 !! pt = Some (Network "policy_target"
                       (initial_weights od 2 128 (ad * 2) "policy_target")) ∧
    (∃ st, h7 !! po = Some (OptimizerObj (Some "policy_adam_opt") st)) ∧
    (∀ o, o ∈ Qos → ∃ st, h7 !! o = Some (OptimizerObj None st)) ∧
    (∀ i q qt, Qs !! i = Some q → Qts !! i = Some qt →
       h7 !! q = Some (Network ("Q" +:+ pretty (Z.of_nat i))
                         (initial_weights (od + ad) 2 128 1 ("Q" +:+ pretty (Z.of_nat i)))) ∧
       h7 !! qt = Some (Network ("Q_target" +:+ pretty (Z.of_nat i))
                          (initial_weights (od + ad) 2 128 1 ("Q" +:+ pretty (Z.of_nat i))))).
Proof.
  intros HQn.
  (* the three single allocations *)
  destruct (run_alloc (Network "policy" (initial_weights od 2 128 (ad * 2) "policy")) h)
    as [Hrun1 Hf1].
  set (p := fresh (dom h)) in *.
  set (h1 := <[p := Network "policy" (initial_weights od 2 128 (ad * 2) "policy")]> h) in *.
  destruct (run_alloc (Network "policy_target"
                         (initial_weights od 2 128 (ad * 2) "policy_target")) h1)
    as [Hrun2 Hf2].
  set (pt := fresh (dom h1)) in *.
  set (h2 := <[pt := Network "policy_target"
                       (initial_weights od 2 128 (ad * 2) "policy_target")]> h1) in *.
  destruct (run_alloc (OptimizerObj (Some "policy_adam_opt")
                         (opt_new (policy_lr_schedule args) (Some "policy_adam_opt"))) h2)
    as [Hrun3 Hf3].
  set (po := fresh (dom h2)) in *.
  set (h3 := <[po := OptimizerObj (Some "policy_adam_opt")
                       (opt_new (policy_lr_schedule args) (Some "policy_adam_opt"))]> h2) in *.
  (* the Q networks and their targets *)
  destruct (run_mapM_alloc
              (λ i, Network ("Q" +:+ pretty i)
                      (initial_weights (od + ad) 2 128 1 ("Q" +:+ pretty i)))
              (range (Q_num args)) h3)
    as (Qs & h4 & Hrun4 & Hlen4 & Hnd4 & Hnew4 & Hdom4 & Hframe4 & Hvals4).
  destruct (run_mapM_alloc
              (λ i, Network ("Q_target" +:+ pretty i)
                      (initial_weights (od + ad) 2 128 1 ("Q_target" +:+ pretty i)))
              (range (Q_num args)) h4)
    as (Qts & h5 & Hrun5 & Hlen5 & Hnd5 & Hnew5 & Hdom5 & Hframe5 & Hvals5).
  assert (HQ4 : ∀ i q, Qs !! i = Some q →
            h4 !! q = Some (Network ("Q" +:+ pretty (Z.of_nat i))
                              (initial_weights (od + ad) 2 128 1 ("Q" +:+ pretty (Z.of_nat i))))).
  { intros i q Hq. apply (Hvals4 i (Z.of_nat i) q); [|done].
    apply lookup_range. split; [done|]. apply lookup_lt_Some in Hq.
    rewrite Hlen4, length_range in Hq. lia. }
  assert (HQt5 : ∀ i qt, Qts !! i = Some qt →
            h5 !! qt = Some (Network ("Q_target" +:+ pretty (Z.of_nat i))
                               (initial_weights (od + ad) 2 128 1
                                  ("Q_target" +:+ pretty (Z.of_nat i))))).
  { intros i qt Hqt. apply (Hvals5 i (Z.of_nat i) qt); [|done].
    apply lookup_range. split; [done|]. apply lookup_lt_Some in Hqt.
    rewrite Hlen5, length_range in Hqt. lia. }
  assert (Hdisj : ∀ q, q ∈ Qs → q ∉ Qts).
  { intros q Hq Hqt. apply (Hnew5 _ Hqt). rewrite Hdom4.
    apply elem_of_union. right. by apply elem_of_list_to_set. }
  (* the targets take the values of their sources *)
  destruct (run_for_each_pairs
              (λ p : loc * loc, source_params ← net_get_weights p.1;
                                net_set_weights p.2 source_params)
              (λ oq ot, match oq, ot with
                        | Network _ ws, Network name _ => Network name ws
                        | _, _ => ot
                        end)
              Qs Qts h5 Hnd5 Hdisj)
    as (h6 & Hrun6 & Hframe6 & Hsome6 & Hvals6).
  { intros i q qt h' Hq Hqt Hq' Hqt'.
    assert (Hq5 : h5 !! q = Some (Network ("Q" +:+ pretty (Z.of_nat i))
                              (initial_weights (od + ad) 2 128 1 ("Q" +:+ pretty (Z.of_nat i))))).
    { rewrite Hframe5; [by apply HQ4|]. apply Hdisj. by eapply list_elem_of_lookup_2. }
    pose proof (HQt5 i qt Hqt) as Ht5.
    eexists _, _. split; [exact Hq5|]. split; [exact Ht5|].
    cbn [fst snd]. rewrite <- Hq' in Hq5. rewrite <- Hqt' in Ht5.
    erewrite run_bind by by eapply run_net_get_weights.
    eapply run_net_set_weights; [exact Ht5|].
    by rewrite !initial_weights_shapes. }
  assert (Hdom6 : dom h6 = dom h5).
  { apply set_eq. intros l. rewrite !elem_of_dom. apply Hsome6. }
  (* the Q optimizers *)
  destruct (run_mapM_alloc
              (λ _ : Z, OptimizerObj None (opt_new (value_lr_schedule args) None))
              (range (Z.of_nat (length Qs))) h6)
    as (Qos & h7 & Hrun7 & Hlen7 & Hnd7 & Hnew7 & Hdom7 & Hframe7 & Hvals7).
  rewrite length_range, Nat2Z.id in Hlen7. rewrite length_range in Hlen4, Hlen5.
  assert (Hdom1 : dom h1 = {[p]} ∪ dom h) by apply dom_insert_L.
  assert (Hdom2 : dom h2 = {[pt]} ∪ dom h1) by apply dom_insert_L.
  assert (Hdom3 : dom h3 = {[po]} ∪ dom h2) by apply dom_insert_L.
  destruct (allocation_order _ _ _ _ _ _ _ p pt po Qs Qts Qos
              Hf1 Hdom1 Hf2 Hdom2 Hf3 Hdom3 Hnew4 Hdom4 Hnew5 Hdom5 Hdom6 Hnew7)
    as (Hppt & Hold & HQs_new & HQts_new & HQos_new).
  (* lookups that survive to the end *)
  assert (Hkeep : ∀ l, l ∉ Qs → l ∉ Qts → l ∉ Qos → h7 !! l = h3 !! l).
  { intros l H4 H5 H7. by rewrite Hframe7, Hframe6, Hframe5, Hframe4. }
  exists p, pt, po, Qs, Qts, Qos, h7.
  split.
  { intros B k. rewrite (run_bind _ _ _ _ _ Hrun1). fold h1.
    rewrite (run_bind _ _ _ _ _ Hrun2). fold h2.
    unfold new_optimizer at 1. rewrite (run_bind _ _ _ _ _ Hrun3). fold h3.
    unfold MLPNet.
    rewrite (run_bind _ _ _ _ _ Hrun4). rewrite (run_bind _ _ _ _ _ Hrun5).
    rewrite (run_bind _ _ _ _ _ Hrun6).
    unfold new_optimizer. by rewrite (run_bind _ _ _ _ _ Hrun7). }
  split; [lia|]. split; [lia|]. split; [done|].
  split.
  { apply NoDup_cons. split; [|apply NoDup_cons; split; [|apply NoDup_app; split; [done|by split]]].
    - intros [Heq|Hin]%elem_of_cons; [by destruct Hppt as (? & _)|].
      apply elem_of_app in Hin as [Hin|Hin]; [by destruct (HQs_new _ Hin)|by destruct (HQts_new _ Hin)].
    - intros [Hin|Hin]%elem_of_app;
        [by destruct (HQs_new _ Hin) as (_ & ? & _)|by destruct (HQts_new _ Hin) as (_ & ? & _)]. }
  split.
  { apply NoDup_app. split; [done|]. split; [|apply NoDup_singleton].
    intros o Ho [->|Hin]%elem_of_cons; [|by apply elem_of_nil in Hin].
    by destruct (HQos_new _ Ho) as (_ & _ & ? & _). }
  split.
  { intros l Hl. split.
    - rewrite Hkeep.
      + destruct (Hold _ Hl) as (? & ? & ?).
        unfold h3, h2, h1. by rewrite !lookup_insert_ne.
      + intros Hin. by destruct (HQs_new _ Hin) as (_ & _ & _ & ?).
      + intros Hin. by destruct (HQts_new _ Hin) as (_ & _ & _ & ? & _).
      + intros Hin. by destruct (HQos_new _ Hin) as (_ & _ & _ & ? & _).
    - intros Hin. rewrite !elem_of_cons, !elem_of_app in Hin.
      destruct (Hold _ Hl) as (? & ? & ?).
      destruct Hin as [->|[->|[->|[Hin|[Hin|Hin]]]]]; [done..| | |].
      + by destruct (HQs_new _ Hin) as (_ & _ & _ & ?).
      + by destruct (HQts_new _ Hin) as (_ & _ & _ & ? & _).
      + by destruct (HQos_new _ Hin) as (_ & _ & _ & ? & _). }
  split.
  { intros l Hin. rewrite Hdom7, Hdom6, Hdom5, Hdom4, Hdom3, Hdom2, Hdom1.
    rewrite !elem_of_cons, !elem_of_app in Hin.
    rewrite !elem_of_union, !elem_of_singleton, !elem_of_list_to_set. tauto. }
  assert (Hnotin : ∀ l, l = p ∨ l = pt ∨ l = po → (l ∉ Qs) ∧ (l ∉ Qts) ∧ l ∉ Qos).
  { intros l Hl. repeat split; intros Hin.
    - destruct (HQs_new _ Hin) as (? & ? & ? & _). naive_solver.
    - destruct (HQts_new _ Hin) as (? & ? & ? & _). naive_solver.
    - destruct (HQos_new _ Hin) as (? & ? & ? & _). naive_solver. }
  split.
  { destruct (Hnotin p) as (? & ? & ?); [by left|]. rewrite Hkeep by done.
    unfold h3, h2. rewrite !lookup_insert_ne by by destruct Hppt as (? & ? & ?).
    unfold h1. by rewrite lookup_insert_eq. }
  split.
  { destruct (Hnotin pt) as (? & ? & ?); [by right; left|]. rewrite Hkeep by done.
    unfold h3. rewrite lookup_insert_ne by by destruct Hppt as (? & ? & ?).
    unfold h2. by rewrite lookup_insert_eq. }
  split.
  { destruct (Hnotin po) as (? & ? & ?); [by right; right|]. rewrite Hkeep by done.
    unfold h3. rewrite lookup_insert_eq. eauto. }
  split.
  { intros o [i Ho]%list_elem_of_lookup.
    destruct (lookup_lt_is_Some_2 (range (Z.of_nat (length Qs))) i) as [x Hx].
    { rewrite length_range, Nat2Z.id, <- Hlen7. by eapply lookup_lt_Some. }
    rewrite (Hvals7 i x o Hx Ho). eauto. }
  intros i q qt Hq Hqt.
  pose proof (list_elem_of_lookup_2 _ _ _ Hq) as Hq_in.
  pose proof (list_elem_of_lookup_2 _ _ _ Hqt) as Hqt_in.
  assert (Hq5 : h5 !! q = Some (Network ("Q" +:+ pretty (Z.of_nat i))
                            (initial_weights (od + ad) 2 128 1 ("Q" +:+ pretty (Z.of_nat i))))).
  { rewrite Hframe5; [by apply HQ4|]. by apply Hdisj. }
  split.
  - rewrite Hframe7, Hframe6; [done|by apply Hdisj|].
    intros Hin. by destruct (HQos_new _ Hin) as (_ & _ & _ & _ & ? & _).
  - rewrite Hframe7.
    + destruct (Hvals6 i q qt Hq Hqt) as (oq & ot & Hoq & Hot & ->).
      rewrite Hq5 in Hoq. injection Hoq as <-.
      rewrite (HQt5 i qt Hqt) in Hot. by injection Hot as <-.
    + intros Hin. by destruct (HQos_new _ Hin) as (_ & _ & _ & _ & _ & ?).
Qed.

(** [__init__] on two Box spaces whose dimensions are known, with an
    ensemble size that is not negative: it returns an ensemble in a
    well-formed state, and leaves the objects the store already held. *)
Lemma run_init obs_space act_space (args : Args F) h od ad :
  is_Box obs_space = true → is_Box act_space = true →
  match obs_dim args with None => shape0 obs_space | Some d => Return d end = Return od →
  match act_dim args with None => shape0 act_space | Some d => Return d end = Return ad →
  (0 ≤ Q_num args)%Z →
  ∃ self h', PolicyWithQs.init obs_space act_space args h = (Return self, h') ∧
    PolicyWithQs.args self = args ∧ wf self h' ∧
    (∀ l, l ∈ dom h → h' !! l = h !! l) ∧
    h' !! PolicyWithQs.policy self
      = Some (Network "policy" (initial_weights od 2 128 (ad * 2) "policy")) ∧
    h' !! PolicyWithQs.policy_target self
      = Some (Network "policy_target" (initial_weights od 2 128 (ad * 2) "policy_target")) ∧
    (∀ i q qt, PolicyWithQs.Qs self !! i = Some q → PolicyWithQs.Q_targets self !! i = Some qt →
       h' !! q = Some (Network ("Q" +:+ pretty (Z.of_nat i))
                         (initial_weights (od + ad) 2 128 1 ("Q" +:+ pretty (Z.of_nat i)))) ∧
       h' !! qt = Some (Network ("Q_target" +:+ pretty (Z.of_nat i))
                          (initial_weights (od + ad) 2 128 1 ("Q" +:+ pretty (Z.of_nat i))))) ∧
    match args_log_alpha args with
    | LogAlphaAuto => ∃ la, PolicyWithQs.log_alpha self = PolicyWithQs.LogAlphaVar la ∧
                            h' !! la = Some (TfVariable "log_alpha" [init_log_alpha args])
    | LogAlphaValue v => PolicyWithQs.log_alpha self = PolicyWithQs.LogAlphaConst v
    end.
Proof.
  intros Hobs Hact Hod Had HQn.
  destruct (run_init_networks args od ad h HQn)
    as (p & pt & po & Qs & Qts & Qos & h7 & Hk & HQnum & Hlt & Hlo & Hnd & Hndo & Hold & Hdom
        & Hp & Hpt & [pst Hpo] & HQos & HQ).
  unfold PolicyWithQs.init.
  erewrite run_bind by (unfold lift; by rewrite Hobs).
  erewrite run_bind by (unfold lift; by rewrite Hact).
  erewrite run_bind by (unfold lift; by rewrite Hod).
  erewrite run_bind by (unfold lift; by rewrite Had).
  (* what holds of the networks in any store that keeps them *)
  assert (Hwf_common : ∀ self h',
    PolicyWithQs.args self = args → PolicyWithQs.policy self = p →
    PolicyWithQs.policy_target self = pt → PolicyWithQs.policy_optimizer self = po →
    PolicyWithQs.Qs self = Qs → PolicyWithQs.Q_targets self = Qts →
    PolicyWithQs.Q_optimizers self = Qos →
    PolicyWithQs.models self = Qs ++ p :: alpha_locs self →
    PolicyWithQs.optimizers self = Qos ++ po :: option_list (PolicyWithQs.log_alpha_optimizer self) →
    length (option_list (PolicyWithQs.log_alpha_optimizer self)) = length (alpha_locs self) →
    NoDup (PolicyWithQs.optimizers self) →
    Forall (λ o, is_optimizer_at h' o = true) (option_list (PolicyWithQs.log_alpha_optimizer self)) →
    Forall (λ l, is_variable_at h' l = true) (alpha_locs self) →
    (∀ l, l ∈ dom h7 → h' !! l = h7 !! l) →
    wf self h').
  { intros self h' Hargs Hsp Hspt Hspo HsQ HsQt HsQo Hmodels Hopts Hal Hndopt Hlao Hvars Hkeep.
    assert (Hk7 : ∀ l, l ∈ p :: pt :: po :: Qs ++ Qts ++ Qos → h' !! l = h7 !! l).
    { intros l Hl. apply Hkeep. by apply Hdom. }
    unfold wf. rewrite Hargs, Hsp, Hspt, Hspo, HsQ, HsQt, HsQo.
    split; [done|]. split; [done|]. split; [exact Hmodels|].
    split; [exact Hopts|]. split; [done|]. split; [done|]. split; [done|].
    split.
    { rewrite Hopts, Forall_app, Forall_cons. split; [|split; [|done]].
      - apply Forall_forall. intros o Ho. destruct (HQos o Ho) as [st Hst].
        unfold is_optimizer_at, signature_at. rewrite Hk7, Hst; [done|].
        rewrite !elem_of_cons, !elem_of_app. tauto.
      - unfold is_optimizer_at, signature_at. rewrite Hk7, Hpo; [done|].
        rewrite !elem_of_cons. tauto. }
    split; [done|].
    assert (Hsp' : shapes_at h' p = Some (mlp_shapes od 2 128 (ad * 2))).
    { erewrite shapes_at_network; [by rewrite initial_weights_shapes|].
      rewrite Hk7; [exact Hp|]. rewrite !elem_of_cons. tauto. }
    assert (Hspt' : shapes_at h' pt = Some (mlp_shapes od 2 128 (ad * 2))).
    { erewrite shapes_at_network; [by rewrite initial_weights_shapes|].
      rewrite Hk7; [exact Hpt|]. rewrite !elem_of_cons. tauto. }
    assert (HsQ' : ∀ i q qt, Qs !! i = Some q → Qts !! i = Some qt →
              shapes_at h' q = Some (mlp_shapes (od + ad) 2 128 1) ∧
              shapes_at h' qt = Some (mlp_shapes (od + ad) 2 128 1)).
    { intros i q qt Hq Hqt. destruct (HQ i q qt Hq Hqt) as [Hhq Hhqt].
      apply list_elem_of_lookup_2 in Hq, Hqt. split.
      - erewrite shapes_at_network; [by rewrite initial_weights_shapes|].
        rewrite Hk7; [exact Hhq|]. rewrite !elem_of_cons, !elem_of_app. tauto.
      - erewrite shapes_at_network; [by rewrite initial_weights_shapes|].
        rewrite Hk7; [exact Hhqt|]. rewrite !elem_of_cons, !elem_of_app. tauto. }
    split; [rewrite Hsp'; eauto|]. split; [by rewrite Hsp', Hspt'|].
    split.
    { apply Forall2_same_length_lookup. split; [done|].
      intros i q qt Hq Hqt. destruct (HsQ' i q qt Hq Hqt) as [-> ->]. eauto. }
    apply Forall_lookup. intros i q Hq.
    destruct (lookup_lt_is_Some_2 Qts i) as [qt Hqt].
    { rewrite Hlt. by eapply lookup_lt_Some. }
    destruct (HsQ' i q qt Hq Hqt) as [Hsq _].
    destruct Qs as [|q0 Qs'] eqn:HQs; [done|]. simpl.
    destruct (lookup_lt_is_Some_2 Qts 0) as [qt0 Hqt0]; [rewrite Hlt; simpl; lia|].
    destruct (HsQ' 0 q0 qt0 eq_refl Hqt0) as [Hsq0 _].
    unfold count_at. by rewrite Hsq, Hsq0. }
  pose proof (Hk _ (λ policy policy_target policy_optimizer Qs Q_targets Q_optimizers,
      match args_log_alpha args with
      | LogAlphaAuto =>
          log_alpha ← alloc (TfVariable "log_alpha" [init_log_alpha args]);
          log_alpha_optimizer ←
            new_optimizer (log_alpha_lr_schedule args) (Some "log_alpha_adam_opt");
          mret {| PolicyWithQs.args := args; PolicyWithQs.policy := policy;
                  PolicyWithQs.policy_target := policy_target;
                  PolicyWithQs.policy_optimizer := policy_optimizer;
                  PolicyWithQs.Qs := Qs; PolicyWithQs.Q_targets := Q_targets;
                  PolicyWithQs.Q_optimizers := Q_optimizers;
                  PolicyWithQs.log_alpha := PolicyWithQs.LogAlphaVar log_alpha;
                  PolicyWithQs.log_alpha_optimizer := Some log_alpha_optimizer;
                  PolicyWithQs.models := Qs ++ [policy; log_alpha];
                  PolicyWithQs.optimizers :=
                    Q_optimizers ++ [policy_optimizer; log_alpha_optimizer] |}
      | LogAlphaValue v =>
          mret {| PolicyWithQs.args := args; PolicyWithQs.policy := policy;
                  PolicyWithQs.policy_target := policy_target;
                  PolicyWithQs.policy_optimizer := policy_optimizer;
                  PolicyWithQs.Qs := Qs; PolicyWithQs.Q_targets := Q_targets;
                  PolicyWithQs.Q_optimizers := Q_optimizers;
                  PolicyWithQs.log_alpha := PolicyWithQs.LogAlphaConst v;
                  PolicyWithQs.log_alpha_optimizer := None;
                  PolicyWithQs.models := Qs ++ [policy];
                  PolicyWithQs.optimizers := Q_optimizers ++ [policy_optimizer] |}
      end)) as Heq.
  cbv beta in Heq. rewrite Heq. clear Heq Hk.
  destruct (args_log_alpha args) as [|v].
  - destruct (run_alloc (TfVariable "log_alpha" [init_log_alpha args]) h7) as [Hrun8 Hf8].
    set (la := fresh (dom h7)) in *.
    set (h8 := <[la := TfVariable "log_alpha" [init_log_alpha args]]> h7) in *.
    destruct (run_alloc (OptimizerObj (Some "log_alpha_adam_opt")
                (opt_new (log_alpha_lr_schedule args) (Some "log_alpha_adam_opt"))) h8)
      as [Hrun9 Hf9].
    set (lo := fresh (dom h8)) in *.
    set (h9 := <[lo := OptimizerObj (Some "log_alpha_adam_opt")
                (opt_new (log_alpha_lr_schedule args) (Some "log_alpha_adam_opt"))]> h8) in *.
    assert (Hdom8 : dom h8 = {[la]} ∪ dom h7) by apply dom_insert_L.
    assert (Hlalo : la ≠ lo).
    { intros Heq. apply Hf9. rewrite Hdom8, <- Heq. apply elem_of_union. left.
      by apply elem_of_singleton. }
    assert (Hkeep : ∀ l, l ∈ dom h7 → h9 !! l = h7 !! l).
    { intros l Hl. unfold h9, h8. rewrite !lookup_insert_ne; [done| |].
      - intros Heq. apply Hf8. by rewrite Heq.
      - intros Heq. apply Hf9. rewrite Hdom8, Heq. apply elem_of_union. by right. }
    assert (Hlo7 : lo ∉ dom h7).
    { intros Hin. apply Hf9. rewrite Hdom8. apply elem_of_union. by right. }
    eexists _, h9. split.
    { rewrite (run_bind _ _ _ _ _ Hrun8). fold h8. unfold new_optimizer.
      by rewrite (run_bind _ _ _ _ _ Hrun9). }
    split; [done|]. split.
    { apply Hwf_common; try done.
      - simpl. apply NoDup_app. split; [by apply NoDup_app in Hndo as (? & _)|].
        split.
        + intros o Ho [Heq|[Heq|Hin]%elem_of_cons]%elem_of_cons.
          * subst o. apply NoDup_app in Hndo as (_ & Hd & _). apply (Hd _ Ho). by left.
          * apply Hlo7. rewrite <- Heq. apply Hdom. rewrite !elem_of_cons, !elem_of_app. tauto.
          * by apply elem_of_nil in Hin.
        + apply NoDup_cons. split; [|apply NoDup_singleton].
          intros Hin%list_elem_of_singleton. apply Hlo7. rewrite <- Hin. apply Hdom.
          rewrite !elem_of_cons. tauto.
      - apply Forall_singleton. unfold is_optimizer_at, signature_at, h9.
        by rewrite lookup_insert_eq.
      - apply Forall_singleton. unfold is_variable_at, signature_at, h9, h8.
        by rewrite lookup_insert_ne, lookup_insert_eq by done. }
    split.
    { intros l Hl. destruct (Hold l Hl) as [Heq _]. rewrite Hkeep; [done|].
      apply elem_of_dom. rewrite Heq. by apply elem_of_dom. }
    split; [simpl; rewrite Hkeep; [done|apply Hdom; rewrite !elem_of_cons; tauto]|].
    split; [simpl; rewrite Hkeep; [done|apply Hdom; rewrite !elem_of_cons; tauto]|].
    split.
    { simpl. intros i q qt Hq Hqt. destruct (HQ i q qt Hq Hqt) as [Hhq Hhqt].
      apply list_elem_of_lookup_2 in Hq, Hqt.
      rewrite !Hkeep; [done|apply Hdom; rewrite !elem_of_cons, !elem_of_app; tauto..]. }
    exists la. split; [done|]. unfold h9, h8.
    by rewrite lookup_insert_ne, lookup_insert_eq by done.
  - eexists _, h7. split; [done|]. split; [done|]. split.
    { by apply Hwf_common. }
    split; [intros l Hl; by destruct (Hold l Hl)|].
    split; [done|]. split; [done|]. split; [exact HQ|done].
Qed.
End Construction.

(** ** Reading and writing the weights *)

Section Weights.
Context {F : Type} `{Arith F} `{Optimizer F} `{MLPNetModel F}.

Lemma run_mapM_reads {A B} (f : A → M B) (g : A → B) (l : list A) h :
  (∀ x, x ∈ l → f x h = (Return (g x), h)) → mapM f l h = (Return (g <$> l), h).
Proof.
  induction l as [|x l IH]; intros Hf; [done|].
  cbn [mapM]. rewrite (run_bind _ _ _ _ _ (Hf x (list_elem_of_here _ _))).
  rewrite (run_bind _ _ _ _ _ (IH (λ y Hy, Hf y (list_elem_of_further _ _ _ Hy)))). done.
Qed.

(** A loop stops at the first round that raises. *)
Lemma run_for_each_raise {A} (l1 l2 : list A) (x : A) (body : A → M unit) h h1 e h2 :
  for_each l1 body h = (Return tt, h1) → body x h1 = (Raise e, h2) →
  for_each (l1 ++ x :: l2) body h = (Raise e, h2).
Proof.
  revert h. induction l1 as [|y l1 IH]; intros h Hrun Hx; simpl in *.
  - injection Hrun as <-. by rewrite (run_bind_raise _ _ _ _ _ Hx).
  - unfold mbind, M_bind in Hrun |- *.
    destruct (body y h) as [[[]|e'] h'] eqn:Hy; [|done]. by apply IH.
Qed.

(** Every model of a well-formed ensemble is a network or a variable, and
    no model is listed twice. *)
Lemma wf_models self h :
  wf self h →
  NoDup (PolicyWithQs.models self) ∧
  ∀ l, l ∈ PolicyWithQs.models self →
    (∃ name ws, h !! l = Some (Network name ws)) ∨ (∃ name x, h !! l = Some (TfVariable name x)).
Proof.
  intros Hwf.
  assert (Hkinds : ∀ l, l ∈ PolicyWithQs.models self →
    (∃ name ws, h !! l = Some (Network name ws)) ∨ (∃ name x, h !! l = Some (TfVariable name x))).
  { intros l Hl. pose proof Hwf as (_ & _ & Hmodels & _ & _ & _ & _ & _ & Hvars & _).
    rewrite Hmodels in Hl. apply elem_of_app in Hl as [Hl|[->|Hl]%elem_of_cons].
    - apply list_elem_of_lookup in Hl as [i Hi].
      destruct (wf_Q_lookup _ _ _ _ Hwf Hi) as (name & ws & _ & _ & _ & Hq & _). eauto.
    - destruct (wf_policy_lookup _ _ Hwf) as (name & ws & _ & _ & Hp & _). eauto.
    - rewrite Forall_forall in Hvars. right. by apply is_variable_at_true, Hvars. }
  split; [|done].
  pose proof Hwf as (_ & _ & Hmodels & _ & _ & Hnd & _ & _ & Hvars & _).
  rewrite Hmodels. apply NoDup_app. split; [by eapply wf_NoDup_Qs|]. split.
  - intros q Hq [->|Hin]%elem_of_cons.
    + apply NoDup_cons_1_1 in Hnd. apply Hnd. right. apply elem_of_app. by left.
    + destruct (wf_Q_network _ _ _ Hwf Hq) as (Hnet & _).
      by destruct (wf_network_kind _ _ _ Hwf Hnet) as [_ Hno].
  - apply NoDup_cons. split.
    + intros Hin. destruct (wf_policy_lookup _ _ Hwf) as (name & ws & _ & _ & Hp & _).
      destruct (wf_network_kind self h (PolicyWithQs.policy self) Hwf) as [_ Hno]; [|done].
      rewrite (shapes_at_network _ _ _ _ Hp). eauto.
    + unfold alpha_locs. destruct (PolicyWithQs.log_alpha self);
        [apply NoDup_singleton|apply NoDup_nil_2].
Qed.

Lemma run_get_weights self h :
  wf self h → PolicyWithQs.get_weights self h = (Return (snapshot self h), h).
Proof.
  intros Hwf. unfold PolicyWithQs.get_weights, snapshot.
  apply run_mapM_reads. intros l Hl.
  destruct (wf_models _ _ Hwf) as [_ Hkinds].
  unfold entry_at.
  destruct (Hkinds l Hl) as [(name & ws & Hh)|(name & x & Hh)];
    rewrite (run_bind _ _ _ _ _ (run_deref _ _ _ Hh)), Hh; simpl; [|done].
  by rewrite (run_bind _ _ _ _ _ (run_net_get_weights _ _ _ _ Hh)).
Qed.

Lemma run_trainable_weights self h :
  wf self h →
  PolicyWithQs.trainable_weights self h
  = (Return (concat (variables_at h <$> PolicyWithQs.models self)), h).
Proof.
  intros Hwf. unfold PolicyWithQs.trainable_weights.
  erewrite run_bind; [reflexivity|].
  apply run_mapM_reads. intros l Hl.
  destruct (wf_models _ _ Hwf) as [_ Hkinds].
  unfold PolicyWithQs.model_trainable_weights, variables_at.
  destruct (Hkinds l Hl) as [(name & ws & Hh)|(name & x & Hh)];
    rewrite (run_bind _ _ _ _ _ (run_deref _ _ _ Hh)), Hh; simpl; [|done].
  by eapply run_net_trainable_weights.
Qed.

(** One entry written back to its model: a network takes arrays of its
    shapes; a variable handed back as itself is assigned its own value. *)
Lemma run_set_entry h h0 l :
  signature_at h l = signature_at h0 l →
  ((∃ name ws, h0 !! l = Some (Network name ws)) ∨ (∃ name x, h0 !! l = Some (TfVariable name x))) →
  ∃ o, PolicyWithQs.set_entry l (entry_at h0 l) h = (Return tt, <[l := o]> h) ∧
    obj_signature o = obj_signature (default o (h !! l)) ∧ is_Some (h !! l) ∧
    (∀ name ws, h0 !! l = Some (Network name ws) → o = Network name ws) ∧
    (∀ name x, h0 !! l = Some (TfVariable name x) → h !! l = Some o).
Proof.
  intros Hsig Hkind. unfold PolicyWithQs.set_entry, entry_at, signature_at in *.
  destruct Hkind as [(name & ws & Hh0)|(name & x & Hh0)]; rewrite Hh0 in Hsig |- *.
  - destruct (h !! l) as [[name' ws'| |]|] eqn:Hh; simpl in Hsig; try done.
    injection Hsig as -> Hshape.
    exists (Network name ws). rewrite (run_bind _ _ _ _ _ (run_deref _ _ _ Hh)). simpl.
    split; [by eapply run_net_set_weights|]. split; [simpl; by rewrite Hshape|].
    split; [eauto|]. split; [by intros ? ? [= <- <-]|done].
  - destruct (h !! l) as [[|name' x'|]|] eqn:Hh; simpl in Hsig; try done.
    injection Hsig as -> Hshape.
    exists (TfVariable name x'). rewrite (run_bind _ _ _ _ _ (run_deref _ _ _ Hh)). simpl.
    split.
    { rewrite (run_bind _ _ _ _ _ (run_read_scalar _ _ _ _ Hh)).
      by eapply run_assign_scalar. }
    split; [done|]. split; [eauto|]. split; [done|]. by intros ? ? _.
Qed.

Lemma py_getitem_beyond {A} (l : list A) k :
  py_getitem l (Z.of_nat (length l + k)) = Raise IndexError.
Proof.
  unfold py_getitem.
  destruct (Z.ltb_spec (Z.of_nat (length l + k)) 0) as [?|_]; [lia|].
  destruct (Z.ltb_spec (Z.of_nat (length l + k)) 0) as [?|_]; [lia|].
  rewrite Nat2Z.id, lookup_ge_None_2; [done|lia].
Qed.

(** [set_weights] on the first [k] entries of what [get_weights] returned
    in the state [h0], in a state [h] of the same signatures: the first [k]
    models are written, the others are not reached. *)
Lemma run_set_weights_prefix self h0 h k :
  wf self h0 → same_signatures h0 h →
  ∃ h', PolicyWithQs.set_weights self (take k (snapshot self h0)) h = (Return tt, h') ∧
    same_signatures h h' ∧
    (∀ l, l ∉ take k (PolicyWithQs.models self) → h' !! l = h !! l) ∧
    (∀ l name ws, l ∈ take k (PolicyWithQs.models self) → h0 !! l = Some (Network name ws) →
       h' !! l = Some (Network name ws)) ∧
    (∀ l name x, l ∈ take k (PolicyWithQs.models self) → h0 !! l = Some (TfVariable name x) →
       h' !! l = h !! l).
Proof.
  intros Hwf Hsame.
  destruct (wf_models _ _ Hwf) as [Hnd Hkinds].
  pose (I := λ (j : nat) (hj : gmap loc obj),
    same_signatures h hj ∧
    (∀ l, l ∉ take j (PolicyWithQs.models self) → hj !! l = h !! l) ∧
    (∀ i l, i < j → PolicyWithQs.models self !! i = Some l →
       (∀ name ws, h0 !! l = Some (Network name ws) → hj !! l = Some (Network name ws)) ∧
       (∀ name x, h0 !! l = Some (TfVariable name x) → hj !! l = h !! l))).
  unfold PolicyWithQs.set_weights.
  match goal with |- ∃ h', for_each ?l ?body h = _ ∧ _ =>
    destruct (run_for_each I l body h) as (h' & Hrun & Hs & Hframe & Hvals) end.
  - split; [done|]. split; [done|]. intros; lia.
  - intros j [i w] hj Hj (Hs & Hframe & Hvals).
    rewrite list_lookup_imap in Hj.
    destruct (take k (snapshot self h0) !! j) as [w'|] eqn:Hw; [|done].
    apply lookup_take_Some in Hw as [Hw Hjk]. unfold snapshot in Hw.
    rewrite list_lookup_fmap in Hw.
    destruct (PolicyWithQs.models self !! j) as [l|] eqn:Hl; [|done].
    simpl in Hw, Hj. injection Hw as <-. injection Hj as <- <-.
    pose proof (list_elem_of_lookup_2 _ _ _ Hl) as Hl_in.
    assert (Hlj : hj !! l = h !! l).
    { apply Hframe. intros (j' & Hj' & Hlt)%elem_of_take.
      pose proof (NoDup_lookup _ _ _ _ Hnd Hj' Hl). lia. }
    destruct (run_set_entry hj h0 l) as (o & Hset & Hsig & Hsome & Hnet & Hvar).
    { unfold signature_at. rewrite Hlj. apply Hsame. }
    { by apply Hkinds. }
    exists (<[l := o]> hj). split.
    { cbn [fst snd]. unfold lift.
      erewrite run_bind by by rewrite (py_getitem_nat _ _ _ Hl). exact Hset. }
    split; [|split].
    + eapply same_signatures_trans; [exact Hs|].
      destruct Hsome as [o' Ho']. rewrite Ho' in Hsig. simpl in Hsig.
      by eapply same_signatures_insert.
    + intros l' Hl'. rewrite (take_S_r _ _ _ Hl) in Hl'.
      rewrite lookup_insert_ne by set_solver. apply Hframe. set_solver.
    + intros j' l' Hj' Hl'j. destruct (decide (j' = j)) as [->|Hne].
      * assert (l' = l) as -> by congruence. rewrite lookup_insert_eq. split.
        -- intros name ws Hh0. by rewrite (Hnet _ _ Hh0).
        -- intros name x Hh0. by rewrite <- (Hvar _ _ Hh0).
      * rewrite lookup_insert_ne.
        -- apply (Hvals j'); [lia|done].
        -- intros ->. pose proof (NoDup_lookup _ _ _ _ Hnd Hl Hl'j). lia.
  - assert (Hlen : length (imap (λ i weight, (Z.of_nat i, weight)) (take k (snapshot self h0)))
                   = k `min` length (PolicyWithQs.models self)).
    { unfold snapshot. by rewrite length_imap, length_take, length_fmap. }
    assert (Htake : take (k `min` length (PolicyWithQs.models self)) (PolicyWithQs.models self)
                    = take k (PolicyWithQs.models self)).
    { destruct (decide (k ≤ length (PolicyWithQs.models self))).
      - by rewrite Nat.min_l.
      - rewrite Nat.min_r by lia. by rewrite !take_ge by lia. }
    rewrite Hlen in Hframe, Hvals. rewrite Htake in Hframe.
    exists h'. split; [done|]. split; [done|]. split; [done|]. split.
    + intros l name ws (i & Hi & Hik)%elem_of_take Hh0.
      destruct (Hvals i l) as [Hnet _]; [|done|by eapply Hnet].
      apply lookup_lt_Some in Hi. lia.
    + intros l name x (i & Hi & Hik)%elem_of_take Hh0.
      destruct (Hvals i l) as [_ Hvar]; [|done|by eapply Hvar].
      apply lookup_lt_Some in Hi. lia.
Qed.

(** The same for the whole list *)
Lemma run_set_weights_snapshot self h0 h :
  wf self h0 → same_signatures h0 h →
  ∃ h', PolicyWithQs.set_weights self (snapshot self h0) h = (Return tt, h') ∧
    same_signatures h h' ∧
    (∀ l, l ∉ PolicyWithQs.models self → h' !! l = h !! l) ∧
    (∀ l name ws, l ∈ PolicyWithQs.models self → h0 !! l = Some (Network name ws) →
       h' !! l = Some (Network name ws)) ∧
    (∀ l name x, l ∈ PolicyWithQs.models self → h0 !! l = Some (TfVariable name x) →
       h' !! l = h !! l).
Proof.
  intros Hwf Hsame.
  destruct (run_set_weights_prefix self h0 h (length (PolicyWithQs.models self)) Hwf Hsame)
    as (h' & Hrun & Hs & Hframe & Hnet & Hvar).
  rewrite (take_ge (snapshot self h0)) in Hrun by (unfold snapshot; by rewrite length_fmap).
  rewrite take_ge in Hframe, Hnet, Hvar by done.
  by exists h'.
Qed.

(** More entries than models: the round after the last model raises. *)
Lemma run_set_weights_too_long self h0 h extra rest :
  wf self h0 → same_signatures h0 h →
  ∃ h', PolicyWithQs.set_weights self (snapshot self h0) h = (Return tt, h') ∧
    PolicyWithQs.set_weights self (snapshot self h0 ++ extra :: rest) h
    = (Raise IndexError, h').
Proof.
  intros Hwf Hsame.
  destruct (run_set_weights_snapshot self h0 h Hwf Hsame) as (h' & Hrun & _).
  exists h'. split; [done|].
  unfold PolicyWithQs.set_weights in *. rewrite imap_app. cbn [imap].
  eapply run_for_each_raise; [exact Hrun|].
  cbn [fst snd]. apply run_bind_raise. unfold lift, snapshot.
  by rewrite length_fmap, py_getitem_beyond.
Qed.
End Weights.

(** * Further properties of the ensemble *)

Section EnsembleProperties.
Context {F : Type} `{Arith F} `{Optimizer F} `{MLPNetModel F}.


(** X2. In the ensemble [__init__] returns, the policy network and the
    policy_target network each hold the initial values of a network of
    their own name (policy_target is built like policy and is not given
    the values of policy), while every Q_target network holds the values
    of its Q network. *)
Theorem init_initial_values obs_space act_space (args : Args F) h od ad :
  is_Box obs_space = true → is_Box act_space = true →
  match obs_dim args with None => shape0 obs_space | Some d => Return d end = Return od →
  match act_dim args with None => shape0 act_space | Some d => Return d end = Return ad →
  (0 ≤ Q_num args)%Z →
  ∃ self h', PolicyWithQs.init obs_space act_space args h = (Return self, h') ∧
    weights_at h' (PolicyWithQs.policy self)
      = Some (initial_weights od 2 128 (ad * 2) "policy") ∧
    weights_at h' (PolicyWithQs.policy_target self)
      = Some (initial_weights od 2 128 (ad * 2) "policy_target") ∧
    ∀ i q qt, PolicyWithQs.Qs self !! i = Some q → PolicyWithQs.Q_targets self !! i = Some qt →
      weights_at h' q
        = Some (initial_weights (od + ad) 2 128 1 ("Q" +:+ pretty (Z.of_nat i))) ∧
      weights_at h' qt = weights_at h' q.
Proof.
  intros Hobs Hact Hod Had HQn.
  destruct (run_init obs_space act_space args h od ad Hobs Hact Hod Had HQn)
    as (self & h' & Hrun & _ & _ & _ & Hp & Hpt & HQ & _).
  exists self, h'. split; [done|]. unfold weights_at. rewrite Hp, Hpt.
  split; [done|]. split; [done|]. intros i q qt Hq Hqt.
  destruct (HQ i q qt Hq Hqt) as [-> ->]. done.
Qed.

(** X3. [__init__] refuses a space that is not a Box with an
    AssertionError, before anything is built: the store is as it was. *)
Theorem init_rejects_discrete_space obs_space act_space (args : Args F) h :
  is_Box obs_space = false ∨ is_Box act_space = false →
  PolicyWithQs.init obs_space act_space args h = (Raise AssertionError, h).
Proof.
  intros Hcase. unfold PolicyWithQs.init.
  destruct (is_Box obs_space) eqn:Hobs.
  - destruct Hcase as [?|Hact]; [done|].
    erewrite run_bind by reflexivity.
    apply run_bind_raise. unfold lift. by rewrite Hact.
  - by apply run_bind_raise.
Qed.

(** X8. [update_Q_targets] returns in every well-formed state; every
    Q_target group then holds the blend tau * Q + (1 - tau) * Q_target of
    the parameters before the call, every object that is not a Q_target is
    as before, and the state is well-formed again. *)
Theorem update_Q_targets_blends_targets self h :
  wf self h →
  ∃ h', PolicyWithQs.update_Q_targets self h = (Return tt, h') ∧
    wf self h' ∧
    (∀ l, l ∉ PolicyWithQs.Q_targets self → h' !! l = h !! l) ∧
    (∀ i q qt qs ts,
       PolicyWithQs.Qs self !! i = Some q → PolicyWithQs.Q_targets self !! i = Some qt →
       weights_at h q = Some qs → weights_at h qt = Some ts →
       weights_at h' qt = Some (blend_params (tau (PolicyWithQs.args self)) qs ts) ∧
       weights_at h' q = Some qs).
Proof.
  intros Hwf.
  destruct (run_update_Q_targets self h Hwf) as (h' & Hrun & Hs & Hframe & Hvals).
  exists h'. split; [done|]. split; [by eapply wf_same_signatures|]. split; [done|].
  intros i q qt qs ts Hq Hqt Hqs Hts. split; [by eapply Hvals|].
  unfold weights_at. rewrite Hframe; [done|].
  eapply wf_Q_not_target; [done|]. by eapply list_elem_of_lookup_2.
Qed.

(** X9. Whatever the iteration number and the gradient sequence, and
    whether it returns or raises, [apply_gradients] leaves a well-formed
    state well-formed: no object changes its class, its name or the shapes
    of its parameters. *)
Theorem apply_gradients_keeps_well_formed self iteration grads h :
  wf self h →
  wf self (PolicyWithQs.apply_gradients self iteration grads h).2 ∧
  same_signatures h (PolicyWithQs.apply_gradients self iteration grads h).2.
Proof.
  intros Hwf.
  assert (Hs : same_signatures h (PolicyWithQs.apply_gradients self iteration grads h).2).
  { destruct (run_apply_Q_gradients self grads h Hwf) as (h1 & Hrun1 & Hs1 & _).
    destruct (decide (delay_update (PolicyWithQs.args self) = 0%Z)) as [Hd|Hd].
    - unfold PolicyWithQs.apply_gradients. rewrite (run_bind _ _ _ _ _ Hrun1).
      erewrite run_bind_raise; [done|]. unfold lift, py_mod. by rewrite Hd.
    - destruct (decide ((iteration mod (delay_update (PolicyWithQs.args self)))%Z = 0%Z))
        as [Hmod|Hmod].
      + destruct (run_apply_gradients_update self iteration grads h Hwf Hd Hmod)
          as (? & ? & hf & _ & _ & -> & Hsf & _). done.
      + rewrite run_apply_gradients_delayed by done. by rewrite Hrun1. }
  split; [by eapply wf_same_signatures|done].
Qed.


(** X11. In a well-formed state [get_weights] returns, without changing
    the store, one entry for each member of [self.models]: the arrays of
    the Q groups in order, then those of the policy, then the [log_alpha]
    variable object itself when it is trainable.  No target group is in
    it: two states that agree on the models give the same list. *)
Theorem get_weights_covers_models self h :
  wf self h →
  PolicyWithQs.get_weights self h
  = (Return ((entry_at h <$> PolicyWithQs.Qs self)
             ++ entry_at h (PolicyWithQs.policy self)
             :: (PolicyWithQs.Object <$> alpha_locs self)), h) ∧
  (∀ q, q ∈ PolicyWithQs.Qs self ++ [PolicyWithQs.policy self] →
     ∃ ws, weights_at h q = Some ws ∧ entry_at h q = PolicyWithQs.Arrays ws) ∧
  ∀ h2, wf self h2 → (∀ l, l ∈ PolicyWithQs.models self → h2 !! l = h !! l) →
    (PolicyWithQs.get_weights self h2).1 = (PolicyWithQs.get_weights self h).1.
Proof.
  intros Hwf. rewrite (run_get_weights _ _ Hwf). unfold snapshot.
  pose proof Hwf as (_ & _ & Hmodels & _ & _ & _ & _ & _ & Hvars & _).
  split; [|split].
  - rewrite Hmodels, fmap_app, fmap_cons.
    assert (Heq : entry_at h <$> alpha_locs self = PolicyWithQs.Object <$> alpha_locs self);
      [|by rewrite Heq].
    apply list_fmap_ext. intros i l Hl. rewrite Forall_forall in Hvars.
    destruct (is_variable_at_true _ _ (Hvars l (list_elem_of_lookup_2 _ _ _ Hl)))
      as (name & x & Hh).
    unfold entry_at. by rewrite Hh.
  - intros q [Hq|Hq%list_elem_of_singleton]%elem_of_app.
    + apply list_elem_of_lookup in Hq as [i Hi].
      destruct (wf_Q_lookup _ _ _ _ Hwf Hi) as (name & ws & _ & _ & _ & Hh & _).
      exists ws. unfold weights_at, entry_at. by rewrite Hh.
    + subst q. destruct (wf_policy_lookup _ _ Hwf) as (name & ws & _ & _ & Hh & _).
      exists ws. unfold weights_at, entry_at. by rewrite Hh.
  - intros h2 Hwf2 Hagree. rewrite (run_get_weights _ _ Hwf2). simpl. f_equal.
    unfold snapshot. apply list_fmap_ext. intros i l Hl.
    unfold entry_at. by rewrite (Hagree l (list_elem_of_lookup_2 _ _ _ Hl)).
Qed.

(** X12. Round trip: in a well-formed state, [set_weights] on what
    [get_weights] has just returned returns and leaves the store exactly
    as it is. *)
Theorem set_weights_get_weights_round_trip self h :
  wf self h →
  ∃ weights, PolicyWithQs.get_weights self h = (Return weights, h) ∧
    PolicyWithQs.set_weights self weights h = (Return tt, h).
Proof.
  intros Hwf. exists (snapshot self h). split; [by apply run_get_weights|].
  destruct (run_set_weights_snapshot self h h Hwf (same_signatures_refl h))
    as (h' & Hrun & _ & Hframe & Hnet & Hvar).
  rewrite Hrun. f_equal. apply map_eq. intros l.
  destruct (decide (l ∈ PolicyWithQs.models self)) as [Hl|Hl]; [|by apply Hframe].
  destruct (wf_models _ _ Hwf) as [_ Hkinds].
  destruct (Hkinds l Hl) as [(name & ws & Hh)|(name & x & Hh)].
  - by rewrite (Hnet l name ws Hl Hh).
  - by rewrite (Hvar l name x Hl Hh).
Qed.

(** X13. What a snapshot restores.  Applied in a later state of the same
    ensemble, [set_weights] on the list [get_weights] returned earlier
    gives the Q groups and the policy the parameters they had then, and
    changes nothing else: the policy_target and the Q_target groups, the
    optimizers, and also [log_alpha] (which the list holds as the variable
    itself, so that it is assigned its present value) stay as they are. *)
Theorem set_weights_restores_optimized_networks self h0 h :
  wf self h0 → same_signatures h0 h →
  ∃ weights h', PolicyWithQs.get_weights self h0 = (Return weights, h0) ∧
    PolicyWithQs.set_weights self weights h = (Return tt, h') ∧
    wf self h' ∧
    (∀ q, q ∈ PolicyWithQs.Qs self ++ [PolicyWithQs.policy self] →
       weights_at h' q = weights_at h0 q) ∧
    (∀ l, l ∉ PolicyWithQs.Qs self ++ [PolicyWithQs.policy self] → h' !! l = h !! l).
Proof.
  intros Hwf Hsame. exists (snapshot self h0).
  destruct (run_set_weights_snapshot self h0 h Hwf Hsame)
    as (h' & Hrun & Hs & Hframe & Hnet & Hvar).
  exists h'. split; [by apply run_get_weights|]. split; [done|].
  pose proof Hwf as (_ & _ & Hmodels & _ & _ & _ & _ & _ & Hvars & _).
  split; [|split].
  - eapply wf_same_signatures; [exact Hs|]. by eapply wf_same_signatures.
  - intros q Hq.
    assert (Hq_in : q ∈ PolicyWithQs.models self).
    { rewrite Hmodels. rewrite elem_of_app, list_elem_of_singleton in Hq.
      rewrite elem_of_app, elem_of_cons. tauto. }
    assert (∃ name ws, h0 !! q = Some (Network name ws)) as (name & ws & Hh).
    { rewrite elem_of_app, list_elem_of_singleton in Hq. destruct Hq as [Hq| ->].
      - apply list_elem_of_lookup in Hq as [i Hi].
        destruct (wf_Q_lookup _ _ _ _ Hwf Hi) as (name & ws & _ & _ & _ & Hh & _). eauto.
      - destruct (wf_policy_lookup _ _ Hwf) as (name & ws & _ & _ & Hh & _). eauto. }
    unfold weights_at. by rewrite (Hnet q name ws Hq_in Hh), Hh.
  - intros l Hl.
    destruct (decide (l ∈ PolicyWithQs.models self)) as [Hin|Hin]; [|by apply Hframe].
    rewrite Hmodels in Hin. rewrite elem_of_app, elem_of_cons in Hin.
    rewrite elem_of_app, list_elem_of_singleton in Hl.
    destruct Hin as [?|[?|Hin]]; [tauto..|].
    rewrite Forall_forall in Hvars.
    destruct (is_variable_at_true _ _ (Hvars l Hin)) as (name & x & Hh).
    eapply Hvar; [|exact Hh]. rewrite Hmodels, elem_of_app, elem_of_cons. tauto.
Qed.

End EnsembleProperties.

(** ** The order of the trainable variables *)

Lemma concat_equal_chunks {A} (L : nat) (cs : list (list A)) (rest : list A) :
  Forall (λ c, length c = L) cs →
  length (concat cs) = length cs * L ∧
  ∀ i c, cs !! i = Some c → take L (drop (i * L) (concat cs ++ rest)) = c.
Proof.
  induction cs as [|c0 cs IH]; intros Hall; [done|].
  apply Forall_cons in Hall as [Hc0 Hall]. destruct (IH Hall) as [Hlen Hchunk].
  split.
  - simpl. rewrite length_app, Hlen. lia.
  - intros [|i] c Hc; simpl in Hc |- *.
    + injection Hc as <-. rewrite <- app_assoc. by apply take_app_length'.
    + rewrite <- app_assoc, (drop_app_add' c0 _ L (i * L)) by done. by apply Hchunk.
Qed.

Section TrainableWeights.
Context {F : Type} `{Arith F} `{Optimizer F} `{MLPNetModel F}.

(** X15. The property [trainable_weights] lists, without changing the
    store, the variables of the optimized groups in the order in which
    [apply_gradients] slices the gradients.  With [L] the parameter count
    of the Q groups, the variables of the [i]-th Q group are the [L]
    entries from position [i * L] on, those of the policy follow from
    position [Q_num * L] on, and the [log_alpha] variable, when trainable,
    is last. *)
Theorem trainable_weights_follow_gradient_layout self h :
  wf self h →
  let L := count_at h (default (PolicyWithQs.policy self) (head (PolicyWithQs.Qs self))) in
  let Lp := count_at h (PolicyWithQs.policy self) in
  ∃ vars, PolicyWithQs.trainable_weights self h = (Return vars, h) ∧
    length vars = length (PolicyWithQs.Qs self) * L + Lp + length (alpha_locs self) ∧
    (∀ i q, PolicyWithQs.Qs self !! i = Some q →
       take L (drop (i * L) vars) = NetVar q <$> seq 0 L) ∧
    take Lp (drop (length (PolicyWithQs.Qs self) * L) vars)
      = NetVar (PolicyWithQs.policy self) <$> seq 0 Lp ∧
    drop (length (PolicyWithQs.Qs self) * L + Lp) vars = ScalarVar <$> alpha_locs self ∧
    gradi_start self h = Z.of_nat (length (PolicyWithQs.Qs self) * L).
Proof.
  intros Hwf L Lp.
  pose proof Hwf as (HQn & _ & Hmodels & _ & _ & _ & _ & _ & Hvars & _ & _ & _ & Hcount).
  destruct (wf_policy_lookup _ _ Hwf) as (pname & ps & _ & _ & Hp & _).
  assert (HQvars : ∀ q, q ∈ PolicyWithQs.Qs self → variables_at h q = NetVar q <$> seq 0 L).
  { intros q Hq. pose proof Hq as [i Hi]%list_elem_of_lookup.
    destruct (wf_Q_lookup _ _ _ _ Hwf Hi) as (name & ws & _ & _ & _ & Hh & _).
    rewrite Forall_forall in Hcount. specialize (Hcount q Hq). fold L in Hcount.
    unfold variables_at. rewrite Hh. by rewrite <- (count_at_network _ _ _ _ Hh), Hcount. }
  assert (Hpvars : variables_at h (PolicyWithQs.policy self)
                   = NetVar (PolicyWithQs.policy self) <$> seq 0 Lp).
  { unfold variables_at, Lp. by rewrite Hp, (count_at_network _ _ _ _ Hp). }
  assert (Havars : concat (variables_at h <$> alpha_locs self) = ScalarVar <$> alpha_locs self).
  { clear -Hvars. induction Hvars as [|l ls Hl _ IH]; [done|].
    destruct (is_variable_at_true _ _ Hl) as (name & x & Hh).
    rewrite !fmap_cons, concat_cons, IH. unfold variables_at. by rewrite Hh. }
  destruct (concat_equal_chunks L (variables_at h <$> PolicyWithQs.Qs self)
              (variables_at h (PolicyWithQs.policy self)
               ++ concat (variables_at h <$> alpha_locs self))) as [HlenQ Hchunk].
  { apply Forall_fmap, Forall_forall. intros q Hq. simpl.
    by rewrite (HQvars q Hq), length_fmap, length_seq. }
  rewrite length_fmap in HlenQ.
  eexists. split; [by apply run_trainable_weights|].
  rewrite Hmodels, fmap_app, fmap_cons, concat_app, concat_cons.
  split; [|split; [|split; [|split]]].
  - rewrite !length_app, HlenQ, Hpvars, Havars, !length_fmap, length_seq. lia.
  - intros i q Hq. rewrite (Hchunk i (variables_at h q)).
    + apply HQvars. by eapply list_elem_of_lookup_2.
    + by rewrite list_lookup_fmap, Hq.
  - rewrite <- HlenQ, drop_app_length, Hpvars. apply take_app_length'.
    by rewrite length_fmap, length_seq.
  - rewrite app_assoc, drop_app_length'; [done|].
    rewrite length_app, HlenQ, Hpvars, length_fmap, length_seq. lia.
  - unfold gradi_start. fold L. rewrite HQn. lia.
Qed.
End TrainableWeights.

(** * Properties of the Gaussian distribution *)

Lemma mapM_Raise {A B} (f : A → pyres B) (l1 l2 : list A) (x : A) (g : A → B) e :
  (∀ y, y ∈ l1 → f y = Return (g y)) → f x = Raise e → mapM f (l1 ++ x :: l2) = Raise e.
Proof.
  induction l1 as [|y l1 IH]; intros Hf Hx; simpl.
  - by rewrite Hx.
  - rewrite Hf by left. simpl. rewrite IH; [done| |done].
    intros z Hz. apply Hf. by right.
Qed.

Section TensorFlowFacts.
Context {F : Type} `{Float F}.

Lemma tf_binop_same_shape (f : F → F → F) (a b : list (list F)) :
  same_shape a b → tf_binop f a b = Return (zip_with (zip_with f) a b).
Proof.
  intros Hs. unfold tf_binop, broadcast at 1.
  rewrite decide_True by by eapply Forall2_length.
  rewrite (mapM_Return _ (λ p, zip_with f p.1 p.2)).
  - f_equal. clear Hs. revert b.
    induction a as [|r a IH]; intros [|r' b]; simpl; try done. by rewrite IH.
  - intros [r r'] Hin. simpl. apply broadcast_same_length.
    apply list_elem_of_lookup in Hin as [i Hi].
    apply lookup_zip_with_Some in Hi as (x & y & [= <- <-] & Hx & Hy).
    by eapply (Forall2_lookup_lr _ _ _ _ _ _ Hs).
Qed.

Lemma tf_binop1_same_length (f : F → F → F) (a b : list F) :
  length a = length b → tf_binop1 f a b = Return (zip_with f a b).
Proof. apply broadcast_same_length. Qed.

Lemma same_shape_refl {A} (a : list (list A)) : same_shape a a.
Proof. by apply Forall2_same_length_lookup_2; [|intros i x y -> [= ->]]. Qed.

Lemma same_shape_zip_with {A B C} (g : A → B → C) (a : list (list A)) (b : list (list B)) :
  same_shape a b → same_shape (zip_with (zip_with g) a b) a.
Proof.
  intros Hs. induction Hs as [|r r' a b Hr _ IH]; [constructor|].
  simpl. constructor; [|done]. rewrite length_zip_with. lia.
Qed.

Lemma same_shape_tf_map {A} (g : F → F) (a : list (list F)) (b : list (list A)) :
  same_shape a b → same_shape (tf_map g a) b.
Proof.
  intros Hs. induction Hs as [|r r' a b Hr _ IH]; [constructor|].
  simpl. constructor; [by rewrite length_fmap|done].
Qed.

Lemma same_shape_sym {A B} (a : list (list A)) (b : list (list B)) :
  same_shape a b → same_shape b a.
Proof. intros Hs. induction Hs; constructor; done. Qed.

Lemma same_shape_trans {A B C} (a : list (list A)) (b : list (list B)) (c : list (list C)) :
  same_shape a b → same_shape b c → same_shape a c.
Proof.
  intros Hab. revert c. induction Hab as [|r r' a b Hr _ IH]; intros c Hbc.
  - inversion Hbc. constructor.
  - inversion Hbc as [|? r'' ? c' Hr' Hbc']; subst. constructor; [congruence|by apply IH].
Qed.

(** [tf.split] into two halves succeeds exactly on rows of even width. *)
Lemma tf_split2_even (a : list (list F)) :
  Forall (λ r, Nat.even (length r) = true) a →
  tf_split2 a = Return ((λ r, take (length r / 2) r) <$> a, (λ r, drop (length r / 2) r) <$> a).
Proof.
  intros Heven. unfold tf_split2.
  rewrite (mapM_Return _ (λ r, (take (length r / 2) r, drop (length r / 2) r))).
  - simpl. unfold mret, pyres_ret. f_equal. f_equal; rewrite <- list_fmap_compose; done.
  - intros r Hr. rewrite Forall_forall in Heven. by rewrite (Heven r Hr).
Qed.

Lemma tf_split2_odd (a : list (list F)) :
  ¬ Forall (λ r, Nat.even (length r) = true) a → tf_split2 a = Raise InvalidArgumentError.
Proof.
  intros Hodd. unfold tf_split2.
  induction a as [|r a IH]; [by destruct Hodd|].
  cbn [mapM]. destruct (Nat.even (length r)) eqn:Hr.
  - simpl. assert (Ha : ¬ Forall (λ r, Nat.even (length r) = true) a).
    { intros Hall. apply Hodd. by constructor. }
    specialize (IH Ha).
    destruct (mapM _ a) as [halves|e]; simpl in IH |- *; [done|by injection IH as ->].
  - done.
Qed.
End TensorFlowFacts.

Lemma even_twice D : Nat.even (2 * D) = true.
Proof. apply Nat.even_spec. by exists D. Qed.

Section GaussianGeneric.
Context {F : Type} `{Float F}.

Lemma gaussian_init_rect (logits : list (list F)) D :
  Forall (λ r, length r = 2 * D) logits →
  GuassianDistribution.init logits
  = Return (GuassianDistribution.Build (take D <$> logits) (drop D <$> logits)
              (tf_exp (drop D <$> logits))).
Proof.
  intros Hshape. unfold GuassianDistribution.init.
  rewrite tf_split2_even.
  - unfold mbind, pyres_bind, mret, pyres_ret. cbn [fst snd].
    rewrite Forall_forall in Hshape.
    assert (Hhalf : ∀ r, r ∈ logits → length r / 2 = D).
    { intros r Hr. rewrite (Hshape r Hr), Nat.mul_comm. by apply Nat.div_mul. }
    assert (Hm : (λ r : list F, take (length r / 2) r) <$> logits = take D <$> logits).
    { apply list_fmap_ext. intros i r Hr. by rewrite (Hhalf r (list_elem_of_lookup_2 _ _ _ Hr)). }
    assert (Hl : (λ r : list F, drop (length r / 2) r) <$> logits = drop D <$> logits).
    { apply list_fmap_ext. intros i r Hr. by rewrite (Hhalf r (list_elem_of_lookup_2 _ _ _ Hr)). }
    by rewrite Hm, Hl.
  - eapply Forall_impl; [exact Hshape|]. intros r ->. apply even_twice.
Qed.

(** X16. [GuassianDistribution(logits)] is built exactly when every row of
    [logits] has an even width, and raises otherwise; when it is built, the
    mean and the log of the standard deviation are the two halves of
    [logits]: they have one shape, and joined row by row they give
    [logits] back. *)
Theorem gaussian_init_splits_logits (logits : list (list F)) :
  (Forall (λ r, Nat.even (length r) = true) logits →
   ∃ d, GuassianDistribution.init logits = Return d ∧
     zip_with app (GuassianDistribution.mean d) (GuassianDistribution.logstd d) = logits ∧
     same_shape (GuassianDistribution.mean d) (GuassianDistribution.logstd d) ∧
     GuassianDistribution.std d = tf_exp (GuassianDistribution.logstd d) ∧
     GuassianDistribution.mode d = GuassianDistribution.mean d) ∧
  (¬ Forall (λ r, Nat.even (length r) = true) logits →
   GuassianDistribution.init logits = Raise InvalidArgumentError).
Proof.
  split.
  - intros Heven. unfold GuassianDistribution.init. rewrite tf_split2_even by done.
    eexists. split; [done|].
    cbn [GuassianDistribution.mean GuassianDistribution.logstd GuassianDistribution.std
         GuassianDistribution.mode fst snd].
    split; [|split; [|done]].
    + clear Heven. induction logits as [|r logits IH]; [done|].
      rewrite !fmap_cons. cbn [zip_with]. by rewrite take_drop, IH.
    + induction Heven as [|r logits Hr _ IH]; [constructor|].
      rewrite !fmap_cons. constructor; [|done].
      apply Nat.even_spec in Hr as [k Hk].
      rewrite length_take, length_drop, Hk.
      replace (2 * k / 2) with k by (rewrite Nat.mul_comm; symmetry; apply Nat.div_mul; lia).
      lia.
  - intros Hodd. unfold GuassianDistribution.init. by rewrite tf_split2_odd.
Qed.
End GaussianGeneric.

(** ** On the real numbers *)

(** All rows of a batch have width [D]. *)
Lemma rect_same_shape {A B} (D : nat) (a : list (list A)) (b : list (list B)) :
  Forall (λ r, length r = D) a → Forall (λ r, length r = D) b → length a = length b →
  same_shape a b.
Proof.
  intros Ha Hb Hlen. apply Forall2_same_length_lookup_2; [done|].
  intros i r r' Hr Hr'.
  rewrite (Forall_lookup_1 _ _ _ _ Ha Hr), (Forall_lookup_1 _ _ _ _ Hb Hr'). done.
Qed.

Lemma rect_take {A} (D : nat) (a : list (list A)) :
  Forall (λ r, length r = 2 * D) a → Forall (λ r, length r = D) (take D <$> a).
Proof.
  intros Ha. apply Forall_fmap. eapply Forall_impl; [exact Ha|].
  intros r Hr. unfold compose. cbv beta in Hr |- *. rewrite length_take. lia.
Qed.

Lemma rect_drop {A} (D : nat) (a : list (list A)) :
  Forall (λ r, length r = 2 * D) a → Forall (λ r, length r = D) (drop D <$> a).
Proof.
  intros Ha. apply Forall_fmap. eapply Forall_impl; [exact Ha|].
  intros r Hr. unfold compose. cbv beta in Hr |- *. rewrite length_drop. lia.
Qed.

Lemma rect_zip_with {A B C} (g : A → B → C) (D : nat) (a : list (list A)) (b : list (list B)) :
  Forall (λ r, length r = D) a → Forall (λ r, length r = D) b →
  Forall (λ r, length r = D) (zip_with (zip_with g) a b).
Proof.
  intros Ha. revert b. induction Ha as [|r a Hr _ IH]; intros [|r' b] Hb; try constructor.
  - apply Forall_cons in Hb as [Hr' _]. rewrite length_zip_with. lia.
  - apply Forall_cons in Hb as [_ Hb]. by apply IH.
Qed.

Lemma rect_tf_map {F} `{Float F} (g : F → F) (D : nat) (a : list (list F)) :
  Forall (λ r, length r = D) a → Forall (λ r, length r = D) (tf_map g a).
Proof.
  intros Ha. apply Forall_fmap. eapply Forall_impl; [exact Ha|].
  intros r Hr. unfold compose. cbv beta in Hr |- *. by rewrite length_fmap.
Qed.

Lemma quadratic_row (xr m s : list R) :
  fsum ((λ v, v * v)%R <$> zip_with Rdiv (zip_with Rminus xr m) (exp <$> s))
  = fsum (zip_with (λ y ms, ((y - ms.1) / exp ms.2) ^ 2)%R xr (zip m s)).
Proof.
  revert m s. induction xr as [|y xr IH]; intros [|a m] [|b s]; try done.
  cbn [zip_with fmap list_fmap fsum foldr fst snd]. f_equal; [simpl; lra|].
  apply IH.
Qed.

Lemma last_dim_rect (D : nat) (x : list (list R)) r :
  Forall (λ r, length r = D) x → r ∈ x → last_dim x = D.
Proof.
  intros Hx Hr. destruct x as [|r0 x]; [by apply elem_of_nil in Hr|].
  by apply Forall_cons in Hx as [? _].
Qed.

Lemma gaussian_neglogp_rows (logits x : list (list R)) (D : nat) d :
  Forall (λ r, length r = 2 * D) logits → Forall (λ r, length r = D) x →
  length x = length logits →
  GuassianDistribution.init logits = Return d →
  GuassianDistribution.neglogp d x
  = Return (zip_with (λ lr xr, gaussian_neglogp (take D lr) (drop D lr) xr) logits x).
Proof.
  intros Hl Hx Hlen Hd. rewrite (gaussian_init_rect _ D Hl) in Hd. injection Hd as <-.
  unfold GuassianDistribution.neglogp.
  cbn [GuassianDistribution.mean GuassianDistribution.logstd GuassianDistribution.std].
  pose proof (rect_take D logits Hl) as Hm. pose proof (rect_drop D logits Hl) as Hs.
  rewrite tf_binop_same_shape
    by (apply (rect_same_shape D); [done..|by rewrite length_fmap]).
  cbn [mbind pyres_bind].
  rewrite tf_binop_same_shape; last first.
  { apply (rect_same_shape D).
    - by apply rect_zip_with.
    - by apply rect_tf_map.
    - unfold tf_exp, tf_map. rewrite length_zip_with, !length_fmap. lia. }
  cbn [mbind pyres_bind].
  rewrite tf_binop1_same_length; last first.
  { unfold tf_reduce_sum, tf_square, tf_exp, tf_map.
    rewrite !length_fmap, !length_zip_with, !length_fmap. lia. }
  f_equal. apply list_eq. intros i.
  unfold tf_reduce_sum, tf_square, tf_exp, tf_map.
  rewrite !lookup_zip_with, !list_lookup_fmap, !lookup_zip_with, !list_lookup_fmap.
  destruct (logits !! i) as [lr|] eqn:Hlr; destruct (x !! i) as [xr|] eqn:Hxr; try done.
  cbn [fmap option_fmap option_map mbind option_bind].
  f_equal.
  rewrite (last_dim_rect D x xr Hx (list_elem_of_lookup_2 _ _ _ Hxr)).
  unfold gaussian_neglogp.
  rewrite <- quadratic_row.
  assert (Hlm : length (take D lr) = D).
  { rewrite length_take, (Forall_lookup_1 _ _ _ _ Hl Hlr). lia. }
  rewrite Hlm.
  cbn [fadd fsub fmul fdiv fexp fhalf flog ftwo fpi fcast R_Float R_Arith float_arith].
  lra.
Qed.

Lemma ln_sqrt_half (y : R) : (0 < y)%R → ln (sqrt y) = (1 / 2 * ln y)%R.
Proof.
  intros Hy. pose proof (sqrt_lt_R0 y Hy) as Hs.
  assert (Hsq : ln y = (ln (sqrt y) + ln (sqrt y))%R).
  { rewrite <- ln_mult by done. f_equal. symmetry. apply sqrt_sqrt. lra. }
  lra.
Qed.

Lemma normal_density_pos (m s x : list R) :
  Forall (λ v, (0 < v)%R) s → (0 < normal_density m s x)%R.
Proof.
  intros Hs. revert m x. induction Hs as [|b s Hb _ IH]; intros [|a m] [|y x]; simpl; try lra.
  apply Rmult_lt_0_compat; [|apply IH].
  apply Rmult_lt_0_compat; [|apply exp_pos].
  apply Rinv_0_lt_compat, Rmult_lt_0_compat; [|done].
  apply sqrt_lt_R0. pose proof PI_RGT_0. lra.
Qed.

Lemma exp_all_pos (s : list R) : Forall (λ v, (0 < v)%R) (exp <$> s).
Proof. apply Forall_fmap, Forall_forall. intros v _. apply exp_pos. Qed.

(** The formula of [neglogp] is minus the logarithm of the normal density. *)
Lemma gaussian_neglogp_density (m s x : list R) :
  length m = length s → length x = length s →
  gaussian_neglogp m s x = (- ln (normal_density m (exp <$> s) x))%R.
Proof.
  revert m x. induction s as [|b s IH]; intros [|a m] [|y x] Hm Hx; try done.
  { unfold gaussian_neglogp. simpl. rewrite ln_1. lra. }
  injection Hm as Hm. injection Hx as Hx. specialize (IH m x Hm Hx).
  assert (Hstep : gaussian_neglogp (a :: m) (b :: s) (y :: x)
                  = (1 / 2 * ((y - a) / exp b) ^ 2 + 1 / 2 * ln (2 * PI) + b
                     + gaussian_neglogp m s x)%R).
  { unfold gaussian_neglogp, fsum. cbn [zip zip_with foldr fst snd length].
    rewrite S_INR. cbn [fadd fzero R_Float R_Arith float_arith]. lra. }
  rewrite Hstep, IH. cbn [normal_density fmap list_fmap].
  pose proof (exp_pos b) as Hb. pose proof PI_RGT_0 as Hpi.
  assert (Hsq : (0 < sqrt (2 * PI))%R) by (apply sqrt_lt_R0; lra).
  pose proof (normal_density_pos m (exp <$> s) x (exp_all_pos s)) as Hrest.
  assert (Hnorm : (0 < sqrt (2 * PI) * exp b)%R) by by apply Rmult_lt_0_compat.
  assert (Hinv : (0 < / (sqrt (2 * PI) * exp b))%R) by by apply Rinv_0_lt_compat.
  rewrite (ln_mult (/ (sqrt (2 * PI) * exp b) * exp (- ((y - a) ^ 2 / (2 * exp b ^ 2)))))
    by (try apply Rmult_lt_0_compat; try apply exp_pos; done).
  rewrite (ln_mult (/ (sqrt (2 * PI) * exp b))) by (try apply exp_pos; done).
  rewrite (ln_Rinv (sqrt (2 * PI) * exp b)) by done.
  rewrite (ln_mult (sqrt (2 * PI))) by done.
  rewrite !ln_exp, ln_sqrt_half by lra.
  field. lra.
Qed.


(** ** The divergence *)

Lemma fsum_cons_R (x : R) (l : list R) : fsum (x :: l) = (x + fsum l)%R.
Proof. reflexivity. Qed.

Lemma kl_row (m1 s1 m2 s2 : list R) :
  fsum ((λ v, v - 1 / 2)%R <$>
        zip_with Rplus (zip_with Rminus s2 s1)
          (zip_with Rdiv
             (zip_with Rplus ((λ v, v * v)%R <$> (exp <$> s1))
                ((λ v, v * v)%R <$> zip_with Rminus m1 m2))
             (Rmult 2 <$> ((λ v, v * v)%R <$> (exp <$> s2)))))
  = fsum (zip_with (λ a b, gaussian_kl_term a.1 a.2 b.1 b.2) (zip m1 s1) (zip m2 s2)).
Proof.
  revert s1 m2 s2. induction m1 as [|a m1 IH]; intros [|b s1] [|c m2] [|d s2];
    try reflexivity;
    try (by destruct s1); try (by destruct s2); try (by destruct m2);
    try (by destruct s1, s2); try (by destruct s2, m2); try (by destruct s1, m2).
  cbn [zip_with fmap list_fmap fst snd].
  rewrite !fsum_cons_R, <- IH. unfold gaussian_kl_term. lra.
Qed.

Lemma gaussian_kl_rows (d1 d2 : GuassianDistribution.t R) :
  same_shape (GuassianDistribution.mean d1) (GuassianDistribution.logstd d1) →
  same_shape (GuassianDistribution.mean d1) (GuassianDistribution.mean d2) →
  same_shape (GuassianDistribution.mean d1) (GuassianDistribution.logstd d2) →
  GuassianDistribution.std d1 = tf_exp (GuassianDistribution.logstd d1) →
  GuassianDistribution.std d2 = tf_exp (GuassianDistribution.logstd d2) →
  GuassianDistribution.kl_divergence d1 d2
  = Return (zip_with (λ p1 p2,
              fsum (zip_with (λ a b, gaussian_kl_term a.1 a.2 b.1 b.2)
                      (zip p1.1 p1.2) (zip p2.1 p2.2)))
              (zip (GuassianDistribution.mean d1) (GuassianDistribution.logstd d1))
              (zip (GuassianDistribution.mean d2) (GuassianDistribution.logstd d2))).
Proof.
  destruct d1 as [m1 s1 e1], d2 as [m2 s2 e2].
  cbn [GuassianDistribution.mean GuassianDistribution.logstd GuassianDistribution.std].
  intros H11 H12 H13 -> ->.
  unfold GuassianDistribution.kl_divergence.
  cbn [GuassianDistribution.mean GuassianDistribution.logstd GuassianDistribution.std].
  assert (Hs1 : same_shape s1 m1) by by apply same_shape_sym.
  assert (Hm2 : same_shape m2 m1) by by apply same_shape_sym.
  assert (Hs2 : same_shape s2 m1) by by apply same_shape_sym.
  rewrite (tf_binop_same_shape fsub s2 s1) by by eapply same_shape_trans.
  cbn [mbind pyres_bind].
  rewrite (tf_binop_same_shape fsub m1 m2) by done.
  cbn [mbind pyres_bind].
  assert (Hdm : same_shape (zip_with (zip_with fsub) m1 m2) m1) by by apply same_shape_zip_with.
  assert (Hdl : same_shape (zip_with (zip_with fsub) s2 s1) m1).
  { eapply same_shape_trans; [apply same_shape_zip_with|done]. by eapply same_shape_trans. }
  assert (He1 : same_shape (tf_square (tf_exp s1)) m1).
  { unfold tf_square, tf_exp. by do 2 apply same_shape_tf_map. }
  rewrite tf_binop_same_shape; last first.
  { eapply same_shape_trans; [exact He1|]. apply same_shape_sym.
    unfold tf_square. by apply same_shape_tf_map. }
  cbn [mbind pyres_bind].
  assert (Hnum : same_shape (zip_with (zip_with fadd) (tf_square (tf_exp s1))
                               (tf_square (zip_with (zip_with fsub) m1 m2))) m1).
  { eapply same_shape_trans; [apply same_shape_zip_with|exact He1].
    eapply same_shape_trans; [exact He1|]. apply same_shape_sym.
    unfold tf_square. by apply same_shape_tf_map. }
  assert (Hden : same_shape (tf_scalar_l fmul ftwo (tf_square (tf_exp s2))) m1).
  { unfold tf_scalar_l, tf_square, tf_exp. by do 3 apply same_shape_tf_map. }
  rewrite tf_binop_same_shape by (eapply same_shape_trans; [exact Hnum|by apply same_shape_sym]).
  cbn [mbind pyres_bind].
  rewrite tf_binop_same_shape; last first.
  { eapply same_shape_trans; [exact Hdl|]. apply same_shape_sym.
    eapply same_shape_trans; [apply same_shape_zip_with|exact Hnum].
    eapply same_shape_trans; [exact Hnum|by apply same_shape_sym]. }
  cbn [mbind pyres_bind]. unfold mret, pyres_ret. f_equal.
  apply list_eq. intros i.
  unfold tf_reduce_sum, tf_scalar_r, tf_scalar_l, tf_square, tf_exp, tf_map.
  repeat first [rewrite list_lookup_fmap | rewrite lookup_zip_with].
  destruct (m1 !! i) as [rm1|]; destruct (s1 !! i) as [rs1|];
    destruct (m2 !! i) as [rm2|]; destruct (s2 !! i) as [rs2|]; try done.
  cbn [fmap option_fmap option_map mbind option_bind fst snd]. f_equal.
  rewrite <- kl_row. done.
Qed.

Lemma exp_square_ratio (s1 s2 : R) :
  (exp s1 * exp s1 / (exp s2 * exp s2))%R = exp (2 * (s1 - s2)).
Proof.
  unfold Rdiv. rewrite <- !exp_plus, <- exp_Ropp, <- exp_plus. f_equal. lra.
Qed.

Lemma gaussian_kl_term_nonneg (m1 s1 m2 s2 : R) : (0 <= gaussian_kl_term m1 s1 m2 s2)%R.
Proof.
  unfold gaussian_kl_term.
  pose proof (exp_pos s2) as H2.
  assert (Hsq : (0 < exp s2 * exp s2)%R) by by apply Rmult_lt_0_compat.
  replace ((exp s1 * exp s1 + (m1 - m2) * (m1 - m2)) / (2 * (exp s2 * exp s2)))%R
    with (1 / 2 * (exp s1 * exp s1 / (exp s2 * exp s2))
          + (m1 - m2) * (m1 - m2) * / (2 * (exp s2 * exp s2)))%R by (field; lra).
  rewrite exp_square_ratio.
  pose proof (exp_ineq1_le (2 * (s1 - s2))) as Hexp.
  assert (Hq : (0 <= (m1 - m2) * (m1 - m2) * / (2 * (exp s2 * exp s2)))%R).
  { apply Rmult_le_pos; [apply Rle_0_sqr|]. left. apply Rinv_0_lt_compat. lra. }
  lra.
Qed.

Lemma gaussian_kl_term_self (m s : R) : gaussian_kl_term m s m s = 0%R.
Proof.
  unfold gaussian_kl_term. pose proof (exp_pos s). field. lra.
Qed.

Lemma fsum_nonneg (l : list R) : Forall (λ v, (0 <= v)%R) l → (0 <= fsum l)%R.
Proof.
  induction 1 as [|x l Hx _ IH]; [apply Rle_refl|].
  rewrite fsum_cons_R. lra.
Qed.

Lemma fsum_zero (l : list R) : Forall (λ v, v = 0%R) l → fsum l = 0%R.
Proof.
  induction 1 as [|x l Hx _ IH]; [done|].
  rewrite fsum_cons_R. lra.
Qed.

Lemma Forall_zip_with_all {A B C} (P : C → Prop) (g : A → B → C) (a : list A) (b : list B) :
  (∀ x y, P (g x y)) → Forall P (zip_with g a b).
Proof.
  intros Hg. revert b. induction a as [|x a IH]; intros [|y b]; constructor; auto.
Qed.



(** ** The mode, the entropy and a sample *)

Lemma quadratic_at_mean (m s : list R) :
  fsum (zip_with (λ y ms, ((y - ms.1) / exp ms.2) ^ 2)%R m (zip m s)) = 0%R.
Proof.
  revert s. induction m as [|a m IH]; intros [|b s]; try done.
  cbn [zip_with fst snd]. rewrite fsum_cons_R, IH.
  replace (a - a)%R with 0%R by lra. unfold Rdiv. rewrite Rmult_0_l. simpl. lra.
Qed.

Lemma quadratic_nonneg (m s x : list R) :
  (0 <= fsum (zip_with (λ y ms, ((y - ms.1) / exp ms.2) ^ 2)%R x (zip m s)))%R.
Proof.
  apply fsum_nonneg, Forall_zip_with_all. intros y ms. apply pow2_ge_0.
Qed.

Lemma quadratic_at_sample (m s n : list R) :
  length m = length n → length s = length n →
  fsum (zip_with (λ y ms, ((y - ms.1) / exp ms.2) ^ 2)%R
          (zip_with Rplus m (zip_with Rmult (exp <$> s) n)) (zip m s))
  = fsum ((λ v, v * v)%R <$> n).
Proof.
  revert s n. induction m as [|a m IH]; intros [|b s] [|c n]; try done.
  intros [= Hm] [= Hs].
  cbn [zip_with fmap list_fmap fst snd]. rewrite !fsum_cons_R, IH by done.
  pose proof (exp_pos b). f_equal. field. lra.
Qed.

Lemma fsum_shift (c : R) (l : list R) :
  fsum ((λ v, v + c)%R <$> l) = (fsum l + INR (length l) * c)%R.
Proof.
  induction l as [|x l IH]; [simpl; lra|].
  cbn [fmap list_fmap length]. rewrite !fsum_cons_R, IH, S_INR. lra.
Qed.

Lemma ln_two_pi_e : ln (2 * PI * exp 1) = (ln (2 * PI) + 1)%R.
Proof.
  pose proof PI_RGT_0. rewrite ln_mult, ln_exp; [done|lra|apply exp_pos].
Qed.



(** * The forward pass *)

Section ForwardPass.
Context {F : Type} `{Float F} `{Optimizer F} `{MLPNetModel F}.

Lemma run_net_call h l name ws (x : list (list F)) :
  h !! l = Some (Network name ws) → net_call l x h = (mlp_call ws x, h).
Proof.
  intros Hl. unfold net_call.
  by rewrite (run_bind _ _ _ _ _ (run_net_get_weights _ _ _ _ Hl)).
Qed.

Lemma net_call_reads l (x : list (list F)) h : (net_call l x h).2 = h.
Proof.
  unfold net_call, net_get_weights, deref, mbind, M_bind, raise, lift, mret, M_ret.
  destruct (h !! l) as [[name ws|name v|name st]|]; done.
Qed.

Lemma bind_reads {A B} (m : M A) (k : A → M B) h :
  (m h).2 = h → (∀ a, (k a h).2 = h) → ((m ≫= k) h).2 = h.
Proof.
  intros Hm Hk. unfold mbind, M_bind.
  destruct (m h) as [[a|e] h1]; simpl in Hm; subst h1; [apply Hk|done].
Qed.

Lemma lift_reads {A} (r : pyres A) h : (lift (A:=A) r h).2 = h.
Proof. done. Qed.

(** X22. No method of the forward pass changes a stored object, whatever
    it returns or raises. *)
Theorem forward_pass_reads_only (self : PolicyWithQs.t F) (other : PolicyWithValue.t F)
    (obs act normal : list (list F)) action (h : gmap loc obj) :
  (PolicyWithQs.compute_logits self obs h).2 = h ∧
  (PolicyWithQs.compute_neglogp self obs act h).2 = h ∧
  (PolicyWithQs.compute_action self obs normal h).2 = h ∧
  (PolicyWithValue.compute_neglogp other obs action h).2 = h ∧
  (PolicyWithValue.compute_vf other obs h).2 = h.
Proof.
  split; [apply net_call_reads|].
  split; [|split; [|split; [|apply net_call_reads]]].
  - unfold PolicyWithQs.compute_neglogp.
    apply bind_reads; [apply net_call_reads|]. intros logits.
    apply bind_reads; [apply lift_reads|]. intros d. apply lift_reads.
  - unfold PolicyWithQs.compute_action.
    apply bind_reads; [apply net_call_reads|]. intros logits.
    apply bind_reads; [apply lift_reads|]. intros d.
    apply bind_reads; [apply lift_reads|]. intros a.
    apply bind_reads; [apply lift_reads|]. intros n. done.
  - unfold PolicyWithValue.compute_neglogp.
    apply bind_reads; [apply net_call_reads|]. intros logits.
    apply bind_reads; [apply lift_reads|]. intros x.
    apply bind_reads; [apply lift_reads|]. intros _.
    apply bind_reads; [apply lift_reads|]. intros d. apply lift_reads.
Qed.

Lemma gaussian_sample_rect (logits normal : list (list F)) (D : nat) :
  Forall (λ r, length r = 2 * D) logits → Forall (λ r, length r = D) normal →
  length normal = length logits →
  ∃ action,
    GuassianDistribution.sample
      (GuassianDistribution.Build (take D <$> logits) (drop D <$> logits)
         (tf_exp (drop D <$> logits))) normal = Return action ∧
    Forall (λ r, length r = D) action ∧ length action = length logits.
Proof.
  intros Hl Hn Hlen.
  pose proof (rect_take D logits Hl) as Hm. pose proof (rect_drop D logits Hl) as Hs.
  assert (Hsn : Forall (λ r, length r = D)
                  (zip_with (zip_with fmul) (tf_exp (drop D <$> logits)) normal)).
  { apply rect_zip_with; [by apply rect_tf_map|done]. }
  eexists. split; [|split].
  - unfold GuassianDistribution.sample.
    cbn [GuassianDistribution.mean GuassianDistribution.std].
    rewrite tf_binop_same_shape; last first.
    { apply (rect_same_shape D); [by apply rect_tf_map|done|].
      unfold tf_exp, tf_map. rewrite !length_fmap. lia. }
    cbn [mbind pyres_bind].
    rewrite tf_binop_same_shape; [done|].
    apply (rect_same_shape D); [done|done|].
    unfold tf_exp, tf_map. rewrite !length_zip_with, !length_fmap. lia.
  - by apply rect_zip_with.
  - unfold tf_exp, tf_map. rewrite !length_zip_with, !length_fmap. lia.
Qed.

Lemma gaussian_neglogp_rect (logits x : list (list F)) (D : nat) :
  Forall (λ r, length r = 2 * D) logits → Forall (λ r, length r = D) x →
  length x = length logits →
  ∃ res,
    GuassianDistribution.neglogp
      (GuassianDistribution.Build (take D <$> logits) (drop D <$> logits)
         (tf_exp (drop D <$> logits))) x = Return res ∧
    length res = length logits.
Proof.
  intros Hl Hx Hlen.
  pose proof (rect_take D logits Hl) as Hm. pose proof (rect_drop D logits Hl) as Hs.
  unfold GuassianDistribution.neglogp.
  cbn [GuassianDistribution.mean GuassianDistribution.logstd GuassianDistribution.std].
  rewrite tf_binop_same_shape
    by (apply (rect_same_shape D); [done..|by rewrite length_fmap]).
  cbn [mbind pyres_bind].
  rewrite tf_binop_same_shape; last first.
  { apply (rect_same_shape D).
    - by apply rect_zip_with.
    - by apply rect_tf_map.
    - unfold tf_exp, tf_map. rewrite length_zip_with, !length_fmap. lia. }
  cbn [mbind pyres_bind].
  rewrite tf_binop1_same_length; last first.
  { unfold tf_reduce_sum, tf_square, tf_exp, tf_map.
    rewrite !length_fmap, !length_zip_with, !length_fmap. lia. }
  eexists. split; [done|].
  unfold tf_reduce_sum, tf_square, tf_exp, tf_map.
  rewrite !length_zip_with, !length_fmap, !length_zip_with, !length_fmap. lia.
Qed.

(** X23. When the policy network maps the observations to logits of width
    2 D, [compute_action] returns an action of width D and its negative
    log-likelihood, one per row, and [compute_neglogp] gives that same
    value for that action; the store is as before. *)
Theorem compute_action_agrees_with_compute_neglogp (self : PolicyWithQs.t F)
    (obs normal logits : list (list F)) (D : nat) name ws (h : gmap loc obj) :
  h !! PolicyWithQs.policy self = Some (Network name ws) →
  mlp_call ws obs = Return logits →
  Forall (λ r, length r = 2 * D) logits → Forall (λ r, length r = D) normal →
  length normal = length logits →
  ∃ action neglogp,
    PolicyWithQs.compute_action self obs normal h = (Return (action, neglogp), h) ∧
    PolicyWithQs.compute_neglogp self obs action h = (Return neglogp, h) ∧
    PolicyWithQs.compute_logits self obs h = (Return logits, h) ∧
    Forall (λ r, length r = D) action ∧
    length action = length logits ∧ length neglogp = length logits.
Proof.
  intros Hp Hcall Hl Hn Hlen.
  destruct (gaussian_sample_rect logits normal D Hl Hn Hlen) as (action & Hs & Ha & Hal).
  destruct (gaussian_neglogp_rect logits action D Hl Ha Hal) as (res & Hr & Hrl).
  exists action, res.
  assert (Hnet : net_call (PolicyWithQs.policy self) obs h = (Return logits, h)).
  { by rewrite (run_net_call _ _ _ _ _ Hp), Hcall. }
  split; [|split; [|done]].
  - unfold PolicyWithQs.compute_action.
    rewrite (run_bind _ _ _ _ _ Hnet).
    unfold lift at 1. rewrite (gaussian_init_rect logits D Hl).
    unfold mbind at 1, M_bind at 1. cbv beta iota.
    unfold lift at 1. rewrite Hs.
    unfold mbind at 1, M_bind at 1. cbv beta iota.
    unfold lift at 1. rewrite Hr.
    unfold mbind at 1, M_bind at 1. cbv beta iota. done.
  - unfold PolicyWithQs.compute_neglogp.
    rewrite (run_bind _ _ _ _ _ Hnet).
    unfold lift at 1. rewrite (gaussian_init_rect logits D Hl).
    unfold mbind at 1, M_bind at 1. cbv beta iota.
    unfold lift. by rewrite Hr.
Qed.

End ForwardPass.

(** * The critics *)

Section Critics.
Context {F : Type} `{Arith F} `{Optimizer F} `{MLPNetModel F}.

Lemma run_net_call_weights h l ws (x : list (list F)) :
  weights_at h l = Some ws → net_call l x h = (mlp_call ws x, h).
Proof.
  unfold weights_at. intros Hl.
  destruct (h !! l) as [[name ws'|?|?]|] eqn:Hl'; try done. injection Hl as ->.
  unfold net_call. by rewrite (run_bind _ _ _ _ _ (run_net_get_weights _ _ _ _ Hl')).
Qed.

(** Calling the networks of a list one after the other, on one input *)
Lemma run_mapM_net_call (x : list (list F)) (ls : list loc) h :
  Forall (λ l, is_Some (weights_at h l)) ls →
  mapM (λ l, net_call l x) ls h
  = (mapM (λ l, mlp_call (default [] (weights_at h l)) x) ls, h).
Proof.
  induction 1 as [|l ls [ws Hl] _ IH]; [done|].
  cbn [mapM]. rewrite Hl. change (default [] (Some ws)) with ws.
  unfold mbind at 1, M_bind at 1. rewrite (run_net_call_weights _ _ _ _ Hl).
  destruct (mlp_call ws x) as [y|e]; cbn [mbind pyres_bind]; [|done].
  unfold mbind at 1, M_bind at 1. rewrite IH.
  by destruct (mapM (λ l0, mlp_call (default [] (weights_at h l0)) x) ls).
Qed.

Lemma wf_Q_weights self h :
  wf self h →
  Forall (λ l, is_Some (weights_at h l)) (PolicyWithQs.Qs self) ∧
  Forall (λ l, is_Some (weights_at h l)) (PolicyWithQs.Q_targets self) ∧
  length (PolicyWithQs.Q_targets self) = length (PolicyWithQs.Qs self).
Proof.
  intros Hwf.
  assert (Hpairs : Forall2 (λ q qt, is_Some (shapes_at h q) ∧ shapes_at h qt = shapes_at h q)
                     (PolicyWithQs.Qs self) (PolicyWithQs.Q_targets self)) by apply Hwf.
  assert (Hw : ∀ l, is_Some (shapes_at h l) → is_Some (weights_at h l)).
  { intros l [s Hs]. apply shapes_at_Some in Hs as (name & ws & Hl & _).
    unfold weights_at. rewrite Hl. eauto. }
  split; [|split].
  - apply Forall_forall. intros q Hq.
    apply list_elem_of_lookup in Hq as [i Hi].
    destruct (Forall2_lookup_l _ _ _ _ _ Hpairs Hi) as (qt & _ & Hs & _). by apply Hw.
  - apply Forall_forall. intros qt Hqt.
    apply list_elem_of_lookup in Hqt as [i Hi].
    destruct (Forall2_lookup_r _ _ _ _ _ Hpairs Hi) as (q & _ & Hs & Heq).
    apply Hw. by rewrite Heq.
  - symmetry. by eapply Forall2_length.
Qed.

(** X25. In a well-formed ensemble [compute_Qs] calls every Q network on
    the observations joined with the actions row by row, in the order of
    [Qs], and [compute_Q_targets] does so with the targets; a batch of
    actions with another number of rows stops both with an
    InvalidArgumentError before any network is called; the store is as
    before in every case. *)
Theorem compute_Qs_calls_every_network (self : PolicyWithQs.t F)
    (obs act : list (list F)) (h : gmap loc obj) :
  wf self h →
  (length obs = length act →
   PolicyWithQs.compute_Qs self obs act h
   = (mapM (λ q, mlp_call (default [] (weights_at h q)) (zip_with app obs act))
        (PolicyWithQs.Qs self), h) ∧
   PolicyWithQs.compute_Q_targets self obs act h
   = (mapM (λ q, mlp_call (default [] (weights_at h q)) (zip_with app obs act))
        (PolicyWithQs.Q_targets self), h)) ∧
  (length obs ≠ length act →
   PolicyWithQs.compute_Qs self obs act h = (Raise InvalidArgumentError, h) ∧
   PolicyWithQs.compute_Q_targets self obs act h = (Raise InvalidArgumentError, h)).
Proof.
  intros Hwf. destruct (wf_Q_weights _ _ Hwf) as (HQ & HQt & _).
  unfold PolicyWithQs.compute_Qs, PolicyWithQs.compute_Q_targets, tf_concat, lift.
  split; intros Hlen.
  - rewrite decide_True by done.
    split; unfold mbind at 1, M_bind at 1; by rewrite run_mapM_net_call.
  - by rewrite decide_False by done.
Qed.

(** X26. Right after construction every target critic answers as its
    critic does, on any input. *)
Theorem init_Q_targets_answer_as_Qs obs_space act_space (args : Args F)
    (h : gmap loc obj) (od ad : Z) :
  is_Box obs_space = true → is_Box act_space = true →
  match obs_dim args with None => shape0 obs_space | Some d => Return d end = Return od →
  match act_dim args with None => shape0 act_space | Some d => Return d end = Return ad →
  (0 ≤ Q_num args)%Z →
  ∃ self h', PolicyWithQs.init obs_space act_space args h = (Return self, h') ∧
    ∀ obs act, PolicyWithQs.compute_Q_targets self obs act h'
               = PolicyWithQs.compute_Qs self obs act h'.
Proof.
  intros Hobs Hact Hod Had HQ.
  destruct (run_init obs_space act_space args h od ad Hobs Hact Hod Had HQ)
    as (self & h' & Hinit & _ & Hwf & _ & _ & _ & Hpairs & _).
  exists self, h'. split; [done|]. intros obs act.
  destruct (wf_Q_weights _ _ Hwf) as (HQs & HQts & Hlen).
  unfold PolicyWithQs.compute_Qs, PolicyWithQs.compute_Q_targets, tf_concat, lift.
  destruct (decide (length obs = length act)); [|done].
  unfold mbind at 1, M_bind at 1. rewrite run_mapM_net_call by done.
  unfold mbind at 1, M_bind at 1. rewrite run_mapM_net_call by done. f_equal.
  assert (Hsame : Forall2 (λ qt q, weights_at h' qt = weights_at h' q)
                    (PolicyWithQs.Q_targets self) (PolicyWithQs.Qs self)).
  { apply Forall2_same_length_lookup_2; [done|]. intros i qt q Hqt Hq.
    destruct (Hpairs i q qt Hq Hqt) as [Hhq Hhqt]. unfold weights_at. by rewrite Hhq, Hhqt. }
  clear -Hsame. induction Hsame as [|qt q Qts Qs Heq _ IH]; [done|].
  cbn [mapM]. by rewrite Heq, IH.
Qed.
End Critics.

(** * PolicyWithValue *)

Section ValuePolicy.
Context {F : Type} `{Arith F} `{Optimizer F} `{MLPNetModel F}.

Lemma py_slice_from (grads : list (list F)) (a n : nat) :
  py_slice grads (Z.of_nat a) (Z.of_nat a + Z.of_nat n) = take n (drop a grads).
Proof.
  rewrite <- Nat2Z.inj_add, py_slice_nat. f_equal. lia.
Qed.

(** One round of the loop of [apply_gradients] *)
Lemma run_apply_gradients_round (self : PolicyWithValue.t F) grads i rest (a : nat)
    h m o name ws nm st :
  PolicyWithValue.models self !! i = Some m →
  PolicyWithValue.optimizers self !! i = Some o →
  h !! m = Some (Network name ws) → h !! o = Some (OptimizerObj nm st) →
  PolicyWithValue.apply_gradients_from self grads (Z.of_nat i :: rest) (Z.of_nat a) h
  = PolicyWithValue.apply_gradients_from self grads rest (Z.of_nat (a + length ws))
      (<[o := OptimizerObj nm
                (opt_next st (zip (take (length ws) (drop a grads))
                                (NetVar m <$> seq 0 (length ws))))]>
         (<[m := Network name (apply_pairs st m 0 (take (length ws) (drop a grads)) ws)]> h)).
Proof.
  intros Hm Ho Hhm Hho. cbn [PolicyWithValue.apply_gradients_from].
  erewrite run_bind by (unfold lift; by rewrite (py_getitem_nat _ _ _ Hm)).
  erewrite run_bind by (by eapply run_net_trainable_weights).
  erewrite run_bind by (unfold lift; by rewrite (py_getitem_nat _ _ _ Ho)).
  rewrite length_fmap, length_seq, py_slice_from.
  erewrite run_bind by (by eapply run_optimizer_network).
  by rewrite Nat2Z.inj_add.
Qed.


(** The values [get_weights] reads *)
Lemma run_value_get_weights (self : PolicyWithValue.t F) h :
  Forall (λ l, is_Some (weights_at h l)) (PolicyWithValue.models self) →
  PolicyWithValue.get_weights self h
  = (Return ((λ l, default [] (weights_at h l)) <$> PolicyWithValue.models self), h).
Proof.
  intros Hnets. unfold PolicyWithValue.get_weights.
  apply run_mapM_reads. intros l Hl.
  rewrite Forall_forall in Hnets. destruct (Hnets l Hl) as [ws Hws]. rewrite Hws.
  unfold weights_at in Hws.
  destruct (h !! l) as [[name ws'|?|?]|] eqn:Hhl; try done. injection Hws as ->.
  by eapply run_net_get_weights.
Qed.

(** X28. In [PolicyWithValue], what [get_weights] returned in one state,
    given to [set_weights] in any later state of the same networks, puts
    every model back to the parameters it had and leaves every other
    object alone. *)
Theorem value_set_weights_restores (self : PolicyWithValue.t F) (h0 h : gmap loc obj) :
  NoDup (PolicyWithValue.models self) →
  Forall (λ l, is_Some (weights_at h0 l)) (PolicyWithValue.models self) →
  same_signatures h0 h →
  ∃ weights h', PolicyWithValue.get_weights self h0 = (Return weights, h0) ∧
    PolicyWithValue.set_weights self weights h = (Return tt, h') ∧
    (∀ l, l ∈ PolicyWithValue.models self → h' !! l = h0 !! l) ∧
    (∀ l, l ∉ PolicyWithValue.models self → h' !! l = h !! l).
Proof.
  intros Hnd Hnets Hsame.
  exists ((λ l, default [] (weights_at h0 l)) <$> PolicyWithValue.models self).
  pose (I := λ (j : nat) (hj : gmap loc obj),
    (∀ l, l ∉ take j (PolicyWithValue.models self) → hj !! l = h !! l) ∧
    (∀ l, l ∈ take j (PolicyWithValue.models self) → hj !! l = h0 !! l)).
  unfold PolicyWithValue.set_weights.
  match goal with |- ∃ h', _ ∧ for_each ?l ?body h = _ ∧ _ =>
    destruct (run_for_each I l body h) as (h' & Hrun & Hframe & Hvals) end.
  - split; [done|]. intros l Hl. rewrite take_0 in Hl. by apply elem_of_nil in Hl.
  - intros j [i w] hj Hj (Hframe & Hvals).
    rewrite list_lookup_imap, list_lookup_fmap in Hj.
    destruct (PolicyWithValue.models self !! j) as [l|] eqn:Hl; [|done].
    simpl in Hj. injection Hj as <- <-.
    pose proof (list_elem_of_lookup_2 _ _ _ Hl) as Hl_in.
    rewrite Forall_forall in Hnets. destruct (Hnets l Hl_in) as [ws Hws].
    rewrite Hws. cbn [default from_option id].
    assert (Hh0 : ∃ name, h0 !! l = Some (Network name ws)).
    { unfold weights_at in Hws. destruct (h0 !! l) as [[name ws'|?|?]|]; try done.
      injection Hws as ->. eauto. }
    destruct Hh0 as [name Hh0].
    assert (Hlj : hj !! l = h !! l).
    { apply Hframe. intros (j' & Hj' & Hlt)%elem_of_take.
      pose proof (NoDup_lookup _ _ _ _ Hnd Hj' Hl). lia. }
    assert (Hsig : signature_at h l = Some (SigNetwork name (shapes ws))).
    { rewrite (Hsame l). unfold signature_at. by rewrite Hh0. }
    unfold signature_at in Hsig.
    destruct (h !! l) as [[name' ws'|?|?]|] eqn:Hhl; try done.
    simpl in Hsig. injection Hsig as -> Hshapes.
    exists (<[l := Network name ws]> hj). split.
    { cbn [fst snd]. unfold lift.
      erewrite run_bind by by rewrite (py_getitem_nat _ _ _ Hl).
      by eapply run_net_set_weights. }
    split.
    + intros l' Hl'. rewrite (take_S_r _ _ _ Hl) in Hl'.
      rewrite lookup_insert_ne by set_solver. apply Hframe. set_solver.
    + intros l' Hl'. rewrite (take_S_r _ _ _ Hl) in Hl'.
      apply elem_of_app in Hl' as [Hl'|Hl'].
      * rewrite lookup_insert_ne; [by apply Hvals|].
        intros <-. apply elem_of_take in Hl' as (j' & Hj' & Hlt).
        pose proof (NoDup_lookup _ _ _ _ Hnd Hj' Hl). lia.
      * apply list_elem_of_singleton in Hl' as ->. by rewrite lookup_insert_eq.
  - exists h'. split; [by apply run_value_get_weights|]. split; [exact Hrun|].
    rewrite length_imap, length_fmap, firstn_all in Hframe, Hvals. done.
Qed.
End ValuePolicy.

(** * The policy on an update iteration *)

Section PolicyUpdate.
Context {F : Type} `{Arith F} `{Optimizer F} `{MLPNetModel F}.

End PolicyUpdate.

(** * The properties on the examples *)

Lemma same_signatures_fmap `{Arith F} `{Optimizer F} `{MLPNetModel F} (h h' : gmap loc obj) :
  obj_signature <$> h' = obj_signature <$> h → same_signatures h h'.
Proof.
  intros Heq l. unfold signature_at. by rewrite <- !lookup_fmap, Heq.
Qed.


Lemma init_initial_values_witness :
  ∃ self h', PolicyWithQs.init (Box [1%Z]) (Box [1%Z]) args0 ∅ = (Return self, h') ∧
    weights_at h' (PolicyWithQs.policy self) = Some (initial_weights 1 2 128 2 "policy").
Proof.
  destruct (init_initial_values (Box [1%Z]) (Box [1%Z]) args0 ∅ 1 1)
    as (self & h' & Hrun & Hp & _).
  - reflexivity.
  - reflexivity.
  - reflexivity.
  - reflexivity.
  - simpl. lia.
  - exists self, h'. split; [exact Hrun|exact Hp].
Defined.

Lemma init_rejects_discrete_space_witness :
  PolicyWithQs.init (Box [1%Z]) (Discrete 3) args0 ∅ = (Raise AssertionError, ∅).
Proof.
  apply init_rejects_discrete_space. right. reflexivity.
Defined.





Lemma update_Q_targets_blends_targets_witness :
  ∃ h', PolicyWithQs.update_Q_targets self0 store1 = (Return tt, h') ∧ wf self0 h'.
Proof.
  destruct (update_Q_targets_blends_targets self0 store1) as (h' & Hrun & Hwf & _).
  - apply (bool_decide_unpack _); vm_compute; exact I.
  - exists h'. split; [exact Hrun|exact Hwf].
Defined.

Lemma apply_gradients_keeps_well_formed_witness :
  wf self0 (PolicyWithQs.apply_gradients self0 2 grads9 store0).2.
Proof.
  apply (apply_gradients_keeps_well_formed self0 2 grads9 store0).
  apply (bool_decide_unpack _); vm_compute; exact I.
Defined.


Lemma get_weights_covers_models_witness :
  PolicyWithQs.get_weights self0 store0
  = (Return ((entry_at store0 <$> [3; 4]) ++ entry_at store0 0 :: [PolicyWithQs.Object 9]),
     store0).
Proof.
  apply (get_weights_covers_models self0 store0).
  apply (bool_decide_unpack _); vm_compute; exact I.
Defined.

Lemma set_weights_get_weights_round_trip_witness :
  ∃ weights, PolicyWithQs.get_weights self0 store1 = (Return weights, store1) ∧
    PolicyWithQs.set_weights self0 weights store1 = (Return tt, store1).
Proof.
  apply (set_weights_get_weights_round_trip self0 store1).
  apply (bool_decide_unpack _); vm_compute; exact I.
Defined.

Lemma set_weights_restores_optimized_networks_witness :
  ∃ weights h', PolicyWithQs.get_weights self0 store0 = (Return weights, store0) ∧
    PolicyWithQs.set_weights self0 weights store1 = (Return tt, h') ∧
    weights_at h' 3 = weights_at store0 3.
Proof.
  destruct (set_weights_restores_optimized_networks self0 store0 store1)
    as (weights & h' & Hget & Hset & _ & Hvals & _).
  - apply (bool_decide_unpack _); vm_compute; exact I.
  - apply same_signatures_fmap. vm_compute. reflexivity.
  - exists weights, h'. split; [exact Hget|]. split; [exact Hset|].
    apply Hvals. apply list_elem_of_here.
Defined.


Lemma trainable_weights_follow_gradient_layout_witness :
  ∃ vars, PolicyWithQs.trainable_weights self0 store0 = (Return vars, store0) ∧
    length vars = 2 * count_at store0 3 + count_at store0 0 + 1.
Proof.
  destruct (trainable_weights_follow_gradient_layout self0 store0)
    as (vars & Hrun & Hlen & _).
  - apply (bool_decide_unpack _); vm_compute; exact I.
  - exists vars. split; [exact Hrun|exact Hlen].
Defined.






Lemma compute_action_agrees_with_compute_neglogp_witness :
  ∃ action neglogp,
    PolicyWithQs.compute_action policy_R [[1%R; 0%R]] [[2%R]] store_R
    = (Return (action, neglogp), store_R) ∧
    PolicyWithQs.compute_neglogp policy_R [[1%R; 0%R]] action store_R
    = (Return neglogp, store_R).
Proof.
  destruct (compute_action_agrees_with_compute_neglogp policy_R [[1%R; 0%R]] [[2%R]]
              [[1%R; 0%R]] 1 "policy" [[1%R; 2%R]; [0%R]] store_R)
    as (action & neglogp & Hact & Hneg & _).
  - reflexivity.
  - reflexivity.
  - repeat constructor.
  - repeat constructor.
  - reflexivity.
  - exists action, neglogp. split; [exact Hact|exact Hneg].
Defined.


Lemma compute_Qs_calls_every_network_witness :
  PolicyWithQs.compute_Qs self0 [[1%Q]] [[2%Q]; [3%Q]] store0
  = (Raise InvalidArgumentError, store0).
Proof.
  destruct (compute_Qs_calls_every_network self0 [[1%Q]] [[2%Q]; [3%Q]] store0) as [_ Hbad].
  - apply (bool_decide_unpack _); vm_compute; exact I.
  - apply Hbad. simpl. lia.
Defined.

Lemma init_Q_targets_answer_as_Qs_witness :
  ∃ self h', PolicyWithQs.init (Box [1%Z]) (Box [1%Z]) args0 ∅ = (Return self, h') ∧
    PolicyWithQs.compute_Q_targets self [[1%Q]] [[2%Q]] h'
    = PolicyWithQs.compute_Qs self [[1%Q]] [[2%Q]] h'.
Proof.
  destruct (init_Q_targets_answer_as_Qs (Box [1%Z]) (Box [1%Z]) args0 ∅ 1 1)
    as (self & h' & Hrun & Hsame).
  - reflexivity.
  - reflexivity.
  - reflexivity.
  - reflexivity.
  - simpl. lia.
  - exists self, h'. split; [exact Hrun|apply Hsame].
Defined.


Lemma value_set_weights_restores_witness :
  ∃ weights h', PolicyWithValue.get_weights value_R store_R = (Return weights, store_R) ∧
    PolicyWithValue.set_weights value_R weights store_R = (Return tt, h').
Proof.
  destruct (value_set_weights_restores value_R store_R store_R)
    as (weights & h' & Hget & Hset & _).
  - apply (bool_decide_unpack _); vm_compute; exact I.
  - repeat constructor; eexists; reflexivity.
  - apply same_signatures_refl.
  - exists weights, h'. split; [exact Hget|exact Hset].
Defined.

Lemma gaussian_init_splits_logits_witness :
  ∃ d, GuassianDistribution.init [[1%R; 0%R]] = Return d ∧
    zip_with app (GuassianDistribution.mean d) (GuassianDistribution.logstd d)
    = [[1%R; 0%R]].
Proof.
  destruct (gaussian_init_splits_logits [[1%R; 0%R]]) as [Hok _].
  destruct Hok as (d & Hd & Hjoin & _).
  - repeat constructor.
  - exists d. split; [exact Hd|exact Hjoin].
Defined.

